(** * autometrics-ts: the instrumentation wrapper and the push-gateway exporter

    A shallow embedding of [packages/autometrics/src/wrappers.ts] (the
    [autometrics] wrapper) and of the [PushGatewayExporter] class, followed by
    the properties of both that the specification states. *)

From stdpp Require Import base strings list gmap.
From Stdlib Require Import ZArith.

(** ** The instrumentation engine ([autometrics]) *)
Module Wrappers.

(** A label value of OpenTelemetry's [Attributes]: the engine only stores
    strings, and [undefined] where a name could not be resolved
    ([moduleName] is [string | undefined]). *)
Inductive AttributeValue :=
| AttrString (s : string)
| AttrUndefined.

#[global] Instance AttributeValue_eq_dec : EqDecision AttributeValue.
Proof. solve_decision. Defined.

(** [Attributes]: a flat JS object used as a map from label names to values. *)
Abbreviation Attributes := (gmap string AttributeValue).

(** [Objective] (declared in [./objectives]): the fields [autometrics]
    destructures, [const { latency, name, successRate } = objective].
    Percentiles and thresholds are the enums' string values. *)
Record Objective := {
  name : string;
  successRate : option string;
  latency : option (string * string);
}.

(** What the metrics primitives and the loggers are asked to do, in program
    order.  Instruments are created once per [autometrics] call and are
    long-lived handles; only the observations are recorded here.  The value a
    histogram records is a duration read from [performance.now()]; it is not
    part of the model. *)
Inductive Event (E : Type) :=
| CounterAdd (delta : Z) (attrs : Attributes)
| HistogramRecord (attrs : Attributes)
| GaugeAdd (delta : Z) (attrs : Attributes)
| MetricsRecorded
| Warn (msg : string)
| Trace (msg : string) (err : E).
Arguments CounterAdd {E} delta attrs.
Arguments HistogramRecord {E} attrs.
Arguments GaugeAdd {E} delta attrs.
Arguments MetricsRecorded {E}.
Arguments Warn {E} msg.
Arguments Trace {E} msg err.

(** How a JS statement sequence ends: normally with a value, or by [throw]. *)
Inductive Res (E A : Type) :=
| Normal (a : A)
| Raised (e : E).
Arguments Normal {E A} a.
Arguments Raised {E A} e.

(** A computation: the events it performed, and how it ended. *)
Definition Eff (E A : Type) : Type := list (Event E) * Res E A.

Definition ret {E A} (a : A) : Eff E A := ([], Normal a).

Definition throw {E A} (e : E) : Eff E A := ([], Raised e).

Definition emit {E} (ev : Event E) : Eff E unit := ([ev], Normal tt).

Definition bind {E A B} (m : Eff E A) (k : A -> Eff E B) : Eff E B :=
  match m with
  | (evs, Normal a) => let '(evs', r) := k a in (evs ++ evs', r)
  | (evs, Raised e) => (evs, Raised e)
  end.

(** [try { m } catch (e) { h e }] *)
Definition try_catch {E A} (m : Eff E A) (h : E -> Eff E A) : Eff E A :=
  match m with
  | (evs, Normal a) => (evs, Normal a)
  | (evs, Raised e) => let '(evs', r) := h e in (evs ++ evs', r)
  end.

(** stdpp's monad notations: [x ← m; k] and [m;; k]. *)
#[global] Instance Eff_ret {E} : MRet (Eff E) := fun A => ret.
#[global] Instance Eff_bind {E} : MBind (Eff E) := fun A B k m => bind m k.

(** How a promise ends. *)
Inductive Settlement (V E : Type) :=
| Fulfilled (v : V)
| Rejected (e : E).
Arguments Fulfilled {V E} v.
Arguments Rejected {V E} e.

(** A promise, seen from the call that returned it: the events that happen
    asynchronously on its behalf before it settles, and its settlement; or a
    promise that never settles. *)
Inductive Promise (V E : Type) :=
| Settles (later : list (Event E)) (s : Settlement V E)
| NeverSettles (later : list (Event E)).
Arguments Settles {V E} later s.
Arguments NeverSettles {V E} later.

(** [p.then(h)]: [h] runs when [p] fulfils; the new promise fulfils with what
    [h] returns and rejects with what [h] throws; a rejection passes through. *)
Definition promise_then {V E} (p : Promise V E) (h : V -> Eff E V) : Promise V E :=
  match p with
  | Settles later (Fulfilled v) =>
      let '(evs, r) := h v in
      Settles (later ++ evs)
        match r with Normal v' => Fulfilled v' | Raised e => Rejected e end
  | Settles later (Rejected e) => Settles later (Rejected e)
  | NeverSettles later => NeverSettles later
  end.

(** [p.catch(h)]: [h] runs when [p] rejects; a fulfilment passes through. *)
Definition promise_catch {V E} (p : Promise V E) (h : E -> Eff E V) : Promise V E :=
  match p with
  | Settles later (Rejected e) =>
      let '(evs, r) := h e in
      Settles (later ++ evs)
        match r with Normal v' => Fulfilled v' | Raised e' => Rejected e' end
  | Settles later (Fulfilled v) => Settles later (Fulfilled v)
  | NeverSettles later => NeverSettles later
  end.

(** What a call returns: an immediate value or a promise.

    Modelled from the spec: [isPromise] of [./utils] is not among the sources;
    "result handling is bifurcated by whether the return value is an
    eventually-settling asynchronous result or an immediate value". *)
Inductive ReturnValue (V E : Type) :=
| Plain (v : V)
| Thenable (p : Promise V E).
Arguments Plain {V E} v.
Arguments Thenable {V E} p.

(** The receiver of a call, [this].  The module is strict code: a plain call
    [f()] leaves it [undefined], and neither [undefined] nor [null] is
    replaced by the global object. *)
Inductive Receiver (V : Type) :=
| ThisUndefined
| ThisNull
| ThisValue (v : V).
Arguments ThisUndefined {V}.
Arguments ThisNull {V}.
Arguments ThisValue {V} v.

(** The caller context propagator, as [wrappers.ts] uses it. *)
Module ALS.

(** The store of the caller context: [{ caller: functionName }]. *)
Record ALSContext := { caller : string }.

(** The [AsyncLocalStorage] instance as running code sees it: the store that
    is current for it.  The module variable [asyncLocalStorage] is
    [ALSInstance | undefined], hence an [option] wherever it is read. *)
Record ALSInstance := { getStore : option ALSContext }.

(** [asyncLocalStorage.run(store, callback)]: [callback] and everything it
    calls see [store]; the store of the code around the call is untouched.
    [run] is given the function alone, so the call it makes has no receiver
    of the caller's: Node's [AsyncLocalStorage] applies [callback] to
    [null]. *)
Definition run {V A} (_ : ALSInstance) (store : ALSContext)
    (callback : Receiver V -> option ALSInstance -> A) : A :=
  callback ThisNull (Some {| getStore := Some store |}).

End ALS.

(** A function value: its [name] property and what applying it does,
    [f.apply(this, params)], as a function of the receiver, of the
    parameters and of the caller context the call runs in. *)
Record FunctionSig (V E : Type) := {
  fn_name : string;
  fn_apply : Receiver V -> list V -> option ALS.ALSInstance -> Eff E (ReturnValue V E);
}.
Arguments fn_name {V E} _.
Arguments fn_apply {V E} _ _ _ _.

(** [AutometricsOptions<F>]: every field is optional.  The predicates return
    a boolean or throw. *)
Record AutometricsOptions (V E : Type) := {
  opt_functionName : option string;
  opt_moduleName : option string;
  opt_objective : option Objective;
  opt_trackConcurrency : option bool;
  opt_recordErrorIf : option (V -> Res E bool);
  opt_recordSuccessIf : option (E -> Res E bool);
}.
Arguments opt_functionName {V E} _.
Arguments opt_moduleName {V E} _.
Arguments opt_objective {V E} _.
Arguments opt_trackConcurrency {V E} _.
Arguments opt_recordErrorIf {V E} _.
Arguments opt_recordSuccessIf {V E} _.

(** The two call shapes, [autometrics(fn)] and [autometrics(options, fn)];
    the second slot is [args[1]], which may be missing. *)
Inductive Args (V E : Type) :=
| ArgsFn (fnInput : FunctionSig V E)
| ArgsOptions (options : AutometricsOptions V E) (maybeFn : option (FunctionSig V E)).
Arguments ArgsFn {V E} fnInput.
Arguments ArgsOptions {V E} options maybeFn.

(** The variables the returned wrapper closes over, under the names
    [autometrics] gives them.  [concurrencyGauge] is the up-down counter or
    [null]; only whether it is there matters. *)
Record Closure (V E : Type) := {
  functionName : string;
  moduleName : option string;
  fn : FunctionSig V E;
  counterObjectiveAttributes : Attributes;
  histogramObjectiveAttributes : Attributes;
  concurrencyGauge : bool;
  caller : AttributeValue;
  recordErrorIf : option (V -> Res E bool);
  recordSuccessIf : option (E -> Res E bool);
}.
Arguments functionName {V E} _.
Arguments moduleName {V E} _.
Arguments fn {V E} _.
Arguments counterObjectiveAttributes {V E} _.
Arguments histogramObjectiveAttributes {V E} _.
Arguments concurrencyGauge {V E} _.
Arguments caller {V E} _.
Arguments recordErrorIf {V E} _.
Arguments recordSuccessIf {V E} _.

(** A label value from a [string | undefined]. *)
Definition attr (s : option string) : AttributeValue :=
  match s with Some s => AttrString s | None => AttrUndefined end.

(** [counterObjectiveAttributes] as lines 235-261 leave it: both labels start
    as the empty string and are overwritten from the objective.
    [if (successRate)] is JS truthiness: a string counts when it is not
    empty. *)
Definition counterObjectiveAttributesOf (objective : option Objective) : Attributes :=
  let counterObjectiveAttributes : Attributes :=
    {[ "objective_name" := AttrString ""; "objective_percentile" := AttrString "" ]} in
  match objective with
  | Some objective =>
      let counterObjectiveAttributes :=
        <["objective_name" := AttrString (name objective)]> counterObjectiveAttributes in
      match successRate objective with
      | Some successRate =>
          if decide (successRate = "") then counterObjectiveAttributes
          else <["objective_percentile" := AttrString successRate]> counterObjectiveAttributes
      | None => counterObjectiveAttributes
      end
  | None => counterObjectiveAttributes
  end.

(** [histogramObjectiveAttributes] as lines 240-261 leave it. *)
Definition histogramObjectiveAttributesOf (objective : option Objective) : Attributes :=
  let histogramObjectiveAttributes : Attributes :=
    {[ "objective_name" := AttrString "";
       "objective_latency_threshold" := AttrString "";
       "objective_percentile" := AttrString "" ]} in
  match objective with
  | Some objective =>
      let histogramObjectiveAttributes :=
        <["objective_name" := AttrString (name objective)]> histogramObjectiveAttributes in
      match latency objective with
      | Some (threshold, latencyPercentile) =>
          <["objective_percentile" := AttrString latencyPercentile]>
            (<["objective_latency_threshold" := AttrString threshold]>
               histogramObjectiveAttributes)
      | None => histogramObjectiveAttributes
      end
  | None => histogramObjectiveAttributes
  end.

Section Engine.
Context {V E : Type}.

(** The label of a call that no instrumented function encloses. *)
Variable no_caller : AttributeValue.

(** Modelled from the spec: [getALSCaller] of [./utils] is not among the
    sources.  "[read()] outside any [run] scope yields a sentinel no caller";
    inside one it yields the [caller] of the store.  The propagator is
    "absent in browser-like execution contexts": nothing can be read then. *)
Definition getALSCaller (context : option ALS.ALSInstance) : AttributeValue :=
  match context with
  | Some als =>
      match ALS.getStore als with
      | Some store => AttrString (ALS.caller store)
      | None => no_caller
      end
  | None => no_caller
  end.

(** [concurrencyGauge?.add(delta, attrs)] *)
Definition gaugeAdd (c : Closure V E) (delta : Z) (attrs : Attributes) : Eff E unit :=
  if concurrencyGauge c then emit (GaugeAdd delta attrs) else ret tt.

(** A predicate's result, as the computation that called it sees it. *)
Definition call {A} (r : Res E A) : Eff E A := ([], r).

(** In [{ function: ..., ...counterObjectiveAttributes }] the spread comes
    last and wins: the union is left-biased, with the spread on the left. *)
Definition onSuccess (c : Closure V E) : Eff E unit :=
  emit (CounterAdd 1
    (counterObjectiveAttributes c ∪
     {[ "function" := AttrString (functionName c);
        "module" := attr (moduleName c);
        "result" := AttrString "ok";
        "caller" := caller c ]}));;
  emit (HistogramRecord
    (histogramObjectiveAttributes c ∪
     {[ "function" := AttrString (functionName c);
        "module" := attr (moduleName c);
        "caller" := caller c ]}));;
  gaugeAdd c (-1)
    {[ "function" := AttrString (functionName c);
       "module" := attr (moduleName c) ]};;
  emit MetricsRecorded.

Definition onError (c : Closure V E) : Eff E unit :=
  emit (CounterAdd 1
    (counterObjectiveAttributes c ∪
     {[ "function" := AttrString (functionName c);
        "module" := attr (moduleName c);
        "result" := AttrString "error";
        "caller" := caller c ]}));;
  emit (HistogramRecord
    (histogramObjectiveAttributes c ∪
     {[ "function" := AttrString (functionName c);
        "module" := attr (moduleName c);
        "caller" := caller c ]}));;
  gaugeAdd c (-1)
    {[ "function" := AttrString (functionName c);
       "module" := attr (moduleName c);
       "caller" := caller c ]};;
  emit MetricsRecorded.

(** [recordErrorIf?.(returnValue)] is [undefined], hence falsy, when no
    predicate was given. *)
Definition recordSuccess (c : Closure V E) (returnValue : V) : Eff E unit :=
  try_catch
    (isError ← match recordErrorIf c with
               | Some recordErrorIf => call (recordErrorIf returnValue)
               | None => ret false
               end;
     if isError : bool then onError c else onSuccess c)
    (fun callbackError =>
       onSuccess c;;
       emit (Trace "Error in recordErrorIf function: " callbackError)).

Definition recordError (c : Closure V E) (error : E) : Eff E unit :=
  try_catch
    (isSuccess ← match recordSuccessIf c with
                 | Some recordSuccessIf => call (recordSuccessIf error)
                 | None => ret false
                 end;
     if isSuccess : bool then onSuccess c else onError c)
    (fun callbackError =>
       onError c;;
       emit (Trace "Error in recordSuccessIf function: " callbackError)).

(** [instrumentedFn] is a function declaration, so the [this] of
    [fn.apply(this, params)] is the receiver [instrumentedFn] itself is
    called with, not the wrapper's. *)
Definition instrumentedFn (c : Closure V E) (params : list V)
    (this : Receiver V) (context : option ALS.ALSInstance) : Eff E (ReturnValue V E) :=
  try_catch
    (returnValue ← fn_apply (fn c) this params context;
     match returnValue with
     | Thenable p =>
         ret (Thenable
           (promise_catch
              (promise_then p (fun result => recordSuccess c result;; ret result))
              (fun error => recordError c error;; throw error)))
     | Plain v =>
         recordSuccess c v;;
         ret returnValue
     end)
    (fun error => recordError c error;; throw error).

(** The function [autometrics] returns, [function (...params) { ... }]: an
    anonymous function expression, so its [name] is empty.  It reads the
    module variable [asyncLocalStorage] when it is called.  Its own receiver
    is read nowhere: [instrumentedFn] is handed to [run], or called plainly
    as [instrumentedFn()], which leaves its [this] [undefined]. *)
Definition wrapper (c : Closure V E) : FunctionSig V E :=
  {| fn_name := "";
     fn_apply := fun this params asyncLocalStorage =>
       gaugeAdd c 1
         {[ "function" := AttrString (functionName c);
            "module" := attr (moduleName c) ]};;
       match asyncLocalStorage with
       | Some als =>
           ALS.run als {| ALS.caller := functionName c |} (instrumentedFn c params)
       | None => instrumentedFn c params ThisUndefined asyncLocalStorage
       end |}.

Definition no_name_warning : string :=
  "Decorated functions must have a name to successfully create a metric. Function will not be instrumented.".

(** Lines 196-278 of [autometrics(...args)]: the variables the returned
    function closes over, or nothing when [!functionName] holds (the name is
    [undefined] or empty) and the call returns early.  [modulePath] is what
    [getModulePath()] returns for this call site, and [asyncLocalStorage] the
    module variable when [autometrics] is called. *)
Definition closure (args : Args V E) (modulePath : option string)
    (asyncLocalStorage : option ALS.ALSInstance) : option (Closure V E) :=
  let close functionName moduleName fn objective trackConcurrency
        recordErrorIf recordSuccessIf :=
    if decide (functionName = "") then None
    else
      Some {| functionName := functionName;
              moduleName := moduleName;
              fn := fn;
              counterObjectiveAttributes := counterObjectiveAttributesOf objective;
              histogramObjectiveAttributes := histogramObjectiveAttributesOf objective;
              concurrencyGauge := trackConcurrency;
              caller := getALSCaller asyncLocalStorage;
              recordErrorIf := recordErrorIf;
              recordSuccessIf := recordSuccessIf |} in
  match args with
  | ArgsFn fn =>
      close (fn_name fn) modulePath fn None false None None
  | ArgsOptions options (Some fn) =>
      close (default (fn_name fn) (opt_functionName options))
            (match opt_moduleName options with
             | Some moduleName => Some moduleName
             | None => modulePath
             end)
            fn
            (opt_objective options)
            (default false (opt_trackConcurrency options))
            (opt_recordErrorIf options)
            (opt_recordSuccessIf options)
  | ArgsOptions _ None => None
  end.

(** The local [fn] after lines 204-221: [undefined] when the first argument is
    an options object and no function follows it. *)
Definition fnOf (args : Args V E) : option (FunctionSig V E) :=
  match args with
  | ArgsFn fnOrOptions => Some fnOrOptions
  | ArgsOptions _ maybeFn => maybeFn
  end.

(** [autometrics(...args)]: the early return with the warning, or the
    zero-valued counter observation and the wrapper.  The result is the
    returned function ([undefined] when [fn] was never assigned). *)
Definition autometrics (args : Args V E) (modulePath : option string)
    (asyncLocalStorage : option ALS.ALSInstance) : Eff E (option (FunctionSig V E)) :=
  match closure args modulePath asyncLocalStorage with
  | None =>
      emit (Warn no_name_warning);;
      ret (fnOf args)
  | Some c =>
      emit (CounterAdd 0
        (counterObjectiveAttributes c ∪
         {[ "function" := AttrString (functionName c);
            "module" := attr (moduleName c);
            "result" := AttrString "ok";
            "caller" := caller c ]}));;
      ret (Some (wrapper c))
  end.

(** Everything one call does, now and until the promise it returned settles. *)
Definition all_events (r : Eff E (ReturnValue V E)) : list (Event E) :=
  r.1 ++
  match r.2 with
  | Normal (Thenable (Settles later _)) => later
  | Normal (Thenable (NeverSettles later)) => later
  | _ => []
  end.

(** What the caller of a function observes of one call, effects apart. *)
Inductive Outcome :=
| Returned (v : V)
| Threw (e : E)
| Settled (s : Settlement V E)
| StaysPending.

Definition outcome (r : Eff E (ReturnValue V E)) : Outcome :=
  match r.2 with
  | Normal (Plain v) => Returned v
  | Raised e => Threw e
  | Normal (Thenable (Settles _ s)) => Settled s
  | Normal (Thenable (NeverSettles _)) => StaysPending
  end.

Implicit Types (c : Closure V E) (context : option ALS.ALSInstance).

(** *** Observations of a trace, used to state the properties *)

(** The context [instrumentedFn], and so the wrapped function, runs in. *)
Definition calleeContext c context : option ALS.ALSInstance :=
  match context with
  | Some _ => Some {| ALS.getStore := Some {| ALS.caller := functionName c |} |}
  | None => None
  end.

(** The receiver [instrumentedFn], and so the wrapped function, is called
    with: the one [run] gives its callback, or none. *)
Definition calleeReceiver context : Receiver V :=
  match context with
  | Some _ => ThisNull
  | None => ThisUndefined
  end.

(** The increment of the concurrency gauge on entry. *)
Definition entryEvents c : list (Event E) :=
  (gaugeAdd c 1
     {[ "function" := AttrString (functionName c);
        "module" := attr (moduleName c) ]}).1.

(** The objective [autometrics] reads from its arguments. *)
Definition objectiveOf (args : Args V E) : option Objective :=
  match args with
  | ArgsOptions options (Some _) => opt_objective options
  | _ => None
  end.

(** The counter increments of a trace, by their [result] label, in order.
    The zero-valued observation made when a function is wrapped is no
    increment. *)
Definition counterResults (evs : list (Event E)) : list (option AttributeValue) :=
  omap (fun ev =>
          match ev with
          | CounterAdd 1 attrs => Some (attrs !! "result")
          | _ => None
          end) evs.

(** The label sets of the counter observations of a trace. *)
Definition counterAttributes (evs : list (Event E)) : list Attributes :=
  omap (fun ev => match ev with CounterAdd _ attrs => Some attrs | _ => None end) evs.

(** The label sets of the histogram records of a trace. *)
Definition histogramAttributes (evs : list (Event E)) : list Attributes :=
  omap (fun ev => match ev with HistogramRecord attrs => Some attrs | _ => None end) evs.

(** Whether an event is an observation of the counter or of the histogram. *)
Definition isCallMetric (ev : Event E) : bool :=
  match ev with
  | CounterAdd _ _ | HistogramRecord _ => true
  | _ => false
  end.

(** Every observation a wrapped function makes of itself: the one
    [autometrics] makes when it wraps, and those of the two recording paths. *)
Definition emitted (args : Args V E) modulePath asyncLocalStorage c : list (Event E) :=
  (autometrics args modulePath asyncLocalStorage).1 ++
  (onSuccess c).1 ++ (onError c).1.

(** The label sets of the two recording paths. *)
Definition counterLabels c (result : string) : Attributes :=
  counterObjectiveAttributes c ∪
  {[ "function" := AttrString (functionName c);
     "module" := attr (moduleName c);
     "result" := AttrString result;
     "caller" := caller c ]}.

Definition histogramLabels c : Attributes :=
  histogramObjectiveAttributes c ∪
  {[ "function" := AttrString (functionName c);
     "module" := attr (moduleName c);
     "caller" := caller c ]}.

(** What follows the counter and the histogram on the success path. *)
Definition successTail c : list (Event E) :=
  (gaugeAdd c (-1)
     {[ "function" := AttrString (functionName c);
        "module" := attr (moduleName c) ]}).1 ++ [MetricsRecorded].

(** What follows them on the error path. *)
Definition errorTail c : list (Event E) :=
  (gaugeAdd c (-1)
     {[ "function" := AttrString (functionName c);
        "module" := attr (moduleName c);
        "caller" := caller c ]}).1 ++ [MetricsRecorded].

(** The labels of the gauge's increment. *)
Definition entryLabels c : Attributes :=
  {[ "function" := AttrString (functionName c); "module" := attr (moduleName c) ]}.

(** The value of one series of the concurrency gauge after a trace: an
    up-down counter adds up the deltas it is given, per label set. *)
Definition gaugeValue (attrs : Attributes) (evs : list (Event E)) : Z :=
  foldr (fun ev acc =>
           match ev with
           | GaugeAdd delta attrs' =>
               if decide (attrs' = attrs) then (delta + acc)%Z else acc
           | _ => acc
           end) 0%Z evs.

End Engine.

End Wrappers.

(** ** The push-gateway exporter ([PushGatewayExporter]) *)
Module PushGateway.

(** What the environment makes of a promise: JS runs without preemption, so a
    promise is pending until a later turn of the event loop settles it, once. *)
Inductive Settlement (A : Type) :=
| Pending
| Fulfilled (a : A)
| Rejected (error : string).
Arguments Pending {A}.
Arguments Fulfilled {A} a.
Arguments Rejected {A} error.

(** The part of a [fetch] response [_export] reads. *)
Record Response := { ok : bool; statusText : string }.

(** [ExportResult]: [{ code: SUCCESS }] or [{ code: FAILED, error }], the
    error by its message. *)
Inductive ExportResult :=
| SUCCESS
| FAILED (error : string).

(** What the exporter does to the world around it, in program order.  A
    rejected promise that nothing handles is reported by the runtime. *)
Inductive Effect :=
| ResultCallback (resultCallback : nat) (result : ExportResult)
| Serialize (serializedMetrics : string)
| Fetch (promise : nat) (body : string)
| Debug (msg : string)
| UnhandledRejection (error : string).

(** [_concurrencyLimit]: a count of deliveries, or [Infinity]. *)
Inductive Limit :=
| Finite (n : nat)
| Infinity.

(** [length >= limit] *)
Definition reached (length : nat) (limit : Limit) : bool :=
  match limit with
  | Finite n => bool_decide (n ≤ length)
  | Infinity => false
  end.

(** How far the two handlers that [export] chains on [_export]'s promise,
    [.then(() => resultCallback(SUCCESS)).catch((error) =>
    resultCallback(FAILED, error))], have come with a request: neither has
    run; the first has run and the callback threw, so the second is to run
    with what it threw; or they are done, the callback having been called
    once or twice. *)
Inductive Answer :=
| Unanswered
| Retrying (error : string)
| Answered (twice : bool).

(** A promise [fetch] returned, with the [resultCallback] that [export]
    chained on it. *)
Record Delivery := {
  state : Settlement Response;
  resultCallback : nat;
  answer : Answer;
}.

(** A promise [forceFlush] returned: [Promise.all(inputs).then(() => {})]. *)
Record Flush := {
  inputs : list nat;
  outcome : Settlement unit;
}.

(** The promises the exporter hands out. *)
Inductive PromiseRef :=
| FlushPromise (i : nat)
| ShutdownPromise.

(** Modelled from the spec: [BindOnceFuture] comes from [@opentelemetry/core]
    and is not among the sources.  "A guarded state transition (atomic flag +
    memoized result)": "the shutdown flag transitions true exactly once,
    idempotently, the first time shutdown is requested; all subsequent
    shutdown requests return the same outcome without re-running shutdown
    logic".  [isCalled] is the flag; [_deferred] is the one promise every
    [call] returns, by the promise it follows once the callback has run: the
    one the callback returned. *)
Record BindOnceFuture := {
  isCalled : bool;
  _deferred : option PromiseRef;
}.

(** The exporter's fields, then the promises it created ([fetched] and
    [flushed], a promise being its index there) and what it did. *)
Record PushGatewayExporter := {
  _concurrencyLimit : Limit;
  _sendingPromises : list nat;
  _shutdownOnce : BindOnceFuture;
  fetched : list Delivery;
  flushed : list Flush;
  effects : list Effect;
}.

Definition log (e : Effect) (x : PushGatewayExporter) : PushGatewayExporter :=
  {| _concurrencyLimit := _concurrencyLimit x;
     _sendingPromises := _sendingPromises x;
     _shutdownOnce := _shutdownOnce x;
     fetched := fetched x;
     flushed := flushed x;
     effects := effects x ++ [e] |}.

(** [new PushGatewayExporter(_options)]: [_options.concurrencyLimit ??
    Infinity].  The [unload] listener of a browser calls [shutdown] like any
    other caller. *)
Definition constructor (concurrencyLimit : option nat) : PushGatewayExporter :=
  {| _concurrencyLimit :=
       match concurrencyLimit with Some n => Finite n | None => Infinity end;
     _sendingPromises := [];
     _shutdownOnce := {| isCalled := false; _deferred := None |};
     fetched := [];
     flushed := [];
     effects := [] |}.

(** [_export(serializedMetrics)]: start the request and push its promise.
    The handlers chained on it run once it has settled, see [fetchSettles]
    and [handlerRuns]. *)
Definition _export (serializedMetrics : string) (callback : nat)
    (x : PushGatewayExporter) : PushGatewayExporter :=
  let promise := length (fetched x) in
  {| _concurrencyLimit := _concurrencyLimit x;
     _sendingPromises := _sendingPromises x ++ [promise];
     _shutdownOnce := _shutdownOnce x;
     fetched := fetched x ++
                [{| state := Pending; resultCallback := callback; answer := Unanswered |}];
     flushed := flushed x;
     effects := effects x ++ [Fetch promise serializedMetrics] |}.

Section Exporting.
Context {ResourceMetrics : Type}.

(** [serializer.serialize] of the Prometheus serializer. *)
Variable serialize : ResourceMetrics -> string.

(** [export(metrics, resultCallback)].  On the two guarded paths the
    callback is called in [export] itself: what it throws there, [export]
    throws to its caller, and the exporter is left the same either way. *)
Definition export (metrics : ResourceMetrics) (callback : nat)
    (x : PushGatewayExporter) : PushGatewayExporter :=
  if isCalled (_shutdownOnce x) then
    log (ResultCallback callback (FAILED "Exporter has been shutdown")) x
  else if reached (length (_sendingPromises x)) (_concurrencyLimit x) then
    log (ResultCallback callback (FAILED "Concurrent export limit reached")) x
  else
    let serializedMetrics := serialize metrics in
    _export serializedMetrics callback (log (Serialize serializedMetrics) x).

End Exporting.

(** The state of a [fetch] promise. *)
Definition stateOf (x : PushGatewayExporter) (promise : nat) : Settlement Response :=
  match fetched x !! promise with
  | Some d => state d
  | None => Pending
  end.

(** [Promise.all] over promises in the given states, when it is called: the
    first rejection in array order wins, and it fulfils when all have. *)
Fixpoint promise_all (states : list (Settlement Response)) : Settlement unit :=
  match states with
  | [] => Fulfilled tt
  | Rejected error :: _ => Rejected error
  | Fulfilled _ :: rest => promise_all rest
  | Pending :: rest =>
      match promise_all rest with
      | Rejected error => Rejected error
      | _ => Pending
      end
  end.

(** [forceFlush()]: [Promise.all(this._sendingPromises).then(() => {})]. *)
Definition forceFlush (x : PushGatewayExporter) : PushGatewayExporter * PromiseRef :=
  let flush :=
    {| inputs := _sendingPromises x;
       outcome := promise_all (stateOf x <$> _sendingPromises x) |} in
  ({| _concurrencyLimit := _concurrencyLimit x;
      _sendingPromises := _sendingPromises x;
      _shutdownOnce := _shutdownOnce x;
      fetched := fetched x;
      flushed := flushed x ++ [flush];
      effects := effects x |},
   FlushPromise (length (flushed x))).

(** [_shutdown()] *)
Definition _shutdown (x : PushGatewayExporter) : PushGatewayExporter * PromiseRef :=
  forceFlush (log (Debug "shutdown started") x).

(** [shutdown()]: [this._shutdownOnce.call()].  The first call sets the flag,
    runs [_shutdown] and ties the deferred promise to what it returned; every
    call returns the deferred promise. *)
Definition shutdown (x : PushGatewayExporter) : PushGatewayExporter * PromiseRef :=
  if isCalled (_shutdownOnce x) then (x, ShutdownPromise)
  else
    let called :=
      {| _concurrencyLimit := _concurrencyLimit x;
         _sendingPromises := _sendingPromises x;
         _shutdownOnce := {| isCalled := true; _deferred := _deferred (_shutdownOnce x) |};
         fetched := fetched x;
         flushed := flushed x;
         effects := effects x |} in
    let '(x', returned) := _shutdown called in
    ({| _concurrencyLimit := _concurrencyLimit x';
        _sendingPromises := _sendingPromises x';
        _shutdownOnce := {| isCalled := true; _deferred := Some returned |};
        fetched := fetched x';
        flushed := flushed x';
        effects := effects x' |},
     ShutdownPromise).

(** Whether a promise the exporter handed out has settled, and how. *)
Definition settlement (x : PushGatewayExporter) (p : PromiseRef) : Settlement unit :=
  let flushOutcome i :=
    match flushed x !! i with
    | Some flush => outcome flush
    | None => Pending
    end in
  match p with
  | FlushPromise i => flushOutcome i
  | ShutdownPromise =>
      match _deferred (_shutdownOnce x) with
      | Some (FlushPromise i) => flushOutcome i
      | _ => Pending
      end
  end.

(** [this._sendingPromises.indexOf(promise)]; [None] stands for [-1]. *)
Fixpoint indexOf (l : list nat) (promise : nat) : option nat :=
  match l with
  | [] => None
  | p :: rest =>
      if decide (p = promise) then Some 0
      else S <$> indexOf rest promise
  end.

(** [this._sendingPromises.splice(index, 1)]; at [-1] it removes the last
    element. *)
Definition splice (index : option nat) (l : list nat) : list nat :=
  match index with
  | Some i => delete i l
  | None => removelast l
  end.

(** How the network ends a request: a response, or a transport failure. *)
Inductive FetchOutcome :=
| Responds (response : Response)
| Fails (error : string).

(** The reaction [Promise.all] registered on [promise], for a flush that is
    still pending: a rejection rejects it at once, a fulfilment fulfils it
    when no input is left to wait for. *)
Definition react (states : nat -> Settlement Response) (promise : nat)
    (how : FetchOutcome) (flush : Flush) : Flush :=
  match outcome flush with
  | Pending =>
      if decide (promise ∈ inputs flush) then
        match how with
        | Fails error => {| inputs := inputs flush; outcome := Rejected error |}
        | Responds _ =>
            {| inputs := inputs flush;
               outcome :=
                 if forallb (fun p => match states p with Fulfilled _ => true | _ => false end)
                      (inputs flush)
                 then Fulfilled tt else Pending |}
        end
      else flush
  | _ => flush
  end.

(** The result that [export]'s handlers report first for a settled request:
    the [then] of [_export] throws on a response that is not [ok]. *)
Definition exportResult (how : FetchOutcome) : ExportResult :=
  match how with
  | Responds response =>
      if ok response then SUCCESS
      else FAILED ("Could not push metrics: " +:+ statusText response)
  | Fails error => FAILED error
  end.

(** The turn of the event loop in which a pending [fetch] promise settles.
    The reactions registered on it run before any code of the exporter's
    user runs again: [Promise.all] reacts, and [finally] removes the promise
    from [_sendingPromises].  The handlers of [export] come later in the
    chain, see [handlerRuns]. *)
Definition fetchSettles (promise : nat) (how : FetchOutcome)
    (x : PushGatewayExporter) : PushGatewayExporter :=
  match fetched x !! promise with
  | Some d =>
      match state d with
      | Pending =>
          let settled :=
            {| state := match how with
                        | Responds response => Fulfilled response
                        | Fails error => Rejected error
                        end;
               resultCallback := resultCallback d;
               answer := answer d |} in
          let fetched' := <[promise := settled]> (fetched x) in
          let states p :=
            match fetched' !! p with Some d' => state d' | None => Pending end in
          let index := indexOf (_sendingPromises x) promise in
          {| _concurrencyLimit := _concurrencyLimit x;
             _sendingPromises := splice index (_sendingPromises x);
             _shutdownOnce := _shutdownOnce x;
             fetched := fetched';
             flushed := react states promise how <$> flushed x;
             effects := effects x |}
      | _ => x
      end
  | None => x
  end.

(** The report of the runtime when the promise at the end of the chain
    rejects: nothing handles it. *)
Definition unhandled (thrown : option string) : list Effect :=
  match thrown with
  | Some error => [UnhandledRejection error]
  | None => []
  end.

(** A later turn, in which the next of [export]'s two handlers runs for a
    request that has settled; code that waited for a flush may have run in
    between.  [thrown] is what the result callback throws in this call, if
    it throws.  For a response that is [ok] the [then] handler calls back
    with [SUCCESS]; when the callback throws, the promise of that handler
    rejects and the [catch] handler is next.  For any other outcome the
    [then] handler is passed over and the [catch] handler calls back with
    the failure.  The [catch] handler is the end of the chain: what the
    callback throws there is handled by nothing. *)
Definition handlerRuns (promise : nat) (thrown : option string)
    (x : PushGatewayExporter) : PushGatewayExporter :=
  match fetched x !! promise with
  | Some d =>
      let calls result next rest :=
        {| _concurrencyLimit := _concurrencyLimit x;
           _sendingPromises := _sendingPromises x;
           _shutdownOnce := _shutdownOnce x;
           fetched :=
             <[promise := {| state := state d;
                             resultCallback := resultCallback d;
                             answer := next |}]> (fetched x);
           flushed := flushed x;
           effects := effects x ++ ResultCallback (resultCallback d) result :: rest |} in
      match answer d, state d with
      | Unanswered, Fulfilled response =>
          if ok response then
            match thrown with
            | Some error => calls SUCCESS (Retrying error) []
            | None => calls SUCCESS (Answered false) []
            end
          else
            calls (FAILED ("Could not push metrics: " +:+ statusText response))
              (Answered false) (unhandled thrown)
      | Unanswered, Rejected error =>
          calls (FAILED error) (Answered false) (unhandled thrown)
      | Retrying error, _ =>
          calls (FAILED error) (Answered true) (unhandled thrown)
      | _, _ => x
      end
  | None => x
  end.

Section Runs.
Context {ResourceMetrics : Type}.
Variable serialize : ResourceMetrics -> string.

(** What can happen to an exporter: calls of its methods, the network
    settling a request, and a handler of [export] taking its turn. *)
Inductive Action :=
| Export (metrics : ResourceMetrics) (callback : nat)
| ForceFlush
| Shutdown
| FetchSettles (promise : nat) (how : FetchOutcome)
| HandlerRuns (promise : nat) (thrown : option string).

Definition step (a : Action) (x : PushGatewayExporter) : PushGatewayExporter :=
  match a with
  | Export metrics callback => export serialize metrics callback x
  | ForceFlush => (forceFlush x).1
  | Shutdown => (shutdown x).1
  | FetchSettles promise how => fetchSettles promise how x
  | HandlerRuns promise thrown => handlerRuns promise thrown x
  end.

Fixpoint run (actions : list Action) (x : PushGatewayExporter) : PushGatewayExporter :=
  match actions with
  | [] => x
  | a :: rest => run rest (step a x)
  end.

(** *** Observations of a run, used to state the properties *)

(** How often [shutdown] is called in a run. *)
Fixpoint shutdownCalls (actions : list Action) : nat :=
  match actions with
  | [] => 0
  | Shutdown :: rest => S (shutdownCalls rest)
  | _ :: rest => shutdownCalls rest
  end.

End Runs.
Arguments Action ResourceMetrics : clear implicits.



(** The in-flight set is within the configured limit. *)
Definition withinLimit (x : PushGatewayExporter) : Prop :=
  match _concurrencyLimit x with
  | Finite n => length (_sendingPromises x) ≤ n
  | Infinity => True
  end.

(** What the outcome of a flush says about the requests it waits for. *)
Definition flushSound (x : PushGatewayExporter) (flush : Flush) : Prop :=
  match outcome flush with
  | Fulfilled _ =>
      ∀ p, p ∈ inputs flush → ∃ response, stateOf x p = Fulfilled response
  | Rejected error =>
      ∃ p, p ∈ inputs flush ∧ stateOf x p = Rejected error
  | Pending =>
      (∃ p, p ∈ inputs flush ∧ stateOf x p = Pending) ∧
      (∀ p error, p ∈ inputs flush → stateOf x p ≠ Rejected error)
  end.


(** Every flush of the exporter is sound. *)
Definition flushesSound (x : PushGatewayExporter) : Prop := Forall (flushSound x) (flushed x).

End PushGateway.

(** ** Concrete programs, for the examples below *)
Module Examples.
Import Wrappers.

(** Values are integers and thrown errors their messages. *)
Abbreviation Fn := (FunctionSig Z string).

(** The label for "no caller" is taken to be the empty string here. *)
Definition noCaller : AttributeValue := AttrString "".

(** A server-like context, outside any instrumented call. *)
Definition topLevel : option ALS.ALSInstance := Some {| ALS.getStore := None |}.

(** The function that a call of [autometrics] returned. *)
Definition returned (r : Eff string (option Fn)) : Fn :=
  match r.2 with
  | Normal (Some f) => f
  | _ => {| fn_name := ""; fn_apply := fun _ _ _ => throw "TypeError: not a function" |}
  end.

(** [const getUser = autometrics(function getUser() { return 7 })] *)
Definition getUser : Fn :=
  {| fn_name := "getUser"; fn_apply := fun _ _ _ => ret (Plain 7%Z) |}.

(** [const B = autometrics(function B() { return 1 })], at top level. *)
Definition B : Fn :=
  returned (autometrics noCaller
    (ArgsFn {| fn_name := "B"; fn_apply := fun _ _ _ => ret (Plain 1%Z) |})
    (Some "app") topLevel).

(** [function A() { return B() }] *)
Definition bodyOfA : Fn :=
  {| fn_name := "A"; fn_apply := fun _ _ context => fn_apply B ThisUndefined [] context |}.

(** [const A = autometrics(function A() { return B() })], at top level. *)
Definition A : Fn :=
  returned (autometrics noCaller (ArgsFn bodyOfA) (Some "app") topLevel).

(** [function deleteUser() { throw new Error("User not found") }] *)
Definition deleteUser : Fn :=
  {| fn_name := "deleteUser"; fn_apply := fun _ _ _ => throw "User not found" |}.

(** [{ moduleName: "db", trackConcurrency: true }] *)
Definition trackingOptions : AutometricsOptions Z string :=
  {| opt_functionName := None;
     opt_moduleName := Some "db";
     opt_objective := None;
     opt_trackConcurrency := Some true;
     opt_recordErrorIf := None;
     opt_recordSuccessIf := None |}.

(** [autometrics({ moduleName: "db", trackConcurrency: true }, deleteUser)] *)
Definition trackedDeleteUser : Fn :=
  returned (autometrics noCaller (ArgsOptions trackingOptions (Some deleteUser))
    None topLevel).

(** The objective of the repository's example application. *)
Definition API_SLO : Objective :=
  {| name := "api"; successRate := Some "99"; latency := Some ("0.25", "99") |}.

(** [{ objective: API_SLO }] *)
Definition sloOptions : AutometricsOptions Z string :=
  {| opt_functionName := None;
     opt_moduleName := None;
     opt_objective := Some API_SLO;
     opt_trackConcurrency := None;
     opt_recordErrorIf := None;
     opt_recordSuccessIf := None |}.

(** Options whose two predicates throw on every input. *)
Definition throwingOptions : AutometricsOptions Z string :=
  {| opt_functionName := None;
     opt_moduleName := Some "db";
     opt_objective := None;
     opt_trackConcurrency := None;
     opt_recordErrorIf := Some (fun _ => Raised "predicate failed");
     opt_recordSuccessIf := Some (fun _ => Raised "predicate failed") |}.

(** [{ moduleName: "db", trackConcurrency: true, recordSuccessIf: () => true }] *)
Definition forgivingOptions : AutometricsOptions Z string :=
  {| opt_functionName := None;
     opt_moduleName := Some "db";
     opt_objective := None;
     opt_trackConcurrency := Some true;
     opt_recordErrorIf := None;
     opt_recordSuccessIf := Some (fun _ => Normal true) |}.

(** An [async] method of the example application's [DatabaseClient], on a
    run where [shouldError] does not throw: it reads [this.users] and
    settles with what [body] makes of them.  An instance is taken for its
    [users].  Reading a property of [undefined] or of [null] is a
    [TypeError], which an [async] function turns into a rejection. *)
Definition usersMethod (methodName : string) (body : Z -> Settlement Z string) : Fn :=
  {| fn_name := methodName;
     fn_apply := fun this _ _ =>
       ret (Thenable (Settles []
         match this with
         | ThisValue users => body users
         | ThisUndefined =>
             Rejected "TypeError: Cannot read properties of undefined (reading 'users')"
         | ThisNull =>
             Rejected "TypeError: Cannot read properties of null (reading 'users')"
         end)) |}.

(** [async getUsers() { ...; return this.users }] *)
Definition getUsers : Fn := usersMethod "getUsers" Fulfilled.

(** What [@Autometrics({ objective: API_SLO })] leaves in
    [DatabaseClient.prototype.getUsers]:
    [autometrics({ objective: API_SLO }, getUsers)]. *)
Definition instrumentedGetUsers : Fn :=
  returned (autometrics noCaller (ArgsOptions sloOptions (Some getUsers))
    (Some "db") topLevel).

(** The closure [closure] builds; the examples wrap functions whose name is
    not empty, where the default is never used. *)
Definition closureOf (args : Args Z string) (modulePath : option string) : Closure Z string :=
  match closure noCaller args modulePath topLevel with
  | Some c => c
  | None =>
      {| functionName := ""; moduleName := None; fn := getUser;
         counterObjectiveAttributes := ∅; histogramObjectiveAttributes := ∅;
         concurrencyGauge := false; caller := noCaller;
         recordErrorIf := None; recordSuccessIf := None |}
  end.

End Examples.

(** ** Concrete runs of the exporter, for the examples below *)
Module ExporterExamples.
Import PushGateway.

(** Snapshots without content, serialized to the empty text. *)
Definition serializeNothing (metrics : unit) : string := "".

(** Two exports on an exporter without limit. *)
Definition twoInFlight : PushGatewayExporter :=
  run serializeNothing [Export tt 0; Export tt 1] (constructor None).

(** [forceFlush] is called, and the first of the two requests then fails in
    transport. *)
Definition firstFails : PushGatewayExporter :=
  run serializeNothing [FetchSettles 0 (Fails "network down")] (forceFlush twoInFlight).1.

(** One export on an exporter whose limit is one. *)
Definition atTheLimit : PushGatewayExporter :=
  run serializeNothing [Export tt 0] (constructor (Some 1)).

(** The same, and then [shutdown] is called. *)
Definition atTheLimitShutDown : PushGatewayExporter :=
  run serializeNothing [Export tt 0; Shutdown] (constructor (Some 1)).

End ExporterExamples.

(** ** The decorator adapter ([getAutometricsMethodDecorator],
    [getAutometricsClassDecorator]) *)
Module Decorators.
Import Wrappers.

Section Decorators.
Context {V E : Type}.
Variable no_caller : AttributeValue.

(** The [TypeError]s that [Object.defineProperty] throws: for a descriptor
    that has accessors and a value, and for a change that the property of
    the given name does not take. *)
Variable invalidDescriptor : E.
Variable cannotRedefine : string -> E.

(** A value that a property holds or a getter returns, as [typeof] tells
    them apart: a function, or anything else. *)
Inductive Value :=
| FunctionValue (f : FunctionSig V E)
| OtherValue (v : V)
| UndefinedValue.

(** What is behind an own property: a value, or accessors.  Of the accessors
    only the getter is ever called: [getter] is what calling it on the
    prototype does when the class decorator reads the property, and [None]
    a getter that is [undefined]. *)
Inductive Slot :=
| DataSlot (held : Value) (isWritable : bool)
| AccessorSlot (getter : option (Eff E Value)).

(** An own property of a prototype, by its attributes. *)
Record Property := {
  slot : Slot;
  isEnumerable : bool;
  isConfigurable : bool;
}.

(** Whether a descriptor has the keys of a data property or of accessors. *)
Inductive Kind :=
| DataDescriptor (writable : bool)
| AccessorDescriptor (get : option (Eff E Value)).

(** The descriptor object that a method decorator is given and hands back:
    the decorator syntax and the class decorator give it the descriptor of
    a method or of accessors.  [value] is what [descriptor.value] reads
    there: the method, or [undefined] for accessors, whose descriptor has
    no such key. *)
Record PropertyDescriptor := {
  value : option (FunctionSig V E);
  kind : Kind;
  enumerable : bool;
  configurable : bool;
}.

(** [descriptor.value = ...]; from then on the descriptor has a [value]
    key. *)
Definition setValue (descriptor : PropertyDescriptor)
    (newValue : option (FunctionSig V E)) : PropertyDescriptor :=
  {| value := newValue;
     kind := kind descriptor;
     enumerable := enumerable descriptor;
     configurable := configurable descriptor |}.

(** The decorator [getAutometricsMethodDecorator(autometricsOptions)]
    returns, applied to a descriptor.  With options it calls
    [autometrics(autometricsOptions, originalFunction)], without them
    [autometrics(originalFunction, undefined)]; when there is no function
    either, that call takes neither branch of lines 206-221, warns and
    returns [undefined].  [modulePath] and [asyncLocalStorage] are what
    [autometrics] finds when the decorator runs. *)
Definition getAutometricsMethodDecorator
    (autometricsOptions : option (AutometricsOptions V E))
    (modulePath : option string) (asyncLocalStorage : option ALS.ALSInstance)
    (descriptor : PropertyDescriptor) : Eff E PropertyDescriptor :=
  let originalFunction := value descriptor in
  instrumented ←
    match autometricsOptions, originalFunction with
    | Some options, _ =>
        autometrics no_caller (ArgsOptions options originalFunction)
          modulePath asyncLocalStorage
    | None, Some originalFunction =>
        autometrics no_caller (ArgsFn originalFunction) modulePath asyncLocalStorage
    | None, None =>
        emit (Warn no_name_warning);;
        ret None
    end;
  ret (setValue descriptor instrumented).

(** The own properties of [classConstructor.prototype], in the order of
    [Object.getOwnPropertyNames]. *)
Definition Prototype : Type := list (string * Property).

Definition getOwnPropertyNames (prototype : Prototype) : list string := prototype.*1.

(** The own property of that name, if there is one. *)
Fixpoint getOwnProperty (prototype : Prototype) (propertyName : string) : option Property :=
  match prototype with
  | [] => None
  | (key, property) :: rest =>
      if decide (key = propertyName) then Some property
      else getOwnProperty rest propertyName
  end.

(** [prototype[propertyName]] for an own property: the value it holds, or
    what its getter returns or throws, called on the prototype. *)
Definition readProperty (own : Property) : Eff E Value :=
  match slot own with
  | DataSlot held _ => ret held
  | AccessorSlot (Some getter) => getter
  | AccessorSlot None => ret UndefinedValue
  end.

(** [Object.getOwnPropertyDescriptor(prototype, propertyName)] for an own
    property that reads as a function: the method decorator is given no
    other. *)
Definition getOwnPropertyDescriptor (own : Property) : PropertyDescriptor :=
  {| value :=
       match slot own with
       | DataSlot (FunctionValue f) _ => Some f
       | _ => None
       end;
     kind :=
       match slot own with
       | DataSlot _ isWritable => DataDescriptor isWritable
       | AccessorSlot getter => AccessorDescriptor getter
       end;
     enumerable := isEnumerable own;
     configurable := isConfigurable own |}.

(** What [autometrics] is called with for a method. *)
Definition argsFor (autometricsOptions : option (AutometricsOptions V E))
    (f : FunctionSig V E) : Args V E :=
  match autometricsOptions with
  | Some options => ArgsOptions options (Some f)
  | None => ArgsFn f
  end.

(** Function objects have an identity, which the records of the model do
    not carry; [Object.defineProperty] compares by it.  What [autometrics]
    returns for a method is the method itself on the early return of line
    227, and a new function otherwise (line 288). *)
Definition returnsItsInput (autometricsOptions : option (AutometricsOptions V E))
    (modulePath : option string) (asyncLocalStorage : option ALS.ALSInstance)
    (f : FunctionSig V E) : bool :=
  match closure no_caller (argsFor autometricsOptions f) modulePath asyncLocalStorage with
  | Some _ => false
  | None => true
  end.

(** [Object.defineProperty] on an own property, for a descriptor that has a
    [value] key, as every descriptor the method decorator hands back has:
    the property after it, or the [TypeError].  A descriptor with accessors
    and a value is no descriptor.  A property that is not configurable
    takes no change of its attributes, nor of its kind, nor, when it is not
    writable either, another value; [sameValue] tells whether the
    descriptor's value is the one the property holds. *)
Definition redefine (propertyName : string) (own : Property)
    (descriptor : PropertyDescriptor) (sameValue : bool) : Res E Property :=
  match kind descriptor with
  | AccessorDescriptor _ =>
      Raised invalidDescriptor
  | DataDescriptor writable =>
      let accepted :=
        isConfigurable own ||
        (negb (configurable descriptor) &&
         eqb (enumerable descriptor) (isEnumerable own) &&
         match slot own with
         | DataSlot _ isWritable => isWritable || (negb writable && sameValue)
         | AccessorSlot _ => false
         end) in
      if accepted then
        Normal {| slot := DataSlot
                            match value descriptor with
                            | Some f => FunctionValue f
                            | None => UndefinedValue
                            end
                            writable;
                  isEnumerable := enumerable descriptor;
                  isConfigurable := configurable descriptor |}
      else Raised (cannotRedefine propertyName)
  end.

(** [Object.defineProperty(prototype, propertyName, descriptor)]: an own
    property is redefined where it stands; a name that is not an own
    property's, which the class decorator never passes, makes a new
    property at the end. *)
Fixpoint defineProperty (prototype : Prototype) (propertyName : string)
    (descriptor : PropertyDescriptor) (sameValue : bool) : Res E Prototype :=
  match prototype with
  | [] =>
      match kind descriptor with
      | AccessorDescriptor _ => Raised invalidDescriptor
      | DataDescriptor writable =>
          Normal [(propertyName,
                   {| slot := DataSlot
                                match value descriptor with
                                | Some f => FunctionValue f
                                | None => UndefinedValue
                                end
                                writable;
                      isEnumerable := enumerable descriptor;
                      isConfigurable := configurable descriptor |})]
      end
  | (key, own) :: rest =>
      if decide (key = propertyName) then
        match redefine propertyName own descriptor sameValue with
        | Normal own' => Normal ((key, own') :: rest)
        | Raised error => Raised error
        end
      else
        match defineProperty rest propertyName descriptor sameValue with
        | Normal rest' => Normal ((key, own) :: rest')
        | Raised error => Raised error
        end
  end.

(** What the class decorator has done, and the prototype as it has left it:
    the prototype is an object, and what was defined on it stays when the
    decorator throws. *)
Definition Decorated : Type := Eff E unit * Prototype.

(** Events that came before. *)
Definition after (events : list (Event E)) (d : Decorated) : Decorated :=
  ((events ++ d.1.1, d.1.2), d.2).

(** The [for] loop of the class decorator over [propertyNames], which are
    names of own properties.  The property is read first, which runs a
    getter; what does not read as a function, the constructor, and a name
    without descriptor are passed over. *)
Fixpoint decorateProperties
    (autometricsOptions : option (AutometricsOptions V E))
    (modulePath : option string) (asyncLocalStorage : option ALS.ALSInstance)
    (propertyNames : list string) (prototype : Prototype) : Decorated :=
  match propertyNames with
  | [] => (ret tt, prototype)
  | propertyName :: rest =>
      let continue :=
        decorateProperties autometricsOptions modulePath asyncLocalStorage rest in
      match getOwnProperty prototype propertyName with
      | None => continue prototype
      | Some own =>
          match readProperty own with
          | (events, Raised error) => ((events, Raised error), prototype)
          | (events, Normal property) =>
              after events
                match property with
                | FunctionValue _ =>
                    if decide (propertyName = "constructor") then continue prototype
                    else
                      let descriptor := getOwnPropertyDescriptor own in
                      match getAutometricsMethodDecorator autometricsOptions modulePath
                              asyncLocalStorage descriptor with
                      | (events', Raised error) => ((events', Raised error), prototype)
                      | (events', Normal instrumentedDescriptor) =>
                          let sameValue :=
                            match value descriptor with
                            | Some f =>
                                returnsItsInput autometricsOptions modulePath
                                  asyncLocalStorage f
                            | None => false
                            end in
                          after events'
                            match defineProperty prototype propertyName
                                    instrumentedDescriptor sameValue with
                            | Normal prototype' => continue prototype'
                            | Raised error => (throw error, prototype)
                            end
                      end
                | _ => continue prototype
                end
          end
      end
  end.

(** The decorator [getAutometricsClassDecorator(autometricsOptions)]
    returns, applied to a class, by its prototype. *)
Definition getAutometricsClassDecorator
    (autometricsOptions : option (AutometricsOptions V E))
    (modulePath : option string) (asyncLocalStorage : option ALS.ALSInstance)
    (prototype : Prototype) : Decorated :=
  decorateProperties autometricsOptions modulePath asyncLocalStorage
    (getOwnPropertyNames prototype) prototype.

(** *** Observations, used to state the properties *)

(** A method after decoration: the wrapper, or the method itself when its
    name does not resolve. *)
Definition decoratedMethod (autometricsOptions : option (AutometricsOptions V E))
    (modulePath : option string) (asyncLocalStorage : option ALS.ALSInstance)
    (f : FunctionSig V E) : FunctionSig V E :=
  match closure no_caller (argsFor autometricsOptions f) modulePath asyncLocalStorage with
  | Some c => wrapper c
  | None => f
  end.

(** The method that the class decorator hands to the method decorator, for
    a data property that holds a function and is not the constructor. *)
Definition methodOf (entry : string * Property) : option (FunctionSig V E) :=
  match slot entry.2 with
  | DataSlot (FunctionValue f) _ =>
      if decide (entry.1 = "constructor") then None else Some f
  | _ => None
  end.

(** A property that the class decorator gets past: a data property, unless
    it holds a method that cannot be given another value (the property is
    neither configurable nor writable, and [autometrics] makes a new
    function of the method); or accessors whose getter returns, and returns
    no function, unless they are the constructor's. *)
Definition passes (autometricsOptions : option (AutometricsOptions V E))
    (modulePath : option string) (asyncLocalStorage : option ALS.ALSInstance)
    (entry : string * Property) : Prop :=
  match slot entry.2 with
  | DataSlot _ isWritable =>
      match methodOf entry with
      | Some f =>
          isConfigurable entry.2 = true ∨ isWritable = true ∨
          returnsItsInput autometricsOptions modulePath asyncLocalStorage f = true
      | None => True
      end
  | AccessorSlot getter =>
      match (readProperty entry.2).2 with
      | Normal (FunctionValue _) => entry.1 = "constructor"
      | Normal _ => True
      | Raised _ => False
      end
  end.

(** A property after the class decorator has passed it. *)
Definition decoratedEntry (autometricsOptions : option (AutometricsOptions V E))
    (modulePath : option string) (asyncLocalStorage : option ALS.ALSInstance)
    (entry : string * Property) : string * Property :=
  match methodOf entry, slot entry.2 with
  | Some f, DataSlot _ isWritable =>
      (entry.1,
       {| slot := DataSlot
                    (FunctionValue
                       (decoratedMethod autometricsOptions modulePath asyncLocalStorage f))
                    isWritable;
          isEnumerable := isEnumerable entry.2;
          isConfigurable := isConfigurable entry.2 |})
  | _, _ => entry
  end.

(** What happens while the class decorator is at one property that it
    passes: the getter runs, if there is one; [autometrics] wraps, if the
    property holds a method. *)
Definition turnEvents (autometricsOptions : option (AutometricsOptions V E))
    (modulePath : option string) (asyncLocalStorage : option ALS.ALSInstance)
    (entry : string * Property) : list (Event E) :=
  (readProperty entry.2).1 ++
  match methodOf entry with
  | Some f =>
      (autometrics no_caller (argsFor autometricsOptions f) modulePath asyncLocalStorage).1
  | None => []
  end.

(** What happens while the class decorator passes the properties of a
    prototype, one after the other. *)
Definition decorationEvents (autometricsOptions : option (AutometricsOptions V E))
    (modulePath : option string) (asyncLocalStorage : option ALS.ALSInstance)
    (prototype : Prototype) : list (Event E) :=
  flat_map (turnEvents autometricsOptions modulePath asyncLocalStorage) prototype.

(** The methods that the class decorator hands to the method decorator, in
    property order. *)
Definition methods (prototype : Prototype) : list (FunctionSig V E) :=
  omap methodOf prototype.

(** Whether a property is a data property. *)
Definition isData (entry : string * Property) : Prop :=
  match slot entry.2 with
  | DataSlot _ _ => True
  | AccessorSlot _ => False
  end.

(** The labels of the observation [autometrics] makes when the method
    decorator wraps a method of that name, given no [functionName]. *)
Definition methodLabels (autometricsOptions : option (AutometricsOptions V E))
    (modulePath : option string) (asyncLocalStorage : option ALS.ALSInstance)
    (methodName : string) : Attributes :=
  counterObjectiveAttributesOf (autometricsOptions ≫= opt_objective) ∪
  {[ "function" := AttrString methodName;
     "module" := attr (match autometricsOptions ≫= opt_moduleName with
                       | Some moduleName => Some moduleName
                       | None => modulePath
                       end);
     "result" := AttrString "ok";
     "caller" := getALSCaller no_caller asyncLocalStorage ]}.

End Decorators.

End Decorators.

(** ** Further observations, used to state the properties below *)
Module Observations.
Import Wrappers PushGateway.

(** The function and module labels [autometrics] resolves: an explicit
    option wins over the function's own name and over the module path. *)
Definition resolved {V E : Type} (args : Args V E) (modulePath : option string) : string * option string :=
  match args with
  | ArgsFn f => (fn_name f, modulePath)
  | ArgsOptions options (Some f) =>
      (match opt_functionName options with Some n => n | None => fn_name f end,
       match opt_moduleName options with Some m => Some m | None => modulePath end)
  | ArgsOptions _ None => ("", None)
  end.

(** The in-flight set holds each request that has not settled, once, and
    nothing else. *)
Definition inFlightExact (x : PushGatewayExporter) : Prop :=
  NoDup (_sendingPromises x) ∧
  ∀ p, p ∈ _sendingPromises x ↔ ∃ d, fetched x !! p = Some d ∧ state d = Pending.

(** Whether an effect is a call of the given result callback. *)
Definition isCallOf (callback : nat) (e : Effect) : bool :=
  match e with
  | ResultCallback resultCallback _ => bool_decide (resultCallback = callback)
  | _ => false
  end.

(** How often the given result callback has been called. *)
Definition callsOf (callback : nat) (x : PushGatewayExporter) : nat :=
  length (filter (fun e => isCallOf callback e) (effects x)).

(** Whether a request was started with the given callback and none of
    [export]'s handlers has run for it: it is in flight, or it has settled
    and the handlers are still to take their turn. *)
Definition isUnanswered (callback : nat) (d : Delivery) : bool :=
  bool_decide (resultCallback d = callback) &&
  match answer d with Unanswered => true | _ => false end.

(** How many such requests there are. *)
Definition unanswered (callback : nat) (x : PushGatewayExporter) : nat :=
  length (filter (fun d => isUnanswered callback d) (fetched x)).

(** Whether a request was started with the given callback and both
    handlers have called it. *)
Definition isAnsweredTwice (callback : nat) (d : Delivery) : bool :=
  bool_decide (resultCallback d = callback) &&
  match answer d with Answered true => true | _ => false end.

(** How many such requests there are. *)
Definition answeredTwice (callback : nat) (x : PushGatewayExporter) : nat :=
  length (filter (fun d => isAnsweredTwice callback d) (fetched x)).

(** How often [export] is called with the given callback in a run. *)
Fixpoint exportsWith {ResourceMetrics : Type} (callback : nat)
    (actions : list (Action ResourceMetrics)) : nat :=
  match actions with
  | [] => 0
  | Export _ resultCallback :: rest =>
      (if bool_decide (resultCallback = callback) then 1 else 0) + exportsWith callback rest
  | _ :: rest => exportsWith callback rest
  end.

(** How often a handler takes a turn in which the callback throws. *)
Fixpoint throwingTurns {ResourceMetrics : Type}
    (actions : list (Action ResourceMetrics)) : nat :=
  match actions with
  | [] => 0
  | HandlerRuns _ (Some _) :: rest => S (throwingTurns rest)
  | _ :: rest => throwingTurns rest
  end.

(** How often a handler takes a turn for the given request. *)
Fixpoint handlerTurns {ResourceMetrics : Type} (promise : nat)
    (actions : list (Action ResourceMetrics)) : nat :=
  match actions with
  | [] => 0
  | HandlerRuns p _ :: rest =>
      (if bool_decide (p = promise) then 1 else 0) + handlerTurns promise rest
  | _ :: rest => handlerTurns promise rest
  end.

(** Whether the callback of a request has thrown in the first handler. *)
Definition isRetried (d : Delivery) : bool :=
  match answer d with
  | Retrying _ | Answered true => true
  | _ => false
  end.

(** How many such requests there are. *)
Definition retried (x : PushGatewayExporter) : nat :=
  length (filter (fun d => isRetried d) (fetched x)).

(** A request that is in flight has not been answered. *)
Definition pendingUnanswered (x : PushGatewayExporter) : Prop :=
  ∀ p d, fetched x !! p = Some d → state d = Pending → answer d = Unanswered.

End Observations.

(** ** Further concrete programs and runs *)
Module MoreExamples.
Import Wrappers Decorators Examples.

(** [{ moduleName: "api", recordErrorIf: (res) => res >= 400,
       recordSuccessIf: (error) => true }], on status codes. *)
Definition overridingOptions : AutometricsOptions Z string :=
  {| opt_functionName := None;
     opt_moduleName := Some "api";
     opt_objective := None;
     opt_trackConcurrency := None;
     opt_recordErrorIf := Some (fun res => Normal (bool_decide (400 ≤ res)%Z));
     opt_recordSuccessIf := Some (fun _ => Normal true) |}.

(** [function handler() { return 500 }] *)
Definition handler : Fn :=
  {| fn_name := "handler"; fn_apply := fun _ _ _ => ret (Plain 500%Z) |}.

(** [function waitForever() { return new Promise(() => {}) }] *)
Definition waitForever : Fn :=
  {| fn_name := "waitForever"; fn_apply := fun _ _ _ => ret (Thenable (NeverSettles [])) |}.

(** The two [TypeError]s of [Object.defineProperty], by their messages in
    V8. *)
Definition invalidDescriptorError : string :=
  "TypeError: Invalid property descriptor. Cannot both specify accessors and a value or writable attribute".

Definition cannotRedefineError (propertyName : string) : string :=
  "TypeError: Cannot redefine property: " +:+ propertyName.

(** A method of a class body: writable, configurable, not enumerable. *)
Definition method (f : Fn) : @Property Z string :=
  {| slot := DataSlot (FunctionValue f) true;
     isEnumerable := false;
     isConfigurable := true |}.

(** A getter of a class body, by what calling it on the prototype does. *)
Definition getter (result : Eff string (@Value Z string)) : @Property Z string :=
  {| slot := AccessorSlot (Some result);
     isEnumerable := false;
     isConfigurable := true |}.

(** The class itself, as a function: [new DatabaseClient()] is no plain
    call of it. *)
Definition DatabaseClient : Fn :=
  {| fn_name := "DatabaseClient";
     fn_apply := fun _ _ _ =>
       throw "TypeError: Class constructor DatabaseClient cannot be invoked without 'new'" |}.

(** The prototype of the example application's [DatabaseClient], on runs
    where [getUser] finds the user, and [deleteUser] does not. *)
Definition databaseClient : @Prototype Z string :=
  [ ("constructor", method DatabaseClient);
    ("getUsers", method getUsers);
    ("getUser", method (usersMethod "getUser" (fun _ => Fulfilled 1%Z)));
    ("addUser", method (usersMethod "addUser" (fun _ => Fulfilled 3%Z)));
    ("deleteUser", method (usersMethod "deleteUser" (fun _ => Rejected "User not found"))) ].

(** The prototype after [@Autometrics({ objective: API_SLO })]. *)
Definition decoratedDatabaseClient : @Prototype Z string :=
  (getAutometricsClassDecorator noCaller invalidDescriptorError cannotRedefineError (Some sloOptions) (Some "db") topLevel
     databaseClient).2.

(** [class Reports {
       render() { return 1 }
       get title() { return 5 }
       get formatter() { return function format() { return 2 } }
       print() { return 3 }
     }], by its prototype. *)
Definition reports : @Prototype Z string :=
  [ ("constructor",
     method {| fn_name := "Reports";
               fn_apply := fun _ _ _ =>
                 throw "TypeError: Class constructor Reports cannot be invoked without 'new'" |});
    ("render", method {| fn_name := "render"; fn_apply := fun _ _ _ => ret (Plain 1%Z) |});
    ("title", getter (ret (OtherValue 5%Z)));
    ("formatter",
     getter (ret (FunctionValue
                    {| fn_name := "format"; fn_apply := fun _ _ _ => ret (Plain 2%Z) |})));
    ("print", method {| fn_name := "print"; fn_apply := fun _ _ _ => ret (Plain 3%Z) |}) ].

End MoreExamples.

(** ** Properties of the instrumentation engine *)
Module WrappersFacts.
Import Wrappers.

(** Unfolds the computation monad down to pairs of events and results. *)
Ltac eff :=
  cbv [mbind mret Eff_bind Eff_ret bind ret throw emit try_catch call gaugeAdd ALS.run] in *.

Section Facts.
Context {V E : Type}.
Implicit Types (c : Closure V E) (params : list V) (v : V) (error : E).
Implicit Types (this : Receiver V) (context : option ALS.ALSInstance).

Lemma onSuccess_returns c : (onSuccess c).2 = Normal tt.
Proof. unfold onSuccess. eff. by destruct (concurrencyGauge c). Qed.

Lemma onError_returns c : (onError c).2 = Normal tt.
Proof. unfold onError. eff. by destruct (concurrencyGauge c). Qed.

(** [recordSuccess] never throws: a throwing predicate is caught. *)
Lemma recordSuccess_returns c v : (recordSuccess c v).2 = Normal tt.
Proof.
  unfold recordSuccess.
  pose proof (onSuccess_returns c) as Hs. pose proof (onError_returns c) as He.
  destruct (onSuccess c) as [es rs], (onError c) as [ee re]. simpl in Hs, He. subst.
  destruct (recordErrorIf c) as [p|]; [destruct (p v) as [[]|]|]; by eff.
Qed.

(** [recordError] never throws either. *)
Lemma recordError_returns c error : (recordError c error).2 = Normal tt.
Proof.
  unfold recordError.
  pose proof (onSuccess_returns c) as Hs. pose proof (onError_returns c) as He.
  destruct (onSuccess c) as [es rs], (onError c) as [ee re]. simpl in Hs, He. subst.
  destruct (recordSuccessIf c) as [p|]; [destruct (p error) as [[]|]|]; by eff.
Qed.

(** What one call of the wrapper does, by how the wrapped function ends. *)
Lemma wrapper_unfold c this params context :
  fn_apply (wrapper c) this params context =
  let r := fn_apply (fn c) (calleeReceiver context) params (calleeContext c context) in
  match r.2 with
  | Normal (Plain v) =>
      (entryEvents c ++ r.1 ++ (recordSuccess c v).1, Normal (Plain v))
  | Normal (Thenable (Settles later (Fulfilled v))) =>
      (entryEvents c ++ r.1,
       Normal (Thenable (Settles (later ++ (recordSuccess c v).1) (Fulfilled v))))
  | Normal (Thenable (Settles later (Rejected error))) =>
      (entryEvents c ++ r.1,
       Normal (Thenable (Settles (later ++ (recordError c error).1) (Rejected error))))
  | Normal (Thenable (NeverSettles later)) =>
      (entryEvents c ++ r.1, Normal (Thenable (NeverSettles later)))
  | Raised error =>
      (entryEvents c ++ r.1 ++ (recordError c error).1, Raised error)
  end.
Proof.
  assert (Hin : fn_apply (wrapper c) this params context =
    let '(evs, r) :=
      instrumentedFn c params (calleeReceiver context) (calleeContext c context) in
    (entryEvents c ++ evs, r)).
  { unfold wrapper, entryEvents, calleeContext, calleeReceiver; simpl.
    destruct context; eff;
      destruct (concurrencyGauge c); simpl;
      by destruct (instrumentedFn _ _ _ _). }
  rewrite Hin. clear Hin. unfold instrumentedFn.
  destruct (fn_apply (fn c) (calleeReceiver context) params (calleeContext c context)) as [evs [[v|p]|error]]; simpl.
  - pose proof (recordSuccess_returns c v) as Hr.
    destruct (recordSuccess c v) as [es rs]; simpl in *; subst. eff.
    by rewrite app_nil_r.
  - destruct p as [later [v|error]|later]; eff; unfold promise_then, promise_catch.
    + pose proof (recordSuccess_returns c v) as Hr.
      destruct (recordSuccess c v) as [es rs]; simpl in *; subst.
      by rewrite !app_nil_r.
    + pose proof (recordError_returns c error) as Hr.
      destruct (recordError c error) as [es rs]; simpl in *; subst.
      by rewrite !app_nil_r.
    + by rewrite app_nil_r.
  - pose proof (recordError_returns c error) as Hr.
    destruct (recordError c error) as [es rs]; simpl in *; subst. eff.
    by rewrite app_nil_r.
Qed.

Lemma counterObjectiveAttributesOf_eq (objective : option Objective) :
  counterObjectiveAttributesOf objective =
  {[ "objective_name" := AttrString (from_option name "" objective);
     "objective_percentile" := AttrString (default "" (objective ≫= successRate)) ]}.
Proof.
  unfold counterObjectiveAttributesOf.
  destruct objective as [[n [s|] l]|]; simpl; try case_decide; subst; reflexivity.
Qed.

Lemma histogramObjectiveAttributesOf_eq (objective : option Objective) :
  histogramObjectiveAttributesOf objective =
  {[ "objective_name" := AttrString (from_option name "" objective);
     "objective_latency_threshold" :=
       AttrString (default "" (fst <$> (objective ≫= latency)));
     "objective_percentile" :=
       AttrString (default "" (snd <$> (objective ≫= latency))) ]}.
Proof.
  unfold histogramObjectiveAttributesOf.
  destruct objective as [[n s [[t p]|]]|]; reflexivity.
Qed.

Variable no_caller : AttributeValue.

(** What [closure] puts into the variables the wrapper closes over. *)
Lemma closure_inv (args : Args V E) modulePath asyncLocalStorage c :
  closure no_caller args modulePath asyncLocalStorage = Some c →
  counterObjectiveAttributes c = counterObjectiveAttributesOf (objectiveOf args) ∧
  histogramObjectiveAttributes c = histogramObjectiveAttributesOf (objectiveOf args) ∧
  caller c = getALSCaller no_caller asyncLocalStorage ∧
  functionName c ≠ "" ∧
  fnOf args = Some (fn c).
Proof.
  unfold closure.
  destruct args as [f|options [f|]]; simpl; [| |done];
    case_decide; [done| |done|]; intros [= <-]; simpl; done.
Qed.

(** [autometrics] hands back the function it was given, or the wrapper of a
    closure around that function; it never throws. *)
Lemma autometrics_returns (args : Args V E) modulePath asyncLocalStorage :
  ∃ returned,
    (autometrics no_caller args modulePath asyncLocalStorage).2 = Normal returned ∧
    (returned = fnOf args ∨
     ∃ c, closure no_caller args modulePath asyncLocalStorage = Some c ∧
          returned = Some (wrapper c) ∧ fnOf args = Some (fn c)).
Proof.
  unfold autometrics.
  destruct (closure no_caller args modulePath asyncLocalStorage) as [c|] eqn:Hc; eff; simpl.
  - exists (Some (wrapper c)). split; [done|]. right. exists c.
    by destruct (closure_inv _ _ _ _ Hc) as (_ & _ & _ & _ & ->).
  - exists (fnOf args). by split; [|left].
Qed.

(** Whatever the receiver, the parameters and the caller context, a call of
    the wrapper ends the way the call of the wrapped function it makes ends:
    the same value returned, the same error thrown, a promise fulfilled with
    the same value or rejected with the same error (or pending for ever when
    the original is).  The call it makes is not given the wrapper's receiver
    but the one [instrumentedFn] runs with; for a function that does not
    depend on its receiver that is the call the caller asked for.  And what
    [autometrics] returns is that wrapper around the function it was given,
    or the function itself. *)
Theorem wrapper_ends_as_the_call_it_makes :
  (∀ c this params context,
     outcome (fn_apply (wrapper c) this params context) =
     outcome (fn_apply (fn c) (calleeReceiver context) params (calleeContext c context))) ∧
  (∀ c this params context,
     (∀ this', fn_apply (fn c) this' params (calleeContext c context) =
               fn_apply (fn c) this params (calleeContext c context)) →
     outcome (fn_apply (wrapper c) this params context) =
     outcome (fn_apply (fn c) this params (calleeContext c context))) ∧
  (∀ (args : Args V E) modulePath asyncLocalStorage,
     ∃ returned,
       (autometrics no_caller args modulePath asyncLocalStorage).2 = Normal returned ∧
       (returned = fnOf args ∨
        ∃ c, returned = Some (wrapper c) ∧ fnOf args = Some (fn c))).
Proof.
  assert (Hcall : ∀ c this params context,
    outcome (fn_apply (wrapper c) this params context) =
    outcome (fn_apply (fn c) (calleeReceiver context) params (calleeContext c context))).
  { intros c this params context. rewrite wrapper_unfold. unfold outcome. simpl.
    destruct (fn_apply (fn c) (calleeReceiver context) params (calleeContext c context))
      as [evs [[v|p]|error]]; simpl; [done| |done].
    by destruct p as [later [v|error]|later]. }
  split; [done|]. split.
  - intros c this params context Hany. by rewrite Hcall, Hany.
  - intros args modulePath asyncLocalStorage.
    destruct (autometrics_returns args modulePath asyncLocalStorage)
      as (returned & Hr & [->|(c & _ & -> & Hfn)]).
    + exists (fnOf args). by split; [|left].
    + exists (Some (wrapper c)). split; [done|]. right. by exists c.
Qed.

Lemma onSuccess_events c :
  (onSuccess c).1 =
  CounterAdd 1 (counterLabels c "ok") :: HistogramRecord (histogramLabels c) :: successTail c.
Proof. unfold onSuccess, successTail. eff. by destruct (concurrencyGauge c). Qed.

Lemma onError_events c :
  (onError c).1 =
  CounterAdd 1 (counterLabels c "error") :: HistogramRecord (histogramLabels c) :: errorTail c.
Proof. unfold onError, errorTail. eff. by destruct (concurrencyGauge c). Qed.

Lemma tails_hold_no_call_metric c :
  Forall (fun ev => isCallMetric ev = false) (successTail c) ∧
  Forall (fun ev => isCallMetric ev = false) (errorTail c).
Proof.
  unfold successTail, errorTail. eff.
  destruct (concurrencyGauge c); simpl; split; by repeat constructor.
Qed.

(** The events of [recordSuccess], by what the predicate answers. *)
Lemma recordSuccess_events c v :
  (recordSuccess c v).1 =
  match recordErrorIf c with
  | None => (onSuccess c).1
  | Some p =>
      match p v with
      | Normal true => (onError c).1
      | Normal false => (onSuccess c).1
      | Raised callbackError =>
          (onSuccess c).1 ++ [Trace "Error in recordErrorIf function: " callbackError]
      end
  end.
Proof.
  unfold recordSuccess.
  pose proof (onSuccess_returns c) as Hs. pose proof (onError_returns c) as He.
  destruct (onSuccess c) as [es rs], (onError c) as [ee re]. simpl in Hs, He. subst.
  destruct (recordErrorIf c) as [p|]; [destruct (p v) as [[]|]|]; by eff.
Qed.

(** The events of [recordError], by what the predicate answers. *)
Lemma recordError_events c error :
  (recordError c error).1 =
  match recordSuccessIf c with
  | None => (onError c).1
  | Some p =>
      match p error with
      | Normal true => (onSuccess c).1
      | Normal false => (onError c).1
      | Raised callbackError =>
          (onError c).1 ++ [Trace "Error in recordSuccessIf function: " callbackError]
      end
  end.
Proof.
  unfold recordError.
  pose proof (onSuccess_returns c) as Hs. pose proof (onError_returns c) as He.
  destruct (onSuccess c) as [es rs], (onError c) as [ee re]. simpl in Hs, He. subst.
  destruct (recordSuccessIf c) as [p|]; [destruct (p error) as [[]|]|]; by eff.
Qed.

(** A call that ends well: everything it does is the gauge increment, what
    the wrapped function does, and what [recordSuccess] does. *)
Lemma all_events_success c this params context v :
  let r := fn_apply (fn c) (calleeReceiver context) params (calleeContext c context) in
  outcome r = Returned v ∨ outcome r = Settled (Fulfilled v) →
  all_events (fn_apply (wrapper c) this params context) =
  entryEvents c ++ all_events r ++ (recordSuccess c v).1.
Proof.
  intros r Hr. rewrite wrapper_unfold. fold r. unfold all_events, outcome in *.
  destruct r as [evs [[v'|[later [v'|error]|later]]|error]]; simpl in *;
    destruct Hr as [Hr|Hr]; inversion Hr; subst; by rewrite ?app_nil_r, ?app_assoc.
Qed.

(** A call that ends badly, likewise with [recordError]. *)
Lemma all_events_failure c this params context error :
  let r := fn_apply (fn c) (calleeReceiver context) params (calleeContext c context) in
  outcome r = Threw error ∨ outcome r = Settled (Rejected error) →
  all_events (fn_apply (wrapper c) this params context) =
  entryEvents c ++ all_events r ++ (recordError c error).1.
Proof.
  intros r Hr. rewrite wrapper_unfold. fold r. unfold all_events, outcome in *.
  destruct r as [evs [[v'|[later [v'|error']|later]]|error']]; simpl in *;
    destruct Hr as [Hr|Hr]; inversion Hr; subst; by rewrite ?app_nil_r, ?app_assoc.
Qed.

(** The labels of a closure that [closure] built are the ones written in the
    object literals: the objective labels never shadow them. *)
Lemma labels_of_closure (args : Args V E) modulePath asyncLocalStorage c result :
  closure no_caller args modulePath asyncLocalStorage = Some c →
  counterLabels c result !! "result" = Some (AttrString result) ∧
  counterLabels c result !! "function" = Some (AttrString (functionName c)) ∧
  counterLabels c result !! "module" = Some (attr (moduleName c)) ∧
  counterLabels c result !! "caller" = Some (getALSCaller no_caller asyncLocalStorage) ∧
  histogramLabels c !! "function" = Some (AttrString (functionName c)) ∧
  histogramLabels c !! "module" = Some (attr (moduleName c)) ∧
  histogramLabels c !! "caller" = Some (getALSCaller no_caller asyncLocalStorage).
Proof.
  intros (Hco & Hho & Hca & _ & _)%closure_inv.
  unfold counterLabels, histogramLabels. rewrite Hco, Hho, Hca.
  rewrite counterObjectiveAttributesOf_eq, histogramObjectiveAttributesOf_eq.
  repeat split; reflexivity.
Qed.

(** C8. A call of a wrapped function that ends well (it returns a value, or
    the promise it returns fulfils) and that [recordErrorIf] does not turn
    into an error: besides what the wrapped function itself causes, the call
    makes exactly one counter increment, labelled [result = "ok"], and exactly
    one histogram record, and the two carry the same [function], [module] and
    [caller] labels. *)
Theorem success_emits_one_ok_and_one_histogram
    (args : Args V E) modulePath asyncLocalStorage c this params context v :
  closure no_caller args modulePath asyncLocalStorage = Some c →
  let r := fn_apply (fn c) (calleeReceiver context) params (calleeContext c context) in
  outcome r = Returned v ∨ outcome r = Settled (Fulfilled v) →
  (∀ p, recordErrorIf c = Some p → p v ≠ Normal true) →
  ∃ counterAttrs histogramAttrs tail,
    all_events (fn_apply (wrapper c) this params context) =
      entryEvents c ++ all_events r ++
      CounterAdd 1 counterAttrs :: HistogramRecord histogramAttrs :: tail ∧
    Forall (fun ev => isCallMetric ev = false) (entryEvents c ++ tail) ∧
    counterAttrs !! "result" = Some (AttrString "ok") ∧
    counterAttrs !! "function" = Some (AttrString (functionName c)) ∧
    histogramAttrs !! "function" = counterAttrs !! "function" ∧
    histogramAttrs !! "module" = counterAttrs !! "module" ∧
    histogramAttrs !! "caller" = counterAttrs !! "caller".
Proof.
  intros Hc r Hr Hp.
  pose proof (all_events_success c this params context v Hr) as Hall. fold r in Hall.
  destruct (labels_of_closure _ _ _ _ "ok" Hc) as (L1 & L2 & L3 & L4 & L5 & L6 & L7).
  destruct (tails_hold_no_call_metric c) as [Hst _].
  assert (Hentry : Forall (fun ev : Event E => isCallMetric ev = false) (entryEvents c)).
  { unfold entryEvents. eff. destruct (concurrencyGauge c); by repeat constructor. }
  rewrite recordSuccess_events, onSuccess_events in Hall.
  destruct (recordErrorIf c) as [p|] eqn:Hpred.
  - specialize (Hp p eq_refl).
    destruct (p v) as [[]|callbackError]; [done| |].
    + exists (counterLabels c "ok"), (histogramLabels c), (successTail c).
      rewrite L1, L2, L3, L4, L5, L6, L7. repeat split; try done.
      by apply Forall_app.
    + exists (counterLabels c "ok"), (histogramLabels c),
        (successTail c ++ [Trace "Error in recordErrorIf function: " callbackError]).
      rewrite L1, L2, L3, L4, L5, L6, L7. repeat split; try done.
      rewrite !Forall_app. repeat split; try done. by repeat constructor.
  - exists (counterLabels c "ok"), (histogramLabels c), (successTail c).
    rewrite L1, L2, L3, L4, L5, L6, L7. repeat split; try done.
    by apply Forall_app.
Qed.

(** C7. When [recordErrorIf] throws on the result of a call that ended well,
    the call is recorded as a success: one more counter increment with
    [result = "ok"], none with another result, then the diagnostic with the
    predicate's exception; when [recordSuccessIf] throws on the error of a
    call that ended badly, it is recorded as an error in the same way.
    Either way the caller gets the outcome of the wrapped function, not the
    predicate's exception. *)
Theorem throwing_predicate_falls_back
    (args : Args V E) modulePath asyncLocalStorage c this params context callbackError :
  closure no_caller args modulePath asyncLocalStorage = Some c →
  let r := fn_apply (fn c) (calleeReceiver context) params (calleeContext c context) in
  let w := fn_apply (wrapper c) this params context in
  (∀ v p,
     outcome r = Returned v ∨ outcome r = Settled (Fulfilled v) →
     recordErrorIf c = Some p → p v = Raised callbackError →
     all_events w =
       entryEvents c ++ all_events r ++ (onSuccess c).1 ++
       [Trace "Error in recordErrorIf function: " callbackError] ∧
     counterResults ((onSuccess c).1) = [Some (AttrString "ok")] ∧
     outcome w = outcome r) ∧
  (∀ error p,
     outcome r = Threw error ∨ outcome r = Settled (Rejected error) →
     recordSuccessIf c = Some p → p error = Raised callbackError →
     all_events w =
       entryEvents c ++ all_events r ++ (onError c).1 ++
       [Trace "Error in recordSuccessIf function: " callbackError] ∧
     counterResults ((onError c).1) = [Some (AttrString "error")] ∧
     outcome w = outcome r).
Proof.
  intros Hc r w.
  assert (Hout : outcome w = outcome r).
  { unfold w, r. rewrite wrapper_unfold. unfold outcome. simpl.
    destruct (fn_apply (fn c) (calleeReceiver context) params (calleeContext c context)) as [evs [[v|p]|error]];
      simpl; [done| |done].
    by destruct p as [later [v|error]|later]. }
  split.
  - intros v p Hr Hp Hthrow.
    pose proof (all_events_success c this params context v Hr) as Hall.
    rewrite recordSuccess_events, Hp, Hthrow in Hall.
    repeat split; [done| |done].
    rewrite onSuccess_events. unfold counterResults, successTail. eff. simpl.
    destruct (labels_of_closure _ _ _ _ "ok" Hc) as (-> & _).
    by destruct (concurrencyGauge c).
  - intros error p Hr Hp Hthrow.
    pose proof (all_events_failure c this params context error Hr) as Hall.
    rewrite recordError_events, Hp, Hthrow in Hall.
    repeat split; [done| |done].
    rewrite onError_events. unfold counterResults, errorTail. eff. simpl.
    destruct (labels_of_closure _ _ _ _ "error" Hc) as (-> & _).
    by destruct (concurrencyGauge c).
Qed.

(** The label sets a wrapped function emits are those of its two recording
    paths. *)
Lemma emitted_attributes (args : Args V E) modulePath asyncLocalStorage c :
  closure no_caller args modulePath asyncLocalStorage = Some c →
  counterAttributes (emitted no_caller args modulePath asyncLocalStorage c) =
    [counterLabels c "ok"; counterLabels c "ok"; counterLabels c "error"] ∧
  histogramAttributes (emitted no_caller args modulePath asyncLocalStorage c) =
    [histogramLabels c; histogramLabels c].
Proof.
  intros Hc. unfold emitted, autometrics. rewrite Hc, onSuccess_events, onError_events.
  unfold successTail, errorTail, counterAttributes, histogramAttributes. eff.
  by destruct (concurrencyGauge c).
Qed.

(** The keys and the objective labels of the counter's label set. *)
Lemma counterLabels_shape (args : Args V E) modulePath asyncLocalStorage c result :
  closure no_caller args modulePath asyncLocalStorage = Some c →
  dom (counterLabels c result) =
    ({[ "function"; "module"; "result"; "caller";
        "objective_name"; "objective_percentile" ]} : gset string) ∧
  counterLabels c result !! "objective_name" =
    Some (AttrString (from_option name "" (objectiveOf args))) ∧
  counterLabels c result !! "objective_percentile" =
    Some (AttrString (default "" (objectiveOf args ≫= successRate))).
Proof.
  intros (Hco & _)%closure_inv. unfold counterLabels.
  rewrite Hco, counterObjectiveAttributesOf_eq. repeat split; reflexivity.
Qed.

(** The keys and the objective labels of the histogram's label set. *)
Lemma histogramLabels_shape (args : Args V E) modulePath asyncLocalStorage c :
  closure no_caller args modulePath asyncLocalStorage = Some c →
  dom (histogramLabels c) =
    ({[ "function"; "module"; "caller"; "objective_name";
        "objective_latency_threshold"; "objective_percentile" ]} : gset string) ∧
  histogramLabels c !! "objective_name" =
    Some (AttrString (from_option name "" (objectiveOf args))) ∧
  histogramLabels c !! "objective_latency_threshold" =
    Some (AttrString (default "" (fst <$> (objectiveOf args ≫= latency)))) ∧
  histogramLabels c !! "objective_percentile" =
    Some (AttrString (default "" (snd <$> (objectiveOf args ≫= latency)))).
Proof.
  intros (_ & Hho & _)%closure_inv. unfold histogramLabels.
  rewrite Hho, histogramObjectiveAttributesOf_eq. repeat split; reflexivity.
Qed.

Lemma counter_member c (attrs : Attributes) :
  attrs ∈ [counterLabels c "ok"; counterLabels c "ok"; counterLabels c "error"] →
  ∃ result, attrs = counterLabels c result.
Proof. rewrite !elem_of_cons, elem_of_nil. intros [->|[->|[->|[]]]]; eauto. Qed.

Lemma histogram_member c (attrs : Attributes) :
  attrs ∈ [histogramLabels c; histogramLabels c] → attrs = histogramLabels c.
Proof. rewrite !elem_of_cons, elem_of_nil. by intros [->|[->|[]]]. Qed.

(** C6. Take any two wrapped functions, with or without an objective.  All
    their counter observations have the same label keys, and so have all
    their histogram records.  The objective labels are always there:
    [objective_name] is the objective's name, [objective_percentile] of the
    counter its success rate, [objective_latency_threshold] and
    [objective_percentile] of the histogram its latency pair, and each is the
    empty string when the objective, or that field of it, is not set. *)
Theorem objective_labels_keep_one_shape
    (args1 args2 : Args V E) modulePath1 modulePath2 als1 als2 c1 c2 :
  closure no_caller args1 modulePath1 als1 = Some c1 →
  closure no_caller args2 modulePath2 als2 = Some c2 →
  let emitted1 := emitted no_caller args1 modulePath1 als1 c1 in
  let emitted2 := emitted no_caller args2 modulePath2 als2 c2 in
  (∀ attrs1 attrs2 : Attributes,
     attrs1 ∈ counterAttributes emitted1 → attrs2 ∈ counterAttributes emitted2 →
     dom attrs1 = dom attrs2) ∧
  (∀ attrs1 attrs2 : Attributes,
     attrs1 ∈ histogramAttributes emitted1 → attrs2 ∈ histogramAttributes emitted2 →
     dom attrs1 = dom attrs2) ∧
  (∀ attrs : Attributes,
     attrs ∈ counterAttributes emitted1 →
     attrs !! "objective_name" =
       Some (AttrString (from_option name "" (objectiveOf args1))) ∧
     attrs !! "objective_percentile" =
       Some (AttrString (default "" (objectiveOf args1 ≫= successRate)))) ∧
  (∀ attrs : Attributes,
     attrs ∈ histogramAttributes emitted1 →
     attrs !! "objective_name" =
       Some (AttrString (from_option name "" (objectiveOf args1))) ∧
     attrs !! "objective_latency_threshold" =
       Some (AttrString (default "" (fst <$> (objectiveOf args1 ≫= latency)))) ∧
     attrs !! "objective_percentile" =
       Some (AttrString (default "" (snd <$> (objectiveOf args1 ≫= latency))))).
Proof.
  intros Hc1 Hc2 emitted1 emitted2. unfold emitted1, emitted2.
  destruct (emitted_attributes _ _ _ _ Hc1) as [-> ->].
  destruct (emitted_attributes _ _ _ _ Hc2) as [-> ->].
  pose proof (fun result => counterLabels_shape _ _ _ _ result Hc1) as Hk1.
  pose proof (fun result => counterLabels_shape _ _ _ _ result Hc2) as Hk2.
  destruct (histogramLabels_shape _ _ _ _ Hc1) as (Hd1 & Hh1).
  destruct (histogramLabels_shape _ _ _ _ Hc2) as (Hd2 & _).
  repeat split.
  - intros attrs1 attrs2 H1 H2.
    assert (∃ r1, attrs1 = counterLabels c1 r1) as [r1 ->]
      by (by apply counter_member).
    assert (∃ r2, attrs2 = counterLabels c2 r2) as [r2 ->]
      by (by apply counter_member).
    destruct (Hk1 r1) as [Hdom1 _]. destruct (Hk2 r2) as [Hdom2 _].
    exact (eq_trans Hdom1 (eq_sym Hdom2)).
  - intros attrs1 attrs2 H1 H2.
    assert (attrs1 = histogramLabels c1) as -> by (by apply histogram_member).
    assert (attrs2 = histogramLabels c2) as -> by (by apply histogram_member).
    exact (eq_trans Hd1 (eq_sym Hd2)).
  - assert (∃ r1, attrs = counterLabels c1 r1) as [r1 ->]
      by (by apply counter_member).
    by destruct (Hk1 r1) as (_ & -> & _).
  - assert (∃ r1, attrs = counterLabels c1 r1) as [r1 ->]
      by (by apply counter_member).
    by destruct (Hk1 r1) as (_ & _ & ->).
  - assert (attrs = histogramLabels c1) as -> by (by apply histogram_member).
    by destruct Hh1 as (-> & _).
  - assert (attrs = histogramLabels c1) as -> by (by apply histogram_member).
    by destruct Hh1 as (_ & -> & _).
  - assert (attrs = histogramLabels c1) as -> by (by apply histogram_member).
    by destruct Hh1 as (_ & _ & ->).
Qed.

(** Whatever context a wrapped function is called in, the [caller] label of
    its counter observations and histogram records is the one that
    [getALSCaller] gave when [autometrics] wrapped it. *)
Theorem caller_label_is_read_when_wrapping
    (args : Args V E) modulePath asyncLocalStorage c :
  closure no_caller args modulePath asyncLocalStorage = Some c →
  ∀ attrs : Attributes,
    attrs ∈ counterAttributes (emitted no_caller args modulePath asyncLocalStorage c) ++
            histogramAttributes (emitted no_caller args modulePath asyncLocalStorage c) →
    attrs !! "caller" = Some (getALSCaller no_caller asyncLocalStorage).
Proof.
  intros Hc attrs.
  destruct (emitted_attributes _ _ _ _ Hc) as [-> ->].
  pose proof (fun result => labels_of_closure _ _ _ _ result Hc) as Hlabels.
  intros [[result ->]%counter_member | ->%histogram_member]%elem_of_app.
  - by destruct (Hlabels result) as (_ & _ & _ & -> & _).
  - by destruct (Hlabels "ok") as (_ & _ & _ & _ & _ & _ & ->).
Qed.

Lemma gaugeValue_app (attrs : Attributes) (evs evs' : list (Event E)) :
  gaugeValue attrs (evs ++ evs') = (gaugeValue attrs evs + gaugeValue attrs evs')%Z.
Proof.
  induction evs as [|ev evs IH]; simpl; [done|].
  destruct ev; try done. case_decide; lia.
Qed.

Lemma gaugeValue_paths c :
  concurrencyGauge c = true →
  gaugeValue (entryLabels c) (entryEvents c) = 1%Z ∧
  gaugeValue (entryLabels c) ((onSuccess c).1) = (-1)%Z ∧
  gaugeValue (entryLabels c) ((onError c).1) = 0%Z.
Proof.
  intros Hgauge. rewrite onSuccess_events, onError_events.
  unfold entryEvents, successTail, errorTail, entryLabels. eff. rewrite Hgauge. simpl.
  rewrite !decide_True by done. rewrite decide_False; [done|].
  intros Heq. apply (f_equal (fun m : Attributes => m !! "caller")) in Heq.
  rewrite lookup_insert_ne, lookup_insert_ne, lookup_singleton_eq in Heq by done.
  rewrite lookup_insert_ne, lookup_singleton_ne in Heq by done. done.
Qed.

(** The series of the concurrency gauge that a call increments, after a call
    that was recorded.  A call is recorded as a success when it ended well
    and [recordErrorIf] did not answer true, or when it ended badly and
    [recordSuccessIf] answered true: it leaves the series where the wrapped
    function left it.  A call is recorded as an error when it ended badly
    and [recordSuccessIf] did not answer true, or when it ended well and
    [recordErrorIf] answered true: it leaves the series one higher, because
    [onError] decrements the series that has the [caller] label as well. *)
Theorem gauge_series_after_a_call c this params context :
  concurrencyGauge c = true →
  let r := fn_apply (fn c) (calleeReceiver context) params (calleeContext c context) in
  let w := fn_apply (wrapper c) this params context in
  (∀ v, outcome r = Returned v ∨ outcome r = Settled (Fulfilled v) →
        (∀ p, recordErrorIf c = Some p → p v ≠ Normal true) →
        gaugeValue (entryLabels c) (all_events w) = gaugeValue (entryLabels c) (all_events r)) ∧
  (∀ error p, outcome r = Threw error ∨ outcome r = Settled (Rejected error) →
        recordSuccessIf c = Some p → p error = Normal true →
        gaugeValue (entryLabels c) (all_events w) = gaugeValue (entryLabels c) (all_events r)) ∧
  (∀ error, outcome r = Threw error ∨ outcome r = Settled (Rejected error) →
        (∀ p, recordSuccessIf c = Some p → p error ≠ Normal true) →
        gaugeValue (entryLabels c) (all_events w) =
        (gaugeValue (entryLabels c) (all_events r) + 1)%Z) ∧
  (∀ v p, outcome r = Returned v ∨ outcome r = Settled (Fulfilled v) →
        recordErrorIf c = Some p → p v = Normal true →
        gaugeValue (entryLabels c) (all_events w) =
        (gaugeValue (entryLabels c) (all_events r) + 1)%Z).
Proof.
  intros Hgauge r w.
  destruct (gaugeValue_paths c Hgauge) as (Hentry & Hsuccess & Herror).
  repeat split.
  - intros v Hr Hp. unfold w.
    rewrite (all_events_success c this params context v Hr). fold r.
    rewrite !gaugeValue_app, Hentry, recordSuccess_events.
    destruct (recordErrorIf c) as [p|]; [|rewrite Hsuccess; lia].
    specialize (Hp p eq_refl).
    destruct (p v) as [[]|callbackError]; [done|rewrite Hsuccess; lia|].
    rewrite gaugeValue_app, Hsuccess. simpl. lia.
  - intros error p Hr Hp Htrue. unfold w.
    rewrite (all_events_failure c this params context error Hr). fold r.
    rewrite !gaugeValue_app, Hentry, recordError_events, Hp, Htrue, Hsuccess. lia.
  - intros error Hr Hp. unfold w.
    rewrite (all_events_failure c this params context error Hr). fold r.
    rewrite !gaugeValue_app, Hentry, recordError_events.
    destruct (recordSuccessIf c) as [p|]; [|rewrite Herror; lia].
    specialize (Hp p eq_refl).
    destruct (p error) as [[]|callbackError]; [done|rewrite Herror; lia|].
    rewrite gaugeValue_app, Herror. simpl. lia.
  - intros v p Hr Hp Htrue. unfold w.
    rewrite (all_events_success c this params context v Hr). fold r.
    rewrite !gaugeValue_app, Hentry, recordSuccess_events, Hp, Htrue, Herror. lia.
Qed.

End Facts.

Section Examples.
Import Examples.

(** C1, where the code departs from it.  [A] and [B] are both wrapped at top
    level and [A] calls [B] in its body.  [B] runs in the context that [A]'s
    wrapper set up, whose caller is ["A"]; yet the counter increment and the
    histogram record of [B] carry the label read when [B] was wrapped, the
    one for no caller. *)
Example nested_call_carries_wrap_time_caller :
  let labels := fun attrs : Attributes => (attrs !! "function", attrs !! "caller") in
  let trace := all_events (fn_apply A ThisUndefined [] topLevel) in
  getALSCaller noCaller (calleeContext (closureOf (ArgsFn bodyOfA) (Some "app")) topLevel) =
    AttrString "A" ∧
  labels <$> counterAttributes trace =
    [ (Some (AttrString "B"), Some noCaller);
      (Some (AttrString "A"), Some noCaller) ] ∧
  labels <$> histogramAttributes trace =
    [ (Some (AttrString "B"), Some noCaller);
      (Some (AttrString "A"), Some noCaller) ].
Proof. repeat split; reflexivity. Qed.

(** C9, where the code departs from it.  [deleteUser] is wrapped with
    [trackConcurrency] and throws.  The call increments the series
    [{function, module}] of the gauge and decrements the series
    [{function, module, caller}]: the first stays at one, the second goes to
    minus one. *)
Example error_path_decrements_another_series :
  let trace := all_events (fn_apply trackedDeleteUser ThisUndefined [] topLevel) in
  outcome (fn_apply trackedDeleteUser ThisUndefined [] topLevel) = Threw "User not found" ∧
  gaugeValue {[ "function" := AttrString "deleteUser";
                "module" := AttrString "db" ]} trace = 1%Z ∧
  gaugeValue {[ "function" := AttrString "deleteUser";
                "module" := AttrString "db";
                "caller" := noCaller ]} trace = (-1)%Z.
Proof. repeat split; reflexivity. Qed.

(** C3, where the code departs from it.  [db.getUsers()] on an instance of
    the example application's [DatabaseClient]: the method fulfils with the
    instance's users, the instrumented method rejects with a [TypeError],
    with the propagator and without it, because the wrapped function is
    applied to the receiver of [instrumentedFn] and not to [db]. *)
Example instrumented_method_loses_its_receiver :
  let db := ThisValue 2%Z in
  outcome (fn_apply getUsers db [] topLevel) = Settled (Fulfilled 2%Z) ∧
  outcome (fn_apply instrumentedGetUsers db [] topLevel) =
    Settled (Rejected "TypeError: Cannot read properties of null (reading 'users')") ∧
  outcome (fn_apply instrumentedGetUsers db [] None) =
    Settled (Rejected "TypeError: Cannot read properties of undefined (reading 'users')").
Proof. repeat split; reflexivity. Qed.

(** [wrapper_ends_as_the_call_it_makes] at [getUser], which does not read
    its receiver: called on an object, the wrapper returns what [getUser]
    returns on that object. *)
Lemma wrapper_ends_as_the_call_it_makes_witness :
  let c := closureOf (ArgsFn getUser) None in
  outcome (fn_apply (wrapper c) (ThisValue 2%Z) [] topLevel) =
  outcome (fn_apply getUser (ThisValue 2%Z) [] (calleeContext c topLevel)).
Proof.
  apply (proj1 (proj2 (wrapper_ends_as_the_call_it_makes (V:=Z) (E:=string) noCaller))
    (closureOf (ArgsFn getUser) None) (ThisValue 2%Z) [] topLevel).
  intros this'. reflexivity.
Defined.

(** [objective_labels_keep_one_shape] at a function wrapped with the example
    application's objective and the same function wrapped without one. *)
Lemma objective_labels_keep_one_shape_witness :
  let args1 := ArgsOptions sloOptions (Some getUser) in
  let args2 := ArgsFn getUser in
  let emitted1 := emitted noCaller args1 None topLevel (closureOf args1 None) in
  let emitted2 := emitted noCaller args2 None topLevel (closureOf args2 None) in
  (∀ attrs1 attrs2 : Attributes,
     attrs1 ∈ counterAttributes emitted1 → attrs2 ∈ counterAttributes emitted2 →
     dom attrs1 = dom attrs2) ∧
  (∀ attrs1 attrs2 : Attributes,
     attrs1 ∈ histogramAttributes emitted1 → attrs2 ∈ histogramAttributes emitted2 →
     dom attrs1 = dom attrs2) ∧
  (∀ attrs : Attributes,
     attrs ∈ counterAttributes emitted2 →
     attrs !! "objective_name" = Some (AttrString "") ∧
     attrs !! "objective_percentile" = Some (AttrString "")) ∧
  (∀ attrs : Attributes,
     attrs ∈ histogramAttributes emitted1 →
     attrs !! "objective_name" = Some (AttrString "api") ∧
     attrs !! "objective_latency_threshold" = Some (AttrString "0.25") ∧
     attrs !! "objective_percentile" = Some (AttrString "99")).
Proof.
  pose proof (objective_labels_keep_one_shape noCaller
    (ArgsOptions sloOptions (Some getUser)) (ArgsFn getUser) None None topLevel topLevel
    _ _ eq_refl eq_refl) as (Hcounter & Hhistogram & _ & Hfields1).
  pose proof (objective_labels_keep_one_shape noCaller
    (ArgsFn getUser) (ArgsOptions sloOptions (Some getUser)) None None topLevel topLevel
    _ _ eq_refl eq_refl) as (_ & _ & Hfields2 & _).
  exact (conj Hcounter (conj Hhistogram (conj Hfields2 Hfields1))).
Defined.

(** [success_emits_one_ok_and_one_histogram] at [getUser], wrapped with the
    example application's objective and called at top level. *)
Lemma success_emits_one_ok_and_one_histogram_witness :
  let c := closureOf (ArgsOptions sloOptions (Some getUser)) None in
  ∃ counterAttrs histogramAttrs tail,
    all_events (fn_apply (wrapper c) ThisUndefined [] topLevel) =
      entryEvents c ++ all_events (fn_apply getUser ThisNull [] (calleeContext c topLevel)) ++
      CounterAdd 1 counterAttrs :: HistogramRecord histogramAttrs :: tail ∧
    Forall (fun ev => isCallMetric ev = false) (entryEvents c ++ tail) ∧
    counterAttrs !! "result" = Some (AttrString "ok") ∧
    counterAttrs !! "function" = Some (AttrString "getUser") ∧
    histogramAttrs !! "function" = counterAttrs !! "function" ∧
    histogramAttrs !! "module" = counterAttrs !! "module" ∧
    histogramAttrs !! "caller" = counterAttrs !! "caller".
Proof.
  apply (success_emits_one_ok_and_one_histogram noCaller
    (ArgsOptions sloOptions (Some getUser)) None topLevel _ ThisUndefined [] topLevel 7%Z eq_refl).
  - left. reflexivity.
  - intros p Hp. discriminate Hp.
Defined.

(** [throwing_predicate_falls_back] at [getUser] and at [deleteUser], both
    wrapped with predicates that throw. *)
Lemma throwing_predicate_falls_back_witness :
  let ok := closureOf (ArgsOptions throwingOptions (Some getUser)) None in
  let ko := closureOf (ArgsOptions throwingOptions (Some deleteUser)) None in
  (all_events (fn_apply (wrapper ok) ThisUndefined [] topLevel) =
     entryEvents ok ++ all_events (fn_apply getUser ThisNull [] (calleeContext ok topLevel)) ++
     (onSuccess ok).1 ++ [Trace "Error in recordErrorIf function: " "predicate failed"] ∧
   counterResults ((onSuccess ok).1) = [Some (AttrString "ok")] ∧
   outcome (fn_apply (wrapper ok) ThisUndefined [] topLevel) = Returned 7%Z) ∧
  (all_events (fn_apply (wrapper ko) ThisUndefined [] topLevel) =
     entryEvents ko ++ all_events (fn_apply deleteUser ThisNull [] (calleeContext ko topLevel)) ++
     (onError ko).1 ++ [Trace "Error in recordSuccessIf function: " "predicate failed"] ∧
   counterResults ((onError ko).1) = [Some (AttrString "error")] ∧
   outcome (fn_apply (wrapper ko) ThisUndefined [] topLevel) = Threw "User not found").
Proof.
  split.
  - apply (proj1 (throwing_predicate_falls_back noCaller
      (ArgsOptions throwingOptions (Some getUser)) None topLevel _ ThisUndefined [] topLevel
      "predicate failed" eq_refl) 7%Z (fun _ => Raised "predicate failed"));
      [left|..]; reflexivity.
  - apply (proj2 (throwing_predicate_falls_back noCaller
      (ArgsOptions throwingOptions (Some deleteUser)) None topLevel _ ThisUndefined [] topLevel
      "predicate failed" eq_refl) "User not found" (fun _ => Raised "predicate failed"));
      [left|..]; reflexivity.
Defined.

(** [caller_label_is_read_when_wrapping] at [getUser], wrapped at top
    level. *)
Lemma caller_label_is_read_when_wrapping_witness :
  counterLabels (closureOf (ArgsFn getUser) None) "error" !! "caller" = Some noCaller.
Proof.
  apply (caller_label_is_read_when_wrapping noCaller (ArgsFn getUser) None topLevel
    _ eq_refl).
  apply elem_of_app. left.
  rewrite (proj1 (emitted_attributes noCaller (ArgsFn getUser) None topLevel _ eq_refl)).
  right. right. left.
Defined.

(** [gauge_series_after_a_call] at [deleteUser], wrapped with
    [trackConcurrency]: once as it is, where the call is recorded as an
    error, and once with a [recordSuccessIf] that answers true, where it is
    recorded as a success. *)
Lemma gauge_series_after_a_call_witness :
  let c := closureOf (ArgsOptions trackingOptions (Some deleteUser)) None in
  let c' := closureOf (ArgsOptions forgivingOptions (Some deleteUser)) None in
  gaugeValue (entryLabels c) (all_events (fn_apply (wrapper c) ThisUndefined [] topLevel)) =
    (gaugeValue (entryLabels c)
       (all_events (fn_apply deleteUser ThisNull [] (calleeContext c topLevel))) + 1)%Z ∧
  gaugeValue (entryLabels c') (all_events (fn_apply (wrapper c') ThisUndefined [] topLevel)) =
    gaugeValue (entryLabels c')
      (all_events (fn_apply deleteUser ThisNull [] (calleeContext c' topLevel))).
Proof.
  split.
  - apply (proj1 (proj2 (proj2 (gauge_series_after_a_call
      (closureOf (ArgsOptions trackingOptions (Some deleteUser)) None)
      ThisUndefined [] topLevel eq_refl))) "User not found").
    + left. reflexivity.
    + intros p Hp. discriminate Hp.
  - apply (proj1 (proj2 (gauge_series_after_a_call
      (closureOf (ArgsOptions forgivingOptions (Some deleteUser)) None)
      ThisUndefined [] topLevel eq_refl)) "User not found" (fun _ => Normal true));
      [left|..]; reflexivity.
Defined.

End Examples.
End WrappersFacts.

(** ** Properties of the push-gateway exporter *)
Module PushGatewayFacts.
Import PushGateway.

Section Facts.
Context {ResourceMetrics : Type}.
Variable serialize : ResourceMetrics -> string.
Implicit Types (x : PushGatewayExporter).
Implicit Types (a : Action ResourceMetrics) (actions : list (Action ResourceMetrics)).

Lemma run_app actions actions' x :
  run serialize (actions ++ actions') x = run serialize actions' (run serialize actions x).
Proof. revert x. induction actions as [|a actions IH]; intros x; simpl; [done|]. apply IH. Qed.

(** Any property that the methods and the network keep holds along a run. *)
Lemma run_invariant (P : PushGatewayExporter → Prop) actions x :
  (∀ a x, P x → P (step serialize a x)) → P x → P (run serialize actions x).
Proof.
  intros Hstep. revert x.
  induction actions as [|a actions IH]; intros x Hx; simpl; [done|].
  apply IH, Hstep, Hx.
Qed.

(** *** The shutdown flag *)

Lemma export_keeps_once metrics callback x :
  _shutdownOnce (export serialize metrics callback x) = _shutdownOnce x.
Proof. unfold export. by repeat case_match. Qed.

Lemma fetchSettles_keeps_once promise how x :
  _shutdownOnce (fetchSettles promise how x) = _shutdownOnce x.
Proof. unfold fetchSettles. by repeat case_match. Qed.

(** A handler's turn touches the record of its request and the effects,
    and nothing else; the state of every request is as before. *)
Lemma handlerRuns_keeps_once promise thrown x :
  _shutdownOnce (handlerRuns promise thrown x) = _shutdownOnce x.
Proof. unfold handlerRuns. by repeat case_match. Qed.

Lemma handlerRuns_keeps_sending promise thrown x :
  _sendingPromises (handlerRuns promise thrown x) = _sendingPromises x.
Proof. unfold handlerRuns. by repeat case_match. Qed.

Lemma handlerRuns_keeps_limit promise thrown x :
  _concurrencyLimit (handlerRuns promise thrown x) = _concurrencyLimit x.
Proof. unfold handlerRuns. by repeat case_match. Qed.

Lemma handlerRuns_keeps_flushed promise thrown x :
  flushed (handlerRuns promise thrown x) = flushed x.
Proof. unfold handlerRuns. by repeat case_match. Qed.

Lemma handlerRuns_keeps_length promise thrown x :
  length (fetched (handlerRuns promise thrown x)) = length (fetched x).
Proof. unfold handlerRuns. repeat case_match; simpl; by rewrite ?length_insert. Qed.

Lemma handlerRuns_keeps_delivery promise thrown x p d :
  fetched x !! p = Some d →
  ∃ d', fetched (handlerRuns promise thrown x) !! p = Some d' ∧
        state d' = state d ∧ resultCallback d' = resultCallback d ∧
        (p ≠ promise → d' = d).
Proof.
  intros Hd. unfold handlerRuns.
  destruct (fetched x !! promise) as [d0|] eqn:Hd0; [|by exists d].
  assert (Hlt : promise < length (fetched x)) by (by eapply lookup_lt_Some).
  destruct (decide (p = promise)) as [->|Hne].
  - assert (d0 = d) as -> by congruence.
    repeat case_match; simpl; try (by exists d);
      rewrite list_lookup_insert_eq by done; by eexists.
  - repeat case_match; simpl; try (by exists d);
      rewrite list_lookup_insert_ne by done; by exists d.
Qed.

Lemma handlerRuns_keeps_states promise thrown x p :
  stateOf (handlerRuns promise thrown x) p = stateOf x p.
Proof.
  unfold stateOf. destruct (fetched x !! p) as [d|] eqn:Hd.
  - by destruct (handlerRuns_keeps_delivery promise thrown x p d Hd) as (d' & -> & -> & _).
  - apply lookup_ge_None in Hd.
    rewrite (lookup_ge_None_2 (fetched (handlerRuns promise thrown x)) p); [done|].
    by rewrite handlerRuns_keeps_length.
Qed.


Lemma shutdown_sets_flag x : isCalled (_shutdownOnce (shutdown x).1) = true.
Proof. unfold shutdown. by destruct (isCalled (_shutdownOnce x)) eqn:Hc. Qed.

Lemma step_keeps_flag a x :
  isCalled (_shutdownOnce x) = true → isCalled (_shutdownOnce (step serialize a x)) = true.
Proof.
  intros Hc. destruct a as [metrics callback| | |promise how|promise thrown]; simpl.
  - by rewrite export_keeps_once.
  - done.
  - apply shutdown_sets_flag.
  - by rewrite fetchSettles_keeps_once.
  - by rewrite handlerRuns_keeps_once.
Qed.

Lemma flag_after_shutdown before after x :
  isCalled (_shutdownOnce (run serialize (before ++ Shutdown :: after) x)) = true.
Proof.
  rewrite run_app. simpl.
  apply (run_invariant (fun x => isCalled (_shutdownOnce x) = true)).
  - apply step_keeps_flag.
  - apply shutdown_sets_flag.
Qed.

(** C10. Once [shutdown] has been called, whatever happened before and
    whatever has happened since (the flush it started may still be pending),
    [export] calls its callback at once with the failure "Exporter has been
    shutdown" and does nothing else: nothing is serialized, no request is
    started, the in-flight set is untouched. *)
Theorem export_after_shutdown_fails_fast
    (concurrencyLimit : option nat) before after metrics callback :
  let x := run serialize (before ++ Shutdown :: after) (constructor concurrencyLimit) in
  let x' := export serialize metrics callback x in
  x' = log (ResultCallback callback (FAILED "Exporter has been shutdown")) x ∧
  effects x' = effects x ++ [ResultCallback callback (FAILED "Exporter has been shutdown")] ∧
  fetched x' = fetched x ∧
  _sendingPromises x' = _sendingPromises x.
Proof.
  intros x x'. unfold x', export.
  unfold x. by rewrite flag_after_shutdown.
Qed.

(** *** Shutdown runs once *)




Lemma flag_counts_shutdown_calls actions x :
  isCalled (_shutdownOnce (run serialize actions x)) =
  isCalled (_shutdownOnce x) || bool_decide (0 < shutdownCalls actions).
Proof.
  revert x. induction actions as [|a actions IH]; intros x; simpl.
  - by rewrite orb_false_r.
  - rewrite IH.
    destruct a as [metrics callback| | |promise how|promise thrown]; simpl.
    + by rewrite export_keeps_once.
    + done.
    + rewrite shutdown_sets_flag. by rewrite orb_true_r.
    + by rewrite fetchSettles_keeps_once.
    + by rewrite handlerRuns_keeps_once.
Qed.


(** *** Backpressure *)

Lemma splice_length index (l : list nat) : length (splice index l) ≤ length l.
Proof.
  destruct index as [i|]; simpl.
  - revert i. induction l as [|p l IH]; intros [|i]; simpl; try lia.
    specialize (IH i). lia.
  - induction l as [|p [|q l] IH]; simpl in *; lia.
Qed.

Lemma step_keeps_limit a x :
  _concurrencyLimit (step serialize a x) = _concurrencyLimit x.
Proof.
  destruct a as [metrics callback| | |promise how|promise thrown]; simpl.
  - unfold export.
    destruct (isCalled (_shutdownOnce x)); [done|]. by destruct (reached _ _).
  - done.
  - unfold shutdown. by destruct (isCalled (_shutdownOnce x)).
  - unfold fetchSettles.
    destruct (fetched x !! promise) as [d|]; [|done]. by destruct (state d).
  - apply handlerRuns_keeps_limit.
Qed.

Lemma step_keeps_within_limit a x : withinLimit x → withinLimit (step serialize a x).
Proof.
  unfold withinLimit. rewrite step_keeps_limit.
  destruct (_concurrencyLimit x) as [n|] eqn:Hlimit; [|done]. intros Hx.
  destruct a as [metrics callback| | |promise how|promise thrown]; simpl.
  - unfold export.
    destruct (isCalled (_shutdownOnce x)); [done|].
    rewrite Hlimit. unfold reached. case_bool_decide; simpl; [done|].
    rewrite length_app. simpl. lia.
  - done.
  - unfold shutdown. by destruct (isCalled (_shutdownOnce x)).
  - unfold fetchSettles.
    destruct (fetched x !! promise) as [d|]; [|done].
    destruct (state d); [|done..]. simpl.
    pose proof (splice_length (indexOf (_sendingPromises x) promise) (_sendingPromises x)).
    lia.
  - by rewrite handlerRuns_keeps_sending.
Qed.

(** C5, as amended.  While [shutdown] has not been called, an [export] that
    finds the in-flight set at the limit calls its callback at once with the
    failure "Concurrent export limit reached" and does nothing else: nothing
    is serialized, no request is started.  And in every state an exporter
    can reach, the in-flight set holds at most [concurrencyLimit] promises. *)
Theorem export_applies_backpressure
    (concurrencyLimit : option nat) actions metrics callback :
  let x := run serialize actions (constructor concurrencyLimit) in
  let x' := export serialize metrics callback x in
  (∀ n, concurrencyLimit = Some n → length (_sendingPromises x) ≤ n) ∧
  (isCalled (_shutdownOnce x) = false →
   reached (length (_sendingPromises x)) (_concurrencyLimit x) = true →
   effects x' =
     effects x ++ [ResultCallback callback (FAILED "Concurrent export limit reached")] ∧
   fetched x' = fetched x ∧
   _sendingPromises x' = _sendingPromises x).
Proof.
  intros x x'. split.
  - intros n ->.
    pose proof (run_invariant withinLimit actions (constructor (Some n))
      step_keeps_within_limit) as Hlimit.
    unfold withinLimit in Hlimit.
    assert (Hsame : _concurrencyLimit (run serialize actions (constructor (Some n))) = Finite n).
    { apply (run_invariant (fun x => _concurrencyLimit x = Finite n)); [|done].
      intros a y Hy. by rewrite step_keeps_limit. }
    rewrite Hsame in Hlimit. apply Hlimit. simpl. lia.
  - intros Hflag Hreached. unfold x', export. by rewrite Hflag, Hreached.
Qed.

(** *** Flush *)

(** [Promise.all] at the moment it is called. *)
Lemma promise_all_sound x (l : list nat) :
  flushSound x {| inputs := l; outcome := promise_all (stateOf x <$> l) |}.
Proof.
  unfold flushSound. cbn [inputs outcome].
  induction l as [|p l IH]; [|rewrite fmap_cons; cbn [promise_all]].
  - intros p Hp. by apply elem_of_nil in Hp.
  - destruct (stateOf x p) as [|response|error] eqn:Hp.
    + destruct (promise_all (stateOf x <$> l)) as [|[]|error'].
      * split; [exists p; split; [left|done]|].
        intros q error' [->|Hq]%elem_of_cons; [congruence|].
        by apply (proj2 IH).
      * split; [exists p; split; [left|done]|].
        intros q error' [->|Hq]%elem_of_cons; [congruence|].
        destruct (IH q Hq) as [response' Hq']. congruence.
      * destruct IH as (q & Hq & Hq'). exists q. split; [by right|done].
    + destruct (promise_all (stateOf x <$> l)) as [|[]|error'].
      * destruct IH as [(q & Hq & Hq') Hno]. split; [exists q; split; [by right|done]|].
        intros q' error' [->|Hq'']%elem_of_cons; [congruence|]. by apply Hno.
      * intros q [->|Hq]%elem_of_cons; [by exists response|]. by apply IH.
      * destruct IH as (q & Hq & Hq'). exists q. split; [by right|done].
    + exists p. split; [left|done].
Qed.

(** A flush only depends on the exporter through the states of the
    requests. *)
Lemma flushSound_ext x x' flush :
  (∀ p, stateOf x' p = stateOf x p) → flushSound x flush → flushSound x' flush.
Proof.
  intros Hsame. unfold flushSound.
  destruct (outcome flush) as [|[]|error].
  - intros [(p & Hp & Hp') Hno]. split.
    + exists p. by rewrite Hsame.
    + intros q error. rewrite Hsame. apply Hno.
  - intros Hall p Hp. rewrite Hsame. by apply Hall.
  - intros (p & Hp & Hp'). exists p. by rewrite Hsame.
Qed.

Lemma export_keeps_states metrics callback x p :
  stateOf (export serialize metrics callback x) p = stateOf x p.
Proof.
  unfold export. repeat case_match; try done.
  unfold stateOf, _export, log. simpl.
  destruct (decide (p < length (fetched x))) as [Hlt|Hge].
  - by rewrite lookup_app_l.
  - rewrite lookup_app_r by lia.
    rewrite (lookup_ge_None_2 (fetched x) p) by lia.
    by destruct (p - length (fetched x)) as [|[|k]].
Qed.

(** The states after a pending request has settled. *)
Lemma fetchSettles_states promise how x d q :
  fetched x !! promise = Some d → state d = Pending →
  stateOf (fetchSettles promise how x) q =
  if decide (q = promise) then
    match how with
    | Responds response => Fulfilled response
    | Fails error => Rejected error
    end
  else stateOf x q.
Proof.
  intros Hd Hpending. unfold fetchSettles. rewrite Hd, Hpending.
  unfold stateOf. simpl. case_decide as Hq.
  - subst q. rewrite list_lookup_insert_eq; [done|]. by eapply lookup_lt_Some.
  - by rewrite list_lookup_insert_ne.
Qed.

Lemma react_keeps_inputs states promise how flush :
  inputs (react states promise how flush) = inputs flush.
Proof. unfold react. by repeat case_match. Qed.

Lemma forallb_true_elem (f : nat → bool) (l : list nat) :
  forallb f l = true → ∀ q, q ∈ l → f q = true.
Proof.
  induction l as [|p l IH]; simpl; intros Hall q Hq.
  - by apply elem_of_nil in Hq.
  - apply andb_true_iff in Hall as [Hp Hl].
    apply elem_of_cons in Hq as [->|Hq]; [done|]. by apply IH.
Qed.

Lemma forallb_false_elem (f : nat → bool) (l : list nat) :
  forallb f l = false → ∃ q, q ∈ l ∧ f q = false.
Proof.
  induction l as [|p l IH]; simpl; [done|]. intros Hall.
  destruct (f p) eqn:Hp; simpl in Hall.
  - destruct (IH Hall) as (q & Hq & Hfq). exists q. split; [by right|done].
  - exists p. split; [left|done].
Qed.

(** The reaction of [Promise.all] keeps a flush sound. *)
Lemma react_sound promise how x d flush :
  fetched x !! promise = Some d → state d = Pending →
  flushSound x flush →
  flushSound (fetchSettles promise how x)
    (react (stateOf (fetchSettles promise how x)) promise how flush).
Proof.
  intros Hd Hpending.
  assert (Hwas : stateOf x promise = Pending) by (unfold stateOf; by rewrite Hd).
  pose proof (fetchSettles_states promise how x d) as Hstates.
  specialize (fun q => Hstates q Hd Hpending).
  set (x' := fetchSettles promise how x) in *.
  unfold flushSound, react.
  destruct (outcome flush) as [|[]|error] eqn:Hout; simpl; rewrite ?Hout.
  - intros [(p & Hp & Hp') Hno].
    destruct (decide (promise ∈ inputs flush)) as [Hin|Hnotin]; simpl.
    + destruct how as [response|error]; simpl.
      * destruct (forallb _ (inputs flush)) eqn:Hall; simpl.
        -- intros q Hq. apply (forallb_true_elem _ _ Hall) in Hq.
           destruct (stateOf x' q) as [|r|]; [done| |done]. by exists r.
        -- split.
           ++ apply forallb_false_elem in Hall as (q & Hq & Hnot).
              exists q. split; [done|].
              rewrite Hstates in *. case_decide as Heq; [done|].
              destruct (stateOf x q) as [|r|error] eqn:Hsq; [done|done|].
              exfalso. by apply (Hno q error).
           ++ intros q error Hq. rewrite Hstates. case_decide; [done|]. by apply Hno.
      * exists promise. split; [done|]. rewrite Hstates. by rewrite decide_True.
    + rewrite Hout. split.
      * exists p. split; [done|]. rewrite Hstates.
        rewrite decide_False; [done|]. intros ->. done.
      * intros q error Hq. rewrite Hstates.
        rewrite decide_False; [by apply Hno|]. intros ->. done.
  - intros Hall p Hp. rewrite Hstates. case_decide as Heq.
    + subst p. destruct (Hall promise Hp) as [r Hr]. congruence.
    + by apply Hall.
  - intros (p & Hp & Hp'). exists p. split; [done|]. rewrite Hstates.
    rewrite decide_False; [done|]. intros ->. congruence.
Qed.

Lemma forceFlush_keeps_flushes_sound x :
  flushesSound x → flushesSound (forceFlush x).1.
Proof.
  unfold flushesSound. simpl. intros Hx. apply Forall_app. split.
  - eapply Forall_impl; [exact Hx|]. intros flush. by apply flushSound_ext.
  - apply Forall_singleton.
    eapply flushSound_ext; [|apply (promise_all_sound x)]. done.
Qed.

Lemma step_keeps_flushes_sound a x :
  flushesSound x → flushesSound (step serialize a x).
Proof.
  intros Hx. destruct a as [metrics callback| | |promise how|promise thrown]; simpl.
  - unfold flushesSound in *.
    replace (flushed (export serialize metrics callback x)) with (flushed x)
      by (unfold export; by repeat case_match).
    eapply Forall_impl; [exact Hx|]. intros flush.
    apply flushSound_ext. apply export_keeps_states.
  - by apply forceFlush_keeps_flushes_sound.
  - unfold shutdown. destruct (isCalled (_shutdownOnce x)); [done|].
    apply (forceFlush_keeps_flushes_sound (log (Debug "shutdown started") x)) in Hx.
    exact Hx.
  - destruct (fetched x !! promise) as [d|] eqn:Hd;
      [|unfold fetchSettles; by rewrite Hd].
    destruct (state d) eqn:Hpending;
      [|unfold fetchSettles; by rewrite Hd, Hpending..].
    pose proof (react_sound promise how x d) as Hreact.
    unfold flushesSound in *.
    assert (Hflushed : flushed (fetchSettles promise how x) =
      react (stateOf (fetchSettles promise how x)) promise how <$> flushed x).
    { unfold fetchSettles. by rewrite Hd, Hpending. }
    rewrite Hflushed. apply Forall_fmap.
    eapply Forall_impl; [exact Hx|]. intros flush. by apply Hreact.
  - unfold flushesSound in *. rewrite handlerRuns_keeps_flushed.
    eapply Forall_impl; [exact Hx|]. intros flush.
    apply flushSound_ext. apply handlerRuns_keeps_states.
Qed.

(** A flush keeps its place and its inputs for the rest of the run. *)
Lemma step_keeps_inputs a x i flush :
  flushed x !! i = Some flush →
  ∃ flush', flushed (step serialize a x) !! i = Some flush' ∧
            inputs flush' = inputs flush.
Proof.
  intros Hi. destruct a as [metrics callback| | |promise how|promise thrown]; simpl.
  - exists flush. split; [|done].
    replace (flushed (export serialize metrics callback x)) with (flushed x)
      by (unfold export; by repeat case_match).
    done.
  - exists flush. split; [|done]. by apply lookup_app_l_Some.
  - exists flush. split; [|done]. unfold shutdown.
    destruct (isCalled (_shutdownOnce x)); [done|]. simpl.
    by apply lookup_app_l_Some.
  - unfold fetchSettles.
    destruct (fetched x !! promise) as [d|]; [|by exists flush].
    destruct (state d); [|by exists flush..]. simpl.
    rewrite list_lookup_fmap, Hi. simpl. eexists. split; [done|].
    apply react_keeps_inputs.
  - exists flush. by rewrite handlerRuns_keeps_flushed.
Qed.

Lemma run_keeps_inputs actions x i flush :
  flushed x !! i = Some flush →
  ∃ flush', flushed (run serialize actions x) !! i = Some flush' ∧
            inputs flush' = inputs flush.
Proof.
  revert x flush. induction actions as [|a actions IH]; intros x flush Hi; simpl.
  - by exists flush.
  - destruct (step_keeps_inputs a x i flush Hi) as (flush1 & H1 & Hin1).
    destruct (IH _ _ H1) as (flush2 & H2 & Hin2).
    exists flush2. split; [done|]. congruence.
Qed.

(** C2, as amended.  [forceFlush] is called in some reachable state, and the
    run goes on.  If the promise it returned has fulfilled, every request
    that was in flight at the call has been answered.  If it has rejected,
    one of those requests failed in transport, with the error the promise
    carries; the others may still be in flight.  And while it is pending,
    none of them has failed in transport and one of them is still in
    flight. *)
Theorem flush_waits_unless_a_request_is_rejected
    (concurrencyLimit : option nat) before after :
  let called := run serialize before (constructor concurrencyLimit) in
  let x := run serialize after (forceFlush called).1 in
  match settlement x (forceFlush called).2 with
  | Fulfilled _ =>
      ∀ p, p ∈ _sendingPromises called → ∃ response, stateOf x p = Fulfilled response
  | Rejected error =>
      ∃ p, p ∈ _sendingPromises called ∧ stateOf x p = Rejected error
  | Pending =>
      (∃ p, p ∈ _sendingPromises called ∧ stateOf x p = Pending) ∧
      (∀ p error, p ∈ _sendingPromises called → stateOf x p ≠ Rejected error)
  end.
Proof.
  intros called x.
  assert (Hsound : flushesSound x).
  { apply run_invariant; [apply step_keeps_flushes_sound|].
    apply forceFlush_keeps_flushes_sound.
    apply run_invariant; [apply step_keeps_flushes_sound|]. constructor. }
  assert (Hnew : flushed (forceFlush called).1 !! length (flushed called) =
    Some {| inputs := _sendingPromises called;
            outcome := promise_all (stateOf called <$> _sendingPromises called) |}).
  { simpl. by rewrite lookup_app_r, Nat.sub_diag by lia. }
  destruct (run_keeps_inputs after _ _ _ Hnew) as (flush & Hflush & Hinputs).
  fold x in Hflush. simpl in Hinputs.
  unfold flushesSound in Hsound. rewrite Forall_lookup in Hsound.
  specialize (Hsound _ _ Hflush). unfold flushSound in Hsound.
  rewrite Hinputs in Hsound.
  unfold settlement. simpl. by rewrite Hflush.
Qed.

End Facts.

Section Examples.
Import ExporterExamples.

(** C2 as stated fails: two requests are in flight when [forceFlush] is
    called; the first fails in transport, and the promise of the flush is
    rejected while the second request is still pending. *)
Example flush_rejects_while_a_request_is_in_flight :
  _sendingPromises twoInFlight = [0; 1] ∧
  settlement firstFails (forceFlush twoInFlight).2 = Rejected "network down" ∧
  stateOf firstFails 1 = Pending.
Proof. repeat split; reflexivity. Qed.

(** C5 as stated fails: the in-flight set is at the limit, but [shutdown] has
    been called, and [export] reports the shutdown, not the limit. *)
Example export_at_the_limit_after_shutdown_reports_shutdown :
  let x := atTheLimitShutDown in
  reached (length (_sendingPromises x)) (_concurrencyLimit x) = true ∧
  effects (export serializeNothing tt 1 x) =
    effects x ++ [ResultCallback 1 (FAILED "Exporter has been shutdown")] ∧
  FAILED "Exporter has been shutdown" ≠ FAILED "Concurrent export limit reached".
Proof. repeat split; [reflexivity..|discriminate]. Qed.

(** [export_applies_backpressure] at an exporter with limit one and one
    request in flight. *)
Lemma export_applies_backpressure_witness :
  let x := atTheLimit in
  let x' := export serializeNothing tt 1 x in
  length (_sendingPromises x) ≤ 1 ∧
  effects x' =
    effects x ++ [ResultCallback 1 (FAILED "Concurrent export limit reached")] ∧
  fetched x' = fetched x ∧
  _sendingPromises x' = _sendingPromises x.
Proof.
  destruct (export_applies_backpressure serializeNothing (Some 1) [Export tt 0] tt 1)
    as [Hsize Hreject].
  split.
  - exact (Hsize 1 eq_refl).
  - apply Hreject; reflexivity.
Defined.

End Examples.
End PushGatewayFacts.

(** ** Further properties of the instrumentation engine *)
Module WrappersMore.
Import Wrappers WrappersFacts Observations.

Section Facts.
Context {V E : Type}.
Variable no_caller : AttributeValue.
Implicit Types (c : Closure V E) (params : list V) (v : V) (error : E).
Implicit Types (this : Receiver V) (context : option ALS.ALSInstance).

(** The outcome of a call of the wrapper is that of the call it makes. *)
Lemma wrapper_outcome c this params context :
  outcome (fn_apply (wrapper c) this params context) =
  outcome (fn_apply (fn c) (calleeReceiver context) params (calleeContext c context)).
Proof.
  rewrite wrapper_unfold. unfold outcome. simpl.
  destruct (fn_apply (fn c) (calleeReceiver context) params (calleeContext c context)) as [evs [[v|p]|error]];
    simpl; [done| |done].
  by destruct p as [later [v|error]|later].
Qed.

(** Without a name there is no metric: [autometrics] warns and hands back
    what it was given.  That is so for the wrapper itself, an anonymous
    function, so wrapping twice instruments once; for an explicit empty
    [functionName], which the function's own name does not replace; for an
    anonymous function without [functionName]; and for options that no
    function follows. *)
Theorem nameless_function_is_handed_back modulePath asyncLocalStorage :
  (∀ c, autometrics no_caller (ArgsFn (wrapper c)) modulePath asyncLocalStorage =
        ([Warn no_name_warning], Normal (Some (wrapper c)))) ∧
  (∀ (options : AutometricsOptions V E) f,
     opt_functionName options = Some "" →
     autometrics no_caller (ArgsOptions options (Some f)) modulePath asyncLocalStorage =
     ([Warn no_name_warning], Normal (Some f))) ∧
  (∀ (options : AutometricsOptions V E) f,
     opt_functionName options = None → fn_name f = "" →
     autometrics no_caller (ArgsOptions options (Some f)) modulePath asyncLocalStorage =
     ([Warn no_name_warning], Normal (Some f))) ∧
  (∀ options : AutometricsOptions V E,
     autometrics no_caller (ArgsOptions options None) modulePath asyncLocalStorage =
     ([Warn no_name_warning], Normal None)).
Proof.
  repeat split.
  - intros options f Hname. unfold autometrics, closure. by rewrite Hname.
  - intros options f Hname Hfn. unfold autometrics, closure. by rewrite Hname, Hfn.
Qed.

(** When the name resolves, wrapping makes exactly one observation: the
    counter is given zero, with [result = "ok"], the resolved function and
    module, the caller read at that moment and the objective labels, so the
    series exists before the first call.  Nothing is recorded on the
    histogram or the gauge. *)
Theorem wrapping_observes_zero_once (args : Args V E) modulePath asyncLocalStorage :
  (resolved args modulePath).1 ≠ "" →
  ∃ c attrs,
    autometrics no_caller args modulePath asyncLocalStorage =
      ([CounterAdd 0 attrs], Normal (Some (wrapper c))) ∧
    fnOf args = Some (fn c) ∧
    attrs !! "result" = Some (AttrString "ok") ∧
    attrs !! "function" = Some (AttrString (resolved args modulePath).1) ∧
    attrs !! "module" = Some (attr (resolved args modulePath).2) ∧
    attrs !! "caller" = Some (getALSCaller no_caller asyncLocalStorage) ∧
    dom attrs = ({[ "function"; "module"; "result"; "caller";
                    "objective_name"; "objective_percentile" ]} : gset string).
Proof.
  intros Hname.
  assert (∃ c, closure no_caller args modulePath asyncLocalStorage = Some c ∧
               functionName c = (resolved args modulePath).1 ∧
               moduleName c = (resolved args modulePath).2) as (c & Hc & Hn & Hm).
  { unfold closure, resolved in *.
    destruct args as [f|options [f|]]; simpl in *; [| |done].
    - rewrite decide_False by done. by eexists.
    - destruct (opt_functionName options) as [n|]; simpl in *;
        rewrite decide_False by done; by eexists. }
  exists c, (counterLabels c "ok").
  destruct (labels_of_closure no_caller _ _ _ _ "ok" Hc) as (L1 & L2 & L3 & L4 & _).
  destruct (counterLabels_shape no_caller _ _ _ _ "ok" Hc) as (Hdom & _).
  destruct (closure_inv no_caller _ _ _ _ Hc) as (_ & _ & _ & _ & Hfnc).
  rewrite <- Hn, <- Hm. repeat split; try done.
  unfold autometrics. by rewrite Hc.
Qed.

(** The override predicates.  When [recordErrorIf] answers true on the value
    of a call that ended well, the call is recorded once, as an error, and
    the value still reaches the caller.  When [recordSuccessIf] answers true
    on the error of a call that ended badly, the call is recorded once, as a
    success, and the error is still raised. *)
Theorem override_predicates_reclassify
    (args : Args V E) modulePath asyncLocalStorage c this params context :
  closure no_caller args modulePath asyncLocalStorage = Some c →
  let r := fn_apply (fn c) (calleeReceiver context) params (calleeContext c context) in
  let w := fn_apply (wrapper c) this params context in
  (∀ v p,
     outcome r = Returned v ∨ outcome r = Settled (Fulfilled v) →
     recordErrorIf c = Some p → p v = Normal true →
     all_events w = entryEvents c ++ all_events r ++ (onError c).1 ∧
     counterResults ((onError c).1) = [Some (AttrString "error")] ∧
     outcome w = outcome r) ∧
  (∀ error p,
     outcome r = Threw error ∨ outcome r = Settled (Rejected error) →
     recordSuccessIf c = Some p → p error = Normal true →
     all_events w = entryEvents c ++ all_events r ++ (onSuccess c).1 ∧
     counterResults ((onSuccess c).1) = [Some (AttrString "ok")] ∧
     outcome w = outcome r).
Proof.
  intros Hc r w. split.
  - intros v p Hr Hp Htrue.
    pose proof (all_events_success c this params context v Hr) as Hall.
    rewrite recordSuccess_events, Hp, Htrue in Hall.
    repeat split; [done| |apply wrapper_outcome].
    rewrite onError_events. unfold counterResults, errorTail.
    cbv [gaugeAdd emit ret]. simpl.
    destruct (labels_of_closure no_caller _ _ _ _ "error" Hc) as (-> & _).
    by destruct (concurrencyGauge c).
  - intros error p Hr Hp Htrue.
    pose proof (all_events_failure c this params context error Hr) as Hall.
    rewrite recordError_events, Hp, Htrue in Hall.
    repeat split; [done| |apply wrapper_outcome].
    rewrite onSuccess_events. unfold counterResults, successTail.
    cbv [gaugeAdd emit ret]. simpl.
    destruct (labels_of_closure no_caller _ _ _ _ "ok" Hc) as (-> & _).
    by destruct (concurrencyGauge c).
Qed.

(** A call that ends badly (it throws, or the promise it returns rejects)
    and that [recordSuccessIf] does not turn into a success: besides what
    the wrapped function itself causes, the call makes exactly one counter
    increment, labelled [result = "error"], and exactly one histogram record
    with the same [function], [module] and [caller] labels; the error
    reaches the caller. *)
Theorem failure_emits_one_error_and_one_histogram
    (args : Args V E) modulePath asyncLocalStorage c this params context error :
  closure no_caller args modulePath asyncLocalStorage = Some c →
  let r := fn_apply (fn c) (calleeReceiver context) params (calleeContext c context) in
  let w := fn_apply (wrapper c) this params context in
  outcome r = Threw error ∨ outcome r = Settled (Rejected error) →
  (∀ p, recordSuccessIf c = Some p → p error ≠ Normal true) →
  ∃ counterAttrs histogramAttrs tail,
    all_events w =
      entryEvents c ++ all_events r ++
      CounterAdd 1 counterAttrs :: HistogramRecord histogramAttrs :: tail ∧
    Forall (fun ev => isCallMetric ev = false) (entryEvents c ++ tail) ∧
    counterAttrs !! "result" = Some (AttrString "error") ∧
    counterAttrs !! "function" = Some (AttrString (functionName c)) ∧
    histogramAttrs !! "function" = counterAttrs !! "function" ∧
    histogramAttrs !! "module" = counterAttrs !! "module" ∧
    histogramAttrs !! "caller" = counterAttrs !! "caller" ∧
    outcome w = outcome r.
Proof.
  intros Hc r w Hr Hp.
  pose proof (all_events_failure c this params context error Hr) as Hall. fold r w in Hall.
  destruct (labels_of_closure no_caller _ _ _ _ "error" Hc)
    as (L1 & L2 & L3 & L4 & L5 & L6 & L7).
  destruct (tails_hold_no_call_metric c) as [_ Het].
  assert (Hentry : Forall (fun ev : Event E => isCallMetric ev = false) (entryEvents c)).
  { unfold entryEvents. cbv [gaugeAdd emit ret].
    destruct (concurrencyGauge c); by repeat constructor. }
  rewrite recordError_events, onError_events in Hall.
  destruct (recordSuccessIf c) as [p|] eqn:Hpred.
  - specialize (Hp p eq_refl).
    destruct (p error) as [[]|callbackError]; [done| |].
    + exists (counterLabels c "error"), (histogramLabels c), (errorTail c).
      rewrite L1, L2, L3, L4, L5, L6, L7. repeat split; try done.
      * by apply Forall_app.
      * apply wrapper_outcome.
    + exists (counterLabels c "error"), (histogramLabels c),
        (errorTail c ++ [Trace "Error in recordSuccessIf function: " callbackError]).
      rewrite L1, L2, L3, L4, L5, L6, L7. repeat split; try done.
      * rewrite !Forall_app. repeat split; try done. by repeat constructor.
      * apply wrapper_outcome.
  - exists (counterLabels c "error"), (histogramLabels c), (errorTail c).
    rewrite L1, L2, L3, L4, L5, L6, L7. repeat split; try done.
    + by apply Forall_app.
    + apply wrapper_outcome.
Qed.

(** A call whose promise never settles is never recorded: all the wrapper
    adds to what the wrapped function does is the gauge increment on entry,
    which nothing takes back. *)
Theorem pending_call_records_nothing c this params context later :
  let r := fn_apply (fn c) (calleeReceiver context) params (calleeContext c context) in
  let w := fn_apply (wrapper c) this params context in
  r.2 = Normal (Thenable (NeverSettles later)) →
  all_events w = entryEvents c ++ all_events r ∧
  outcome w = StaysPending ∧
  gaugeValue (entryLabels c) (all_events w) =
    (gaugeValue (entryLabels c) (all_events r) + if concurrencyGauge c then 1 else 0)%Z.
Proof.
  intros r w Hr.
  assert (Hall : all_events w = entryEvents c ++ all_events r).
  { unfold w. rewrite wrapper_unfold. fold r. unfold all_events.
    destruct r as [evs res]. simpl in *. subst res. simpl. by rewrite app_assoc. }
  split; [done|]. split.
  - unfold w. rewrite wrapper_outcome. fold r. unfold outcome. by rewrite Hr.
  - rewrite Hall, gaugeValue_app.
    destruct (concurrencyGauge c) eqn:Hgauge.
    + destruct (gaugeValue_paths c Hgauge) as (-> & _). lia.
    + unfold entryEvents. cbv [gaugeAdd ret]. rewrite Hgauge. simpl. lia.
Qed.

(** Where the caller label does name the caller: a function that is wrapped
    while an instrumented function is running, with the propagator present,
    carries that function's name on all its counter observations and
    histogram records; a function wrapped without the propagator carries the
    label for no caller on all of them. *)
Theorem wrapping_inside_a_call_reads_its_caller
    c (als : ALS.ALSInstance) (args : Args V E) modulePath c' (attrs : Attributes) :
  (closure no_caller args modulePath (calleeContext c (Some als)) = Some c' →
   attrs ∈ counterAttributes
             (emitted no_caller args modulePath (calleeContext c (Some als)) c') ++
           histogramAttributes
             (emitted no_caller args modulePath (calleeContext c (Some als)) c') →
   attrs !! "caller" = Some (AttrString (functionName c))) ∧
  (closure no_caller args modulePath None = Some c' →
   attrs ∈ counterAttributes (emitted no_caller args modulePath None c') ++
           histogramAttributes (emitted no_caller args modulePath None c') →
   attrs !! "caller" = Some no_caller).
Proof.
  split; intros Hc'.
  - destruct (emitted_attributes no_caller _ _ _ _ Hc') as [-> ->].
    pose proof (fun result => labels_of_closure no_caller _ _ _ _ result Hc') as Hlabels.
    intros [[result ->]%counter_member | ->%histogram_member]%elem_of_app.
    + by destruct (Hlabels result) as (_ & _ & _ & -> & _).
    + by destruct (Hlabels "ok") as (_ & _ & _ & _ & _ & _ & ->).
  - destruct (emitted_attributes no_caller _ _ _ _ Hc') as [-> ->].
    pose proof (fun result => labels_of_closure no_caller _ _ _ _ result Hc') as Hlabels.
    intros [[result ->]%counter_member | ->%histogram_member]%elem_of_app.
    + by destruct (Hlabels result) as (_ & _ & _ & -> & _).
    + by destruct (Hlabels "ok") as (_ & _ & _ & _ & _ & _ & ->).
Qed.

End Facts.

Section Examples.
Import Examples MoreExamples.

(** [nameless_function_is_handed_back] at an anonymous function wrapped
    with options that give no [functionName]. *)
Lemma nameless_function_is_handed_back_witness :
  let anonymous : Fn := {| fn_name := ""; fn_apply := fn_apply getUser |} in
  autometrics noCaller (ArgsOptions trackingOptions (Some anonymous)) (Some "db") topLevel =
    ([Warn no_name_warning], Normal (Some anonymous)) ∧
  autometrics noCaller (ArgsFn (wrapper (closureOf (ArgsFn getUser) None))) (Some "db")
    topLevel =
    ([Warn no_name_warning], Normal (Some (wrapper (closureOf (ArgsFn getUser) None)))).
Proof.
  destruct (nameless_function_is_handed_back (V:=Z) (E:=string) noCaller (Some "db") topLevel)
    as (Hwrapper & _ & Hanonymous & _).
  split; [apply Hanonymous; reflexivity | apply Hwrapper].
Defined.

(** [wrapping_inside_a_call_reads_its_caller] at [getUser], wrapped while
    the instrumented [A] is running. *)
Lemma wrapping_inside_a_call_reads_its_caller_witness :
  let inner := calleeContext (closureOf (ArgsFn bodyOfA) (Some "app")) topLevel in
  (∀ c', closure noCaller (ArgsFn getUser) None None = Some c' →
         counterLabels c' "ok" !! "caller" = Some noCaller) ∧
  (∀ c', closure noCaller (ArgsFn getUser) None inner = Some c' →
         counterLabels c' "ok" !! "caller" = Some (AttrString "A")).
Proof.
  split.
  - intros c' Hc'.
    apply (proj2 (wrapping_inside_a_call_reads_its_caller noCaller
      (closureOf (ArgsFn bodyOfA) (Some "app")) {| ALS.getStore := None |}
      (ArgsFn getUser) None c' _) Hc').
    apply elem_of_app. left.
    rewrite (proj1 (emitted_attributes noCaller (ArgsFn getUser) None _ _ Hc')).
    left.
  - intros c' Hc'.
    apply (proj1 (wrapping_inside_a_call_reads_its_caller noCaller
      (closureOf (ArgsFn bodyOfA) (Some "app")) {| ALS.getStore := None |}
      (ArgsFn getUser) None c' _) Hc').
    apply elem_of_app. left.
    rewrite (proj1 (emitted_attributes noCaller (ArgsFn getUser) None
      (calleeContext (closureOf (ArgsFn bodyOfA) (Some "app"))
         (Some {| ALS.getStore := None |})) _ Hc')).
    left.
Defined.

(** [wrapping_observes_zero_once] at [getUser], wrapped with the module name
    ["db"]. *)
Lemma wrapping_observes_zero_once_witness :
  ∃ c attrs,
    autometrics noCaller (ArgsOptions trackingOptions (Some getUser)) None topLevel =
      ([CounterAdd 0 attrs], Normal (Some (wrapper c))) ∧
    fnOf (ArgsOptions trackingOptions (Some getUser)) = Some (fn c) ∧
    attrs !! "result" = Some (AttrString "ok") ∧
    attrs !! "function" = Some (AttrString "getUser") ∧
    attrs !! "module" = Some (AttrString "db") ∧
    attrs !! "caller" = Some noCaller ∧
    dom attrs = ({[ "function"; "module"; "result"; "caller";
                    "objective_name"; "objective_percentile" ]} : gset string).
Proof.
  apply (wrapping_observes_zero_once noCaller
    (ArgsOptions trackingOptions (Some getUser)) None topLevel).
  simpl. discriminate.
Defined.

(** [override_predicates_reclassify] at [handler], which returns 500, and at
    [deleteUser], which throws. *)
Lemma override_predicates_reclassify_witness :
  let ok := closureOf (ArgsOptions overridingOptions (Some handler)) None in
  let ko := closureOf (ArgsOptions overridingOptions (Some deleteUser)) None in
  (all_events (fn_apply (wrapper ok) ThisUndefined [] topLevel) =
     entryEvents ok ++ all_events (fn_apply handler ThisNull [] (calleeContext ok topLevel)) ++
     (onError ok).1 ∧
   counterResults ((onError ok).1) = [Some (AttrString "error")] ∧
   outcome (fn_apply (wrapper ok) ThisUndefined [] topLevel) = Returned 500%Z) ∧
  (all_events (fn_apply (wrapper ko) ThisUndefined [] topLevel) =
     entryEvents ko ++ all_events (fn_apply deleteUser ThisNull [] (calleeContext ko topLevel)) ++
     (onSuccess ko).1 ∧
   counterResults ((onSuccess ko).1) = [Some (AttrString "ok")] ∧
   outcome (fn_apply (wrapper ko) ThisUndefined [] topLevel) = Threw "User not found").
Proof.
  split.
  - apply (proj1 (override_predicates_reclassify noCaller
      (ArgsOptions overridingOptions (Some handler)) None topLevel _ ThisUndefined [] topLevel
      eq_refl) 500%Z (fun res => Normal (bool_decide (400 ≤ res)%Z)));
      [left|..]; reflexivity.
  - apply (proj2 (override_predicates_reclassify noCaller
      (ArgsOptions overridingOptions (Some deleteUser)) None topLevel _ ThisUndefined [] topLevel
      eq_refl) "User not found" (fun _ => Normal true));
      [left|..]; reflexivity.
Defined.

(** [failure_emits_one_error_and_one_histogram] at [deleteUser], wrapped
    with [trackConcurrency]. *)
Lemma failure_emits_one_error_and_one_histogram_witness :
  let c := closureOf (ArgsOptions trackingOptions (Some deleteUser)) None in
  ∃ counterAttrs histogramAttrs tail,
    all_events (fn_apply (wrapper c) ThisUndefined [] topLevel) =
      entryEvents c ++ all_events (fn_apply deleteUser ThisNull [] (calleeContext c topLevel)) ++
      CounterAdd 1 counterAttrs :: HistogramRecord histogramAttrs :: tail ∧
    Forall (fun ev => isCallMetric ev = false) (entryEvents c ++ tail) ∧
    counterAttrs !! "result" = Some (AttrString "error") ∧
    counterAttrs !! "function" = Some (AttrString "deleteUser") ∧
    histogramAttrs !! "function" = counterAttrs !! "function" ∧
    histogramAttrs !! "module" = counterAttrs !! "module" ∧
    histogramAttrs !! "caller" = counterAttrs !! "caller" ∧
    outcome (fn_apply (wrapper c) ThisUndefined [] topLevel) = Threw "User not found".
Proof.
  apply (failure_emits_one_error_and_one_histogram noCaller
    (ArgsOptions trackingOptions (Some deleteUser)) None topLevel _ ThisUndefined [] topLevel
    "User not found" eq_refl).
  - left. reflexivity.
  - intros p Hp. discriminate Hp.
Defined.

(** [pending_call_records_nothing] at [waitForever], wrapped with
    [trackConcurrency]. *)
Lemma pending_call_records_nothing_witness :
  let c := closureOf (ArgsOptions trackingOptions (Some waitForever)) None in
  let r := fn_apply waitForever ThisNull [] (calleeContext c topLevel) in
  let w := fn_apply (wrapper c) ThisUndefined [] topLevel in
  all_events w = entryEvents c ++ all_events r ∧
  outcome w = StaysPending ∧
  gaugeValue (entryLabels c) (all_events w) =
    (gaugeValue (entryLabels c) (all_events r) + 1)%Z.
Proof.
  apply (pending_call_records_nothing
    (closureOf (ArgsOptions trackingOptions (Some waitForever)) None) ThisUndefined [] topLevel []).
  reflexivity.
Defined.

End Examples.
End WrappersMore.

(** ** Further properties of the push-gateway exporter *)
Module PushGatewayMore.
Import PushGateway PushGatewayFacts Observations.

Section Facts.
Context {ResourceMetrics : Type}.
Variable serialize : ResourceMetrics -> string.
Implicit Types (x : PushGatewayExporter).
Implicit Types (a : Action ResourceMetrics) (actions : list (Action ResourceMetrics)).

Lemma filter_absent (l : list nat) p :
  p ∉ l → filter (fun q => q ≠ p) l = l.
Proof.
  induction l as [|q l IH]; intros Hp; [done|].
  apply not_elem_of_cons in Hp as [Hne Hp].
  rewrite filter_cons_True by done. by rewrite IH.
Qed.

(** [indexOf] finds what is there, and [splice] then removes just that. *)
Lemma splice_indexOf (l : list nat) p :
  NoDup l → p ∈ l → splice (indexOf l p) l = filter (fun q => q ≠ p) l.
Proof.
  induction l as [|q l IH]; intros Hnd Hp; [by apply elem_of_nil in Hp|].
  apply NoDup_cons in Hnd as [Hq Hnd]. simpl.
  destruct (decide (q = p)) as [->|Hne]; simpl.
  - rewrite filter_cons_False by (intros H; by apply H).
    by rewrite filter_absent.
  - apply elem_of_cons in Hp as [->|Hp]; [done|].
    specialize (IH Hnd Hp). rewrite filter_cons_True by done.
    destruct (indexOf l p) as [i|] eqn:Hi; simpl in *.
    + by f_equal.
    + exfalso. clear IH Hnd Hq. induction l as [|r l IHl]; [by apply elem_of_nil in Hp|].
      simpl in Hi. destruct (decide (r = p)); [done|].
      apply elem_of_cons in Hp as [->|Hp]; [done|].
      destruct (indexOf l p); [done|]. by apply IHl.
Qed.

(** What a settling request does to the exporter, when it was pending. *)
Lemma fetchSettles_pending promise how x d :
  fetched x !! promise = Some d → state d = Pending →
  fetchSettles promise how x =
  {| _concurrencyLimit := _concurrencyLimit x;
     _sendingPromises := splice (indexOf (_sendingPromises x) promise) (_sendingPromises x);
     _shutdownOnce := _shutdownOnce x;
     fetched :=
       <[promise := {| state := match how with
                                | Responds response => Fulfilled response
                                | Fails error => Rejected error
                                end;
                       resultCallback := resultCallback d;
                       answer := answer d |}]> (fetched x);
     flushed := react (stateOf (fetchSettles promise how x)) promise how <$> flushed x;
     effects := effects x |}.
Proof. intros Hd Hp. unfold fetchSettles at 1. rewrite Hd, Hp. unfold fetchSettles, stateOf. by rewrite Hd, Hp. Qed.

(** A request that is not pending cannot settle (again). *)
Lemma fetchSettles_not_pending promise how x :
  (∀ d, fetched x !! promise = Some d → state d ≠ Pending) →
  fetchSettles promise how x = x.
Proof.
  intros Hnot. unfold fetchSettles.
  destruct (fetched x !! promise) as [d|] eqn:Hd; [|done].
  specialize (Hnot d eq_refl). by destruct (state d).
Qed.

Lemma step_keeps_inFlightExact a x : inFlightExact x → inFlightExact (step serialize a x).
Proof.
  intros [Hnd Hiff]. destruct a as [metrics callback| | |promise how|promise thrown]; simpl.
  - unfold export. destruct (isCalled (_shutdownOnce x)); [done|].
    destruct (reached _ _); [done|]. unfold inFlightExact, _export. simpl. split.
    + apply NoDup_app. split; [done|]. split; [|apply NoDup_singleton].
      intros p Hp ->%list_elem_of_singleton.
      apply Hiff in Hp as (d & Hd & _). apply lookup_lt_Some in Hd. lia.
    + intros p. rewrite elem_of_app, list_elem_of_singleton, Hiff. split.
      * intros [(d & Hd & Hpend)| ->].
        -- exists d. split; [|done]. by apply lookup_app_l_Some.
        -- eexists. split; [by rewrite lookup_app_r, Nat.sub_diag by lia|done].
      * intros (d & Hd & Hpend).
        apply lookup_app_Some in Hd as [Hd|[Hge Hd]]; [left; by exists d|right].
        destruct (p - length (fetched x)) as [|k] eqn:Hk; [lia|]. done.
  - done.
  - unfold shutdown. by destruct (isCalled (_shutdownOnce x)).
  - destruct (fetched x !! promise) as [d|] eqn:Hd.
    2:{ rewrite fetchSettles_not_pending; [done|]. intros d. by rewrite Hd. }
    destruct (state d) as [|response|error] eqn:Hpend.
    2,3:rewrite fetchSettles_not_pending; [done|intros d'; rewrite Hd; intros [= <-]; congruence].
    rewrite (fetchSettles_pending promise how x d Hd Hpend).
    assert (Hin : promise ∈ _sendingPromises x) by (apply Hiff; by exists d).
    unfold inFlightExact. simpl. rewrite splice_indexOf by done. split.
    + by apply NoDup_filter.
    + intros p. rewrite list_elem_of_filter, Hiff. split.
      * intros [Hne (d' & Hd' & Hpend')]. exists d'. by rewrite list_lookup_insert_ne.
      * intros (d' & Hd' & Hpend').
        destruct (decide (promise = p)) as [->|Hne].
        -- rewrite list_lookup_insert_eq in Hd' by (by eapply lookup_lt_Some).
           injection Hd' as <-. simpl in Hpend'. by destruct how.
        -- rewrite list_lookup_insert_ne in Hd' by done. split; [done|]. by exists d'.
  - unfold inFlightExact. rewrite handlerRuns_keeps_sending. split; [done|].
    intros p. rewrite Hiff. split.
    + intros (d & Hd & Hpend).
      destruct (handlerRuns_keeps_delivery promise thrown x p d Hd) as (d' & Hd' & Hs & _).
      exists d'. split; [done|]. congruence.
    + intros (d' & Hd' & Hpend).
      destruct (fetched x !! p) as [d|] eqn:Hd.
      * destruct (handlerRuns_keeps_delivery promise thrown x p d Hd) as (d'' & Hd'' & Hs & _).
        exists d. split; [done|]. congruence.
      * apply lookup_ge_None in Hd. apply lookup_lt_Some in Hd'.
        rewrite handlerRuns_keeps_length in Hd'. lia.
Qed.

(** In every state an exporter can reach, the in-flight set holds exactly
    the requests that were started and have not settled, each once: a
    request enters it when [export] starts it and leaves it when it settles,
    whatever the outcome, and [indexOf] never misses, so [splice] never
    removes another request's promise. *)
Theorem in_flight_set_is_the_pending_requests (concurrencyLimit : option nat) actions :
  let x := run serialize actions (constructor concurrencyLimit) in
  NoDup (_sendingPromises x) ∧
  (∀ p, p ∈ _sendingPromises x ↔ p < length (fetched x) ∧ stateOf x p = Pending) ∧
  (∀ p, p ∈ _sendingPromises x → ∃ i, indexOf (_sendingPromises x) p = Some i).
Proof.
  intros x.
  assert (Hexact : inFlightExact x).
  { apply run_invariant; [apply step_keeps_inFlightExact|]. split; [constructor|].
    intros p. simpl. split; [by intros ?%elem_of_nil|by intros (d & Hd & _)]. }
  destruct Hexact as [Hnd Hiff]. repeat split; [done| | | |].
  - apply Hiff in H as (d & Hd & _). by eapply lookup_lt_Some.
  - apply Hiff in H as (d & Hd & Hpend). unfold stateOf. by rewrite Hd.
  - intros [Hlt Hpend]. apply Hiff. unfold stateOf in Hpend.
    destruct (fetched x !! p) as [d|] eqn:Hd; [by exists d|].
    apply lookup_ge_None in Hd. lia.
  - intros p Hp. clear Hiff Hnd. induction (_sendingPromises x) as [|q l IH];
      [by apply elem_of_nil in Hp|].
    simpl. destruct (decide (q = p)); [by exists 0|].
    apply elem_of_cons in Hp as [->|Hp]; [done|].
    destruct (IH Hp) as [i ->]. by exists (S i).
Qed.

Lemma length_filter_removed (l : list nat) p :
  NoDup l → p ∈ l → S (length (filter (fun q => q ≠ p) l)) = length l.
Proof.
  induction l as [|q l IH]; intros Hnd Hp; [by apply elem_of_nil in Hp|].
  apply NoDup_cons in Hnd as [Hq Hnd].
  destruct (decide (q = p)) as [->|Hne].
  - rewrite filter_cons_False by (intros H; by apply H). by rewrite filter_absent.
  - apply elem_of_cons in Hp as [->|Hp]; [done|].
    rewrite filter_cons_True by done. simpl. by rewrite IH.
Qed.

(** *** Every export and its callback *)

Lemma count_snoc {A} (f : A → bool) (l : list A) (d : A) :
  length (filter (fun d => f d) (l ++ [d])) =
  length (filter (fun d => f d) l) + (if f d then 1 else 0).
Proof.
  rewrite filter_app, length_app. f_equal.
  rewrite filter_cons, filter_nil. by destruct (f d).
Qed.

(** Replacing one element changes a count by what the two count for. *)
Lemma count_insert {A} (f : A → bool) (l : list A) i (d d' : A) :
  l !! i = Some d →
  length (filter (fun d => f d) (<[i := d']> l)) + (if f d then 1 else 0) =
  length (filter (fun d => f d) l) + (if f d' then 1 else 0).
Proof.
  revert i. induction l as [|d0 l IH]; intros [|i] Hi; simplify_eq/=.
  - rewrite !filter_cons. destruct (f d), (f d'); simpl; lia.
  - rewrite !filter_cons. specialize (IH i Hi). destruct (f d0); simpl; lia.
Qed.

(** What a handler's turn does, when it does something: one call of the
    callback of its request, which moves the answer one stage on. *)
Lemma handlerRuns_cases promise thrown x :
  handlerRuns promise thrown x = x ∨
  ∃ d result next rest,
    fetched x !! promise = Some d ∧
    fetched (handlerRuns promise thrown x) =
      <[promise := {| state := state d;
                      resultCallback := resultCallback d;
                      answer := next |}]> (fetched x) ∧
    effects (handlerRuns promise thrown x) =
      effects x ++ ResultCallback (resultCallback d) result :: rest ∧
    (rest = [] ∨ ∃ error, rest = [UnhandledRejection error]) ∧
    ((answer d = Unanswered ∧ state d ≠ Pending ∧ next = Answered false) ∨
     (∃ error, answer d = Unanswered ∧ state d ≠ Pending ∧
               next = Retrying error ∧ thrown = Some error) ∨
     (∃ error, answer d = Retrying error ∧ next = Answered true)).
Proof.
  unfold handlerRuns, unhandled.
  destruct (fetched x !! promise) as [[s callback stage]|] eqn:Hd; [|by left]. cbn.
  destruct stage as [|error|twice]; [| |by left].
  - destruct s as [|response|error]; [by left| |].
    + destruct (ok response), thrown as [thrown|]; right;
        eexists (Build_Delivery _ _ _), _, _, _; cbn;
        (split; [done|]); (split; [done|]); (split; [done|]); eauto 10.
    + destruct thrown as [thrown|]; right;
        eexists (Build_Delivery _ _ _), _, _, _; cbn;
        (split; [done|]); (split; [done|]); (split; [done|]); eauto 10.
  - destruct thrown as [thrown|]; right;
      eexists (Build_Delivery _ _ _), _, _, _; cbn;
      (split; [done|]); (split; [done|]); (split; [done|]); eauto 10.
Qed.

Lemma callsOf_added callback (l rest : list Effect) resultCallback result :
  rest = [] ∨ (∃ error, rest = [UnhandledRejection error]) →
  length (filter (fun e => isCallOf callback e)
            (l ++ ResultCallback resultCallback result :: rest)) =
  length (filter (fun e => isCallOf callback e) l) +
  (if bool_decide (resultCallback = callback) then 1 else 0).
Proof.
  intros Hrest. rewrite filter_app, length_app. f_equal.
  rewrite filter_cons. cbn [isCallOf].
  assert (filter (fun e => isCallOf callback e) rest = []) as ->.
  { by destruct Hrest as [->|[error ->]]. }
  by case_bool_decide.
Qed.

(** The books of one callback over one step. *)
Lemma step_accounts callback a x :
  callsOf callback (step serialize a x) + unanswered callback (step serialize a x) +
    answeredTwice callback x =
  callsOf callback x + unanswered callback x +
    answeredTwice callback (step serialize a x) + exportsWith callback [a].
Proof.
  unfold callsOf, unanswered, answeredTwice.
  destruct a as [metrics resultCallback| | |promise how|promise thrown]; simpl.
  - unfold export. destruct (isCalled (_shutdownOnce x)); simpl.
    { rewrite count_snoc. cbn [isCallOf]. lia. }
    destruct (reached _ _); simpl.
    { rewrite count_snoc. cbn [isCallOf]. lia. }
    rewrite !count_snoc. unfold isUnanswered, isAnsweredTwice. simpl.
    rewrite andb_true_r, andb_false_r. lia.
  - lia.
  - unfold shutdown. destruct (isCalled (_shutdownOnce x)); simpl; [lia|].
    rewrite count_snoc. simpl. lia.
  - unfold fetchSettles.
    destruct (fetched x !! promise) as [d|] eqn:Hd; [|lia].
    destruct (state d); [|lia..]. simpl.
    set (d' := {| state := _; resultCallback := _; answer := _ |}).
    pose proof (count_insert (isUnanswered callback) (fetched x) promise d d' Hd) as HU.
    pose proof (count_insert (isAnsweredTwice callback) (fetched x) promise d d' Hd) as HT.
    assert (isUnanswered callback d' = isUnanswered callback d) as Heq1 by done.
    assert (isAnsweredTwice callback d' = isAnsweredTwice callback d) as Heq2 by done.
    rewrite Heq1 in HU. rewrite Heq2 in HT. lia.
  - destruct (handlerRuns_cases promise thrown x)
      as [->|(d & result & next & rest & Hd & -> & -> & Hrest & Hstage)]; [lia|].
    rewrite (callsOf_added callback _ _ _ _ Hrest).
    set (d' := {| state := _; resultCallback := _; answer := _ |}).
    pose proof (count_insert (isUnanswered callback) (fetched x) promise d d' Hd) as HU.
    pose proof (count_insert (isAnsweredTwice callback) (fetched x) promise d d' Hd) as HT.
    assert (HUd : isUnanswered callback d =
      bool_decide (PushGateway.resultCallback d = callback) &&
      match answer d with Unanswered => true | _ => false end) by done.
    assert (HUd' : isUnanswered callback d' =
      bool_decide (PushGateway.resultCallback d = callback) &&
      match next with Unanswered => true | _ => false end) by done.
    assert (HTd : isAnsweredTwice callback d =
      bool_decide (PushGateway.resultCallback d = callback) &&
      match answer d with Answered true => true | _ => false end) by done.
    assert (HTd' : isAnsweredTwice callback d' =
      bool_decide (PushGateway.resultCallback d = callback) &&
      match next with Answered true => true | _ => false end) by done.
    rewrite HUd, HUd' in HU. rewrite HTd, HTd' in HT. clear HUd HUd' HTd HTd'.
    destruct Hstage as [(Ha & _ & ->)|[(error & Ha & _ & -> & _)|(error & Ha & ->)]];
      rewrite Ha in HU, HT; case_bool_decide; simpl in *; lia.
Qed.

Lemma run_accounts callback actions x :
  callsOf callback (run serialize actions x) + unanswered callback (run serialize actions x) +
    answeredTwice callback x =
  callsOf callback x + unanswered callback x +
    answeredTwice callback (run serialize actions x) + exportsWith callback actions.
Proof.
  revert x. induction actions as [|a actions IH]; intros x; simpl; [lia|].
  specialize (IH (step serialize a x)).
  pose proof (step_accounts callback a x) as Hstep. simpl in Hstep.
  destruct a; simpl in *; lia.
Qed.

(** A callback is called a second time only after it has thrown. *)
Lemma step_retried a x :
  retried (step serialize a x) ≤ retried x + throwingTurns [a].
Proof.
  unfold retried.
  destruct a as [metrics resultCallback| | |promise how|promise thrown]; simpl.
  - unfold export. destruct (isCalled (_shutdownOnce x)); simpl; [lia|].
    destruct (reached _ _); simpl; [lia|].
    rewrite count_snoc. simpl. lia.
  - lia.
  - unfold shutdown. destruct (isCalled (_shutdownOnce x)); simpl; lia.
  - unfold fetchSettles.
    destruct (fetched x !! promise) as [d|] eqn:Hd; [|lia].
    destruct (state d); [|lia..]. simpl.
    set (d' := {| state := _; resultCallback := _; answer := _ |}).
    pose proof (count_insert isRetried (fetched x) promise d d' Hd) as HR.
    assert (isRetried d' = isRetried d) as Heq by done.
    rewrite Heq in HR. lia.
  - destruct (handlerRuns_cases promise thrown x)
      as [->|(d & result & next & rest & Hd & -> & _ & _ & Hstage)];
      [destruct thrown; lia|].
    set (d' := {| state := _; resultCallback := _; answer := _ |}).
    pose proof (count_insert isRetried (fetched x) promise d d' Hd) as HR.
    assert (HRd : isRetried d =
      match answer d with Retrying _ | Answered true => true | _ => false end) by done.
    assert (HRd' : isRetried d' =
      match next with Retrying _ | Answered true => true | _ => false end) by done.
    rewrite HRd, HRd' in HR. clear HRd HRd'.
    destruct Hstage as [(Ha & _ & ->)|[(error & Ha & _ & -> & ->)|(error & Ha & ->)]];
      rewrite Ha in HR; simpl in *; try destruct thrown; lia.
Qed.

Lemma run_retried actions x :
  retried (run serialize actions x) ≤ retried x + throwingTurns actions.
Proof.
  revert x. induction actions as [|a actions IH]; intros x; simpl; [lia|].
  specialize (IH (step serialize a x)).
  pose proof (step_retried a x) as Hstep. simpl in Hstep.
  destruct a as [| | | |promise [thrown|]]; simpl in *; lia.
Qed.

Lemma answeredTwice_retried callback x : answeredTwice callback x ≤ retried x.
Proof.
  unfold answeredTwice, retried.
  induction (fetched x) as [|d l IH]; [done|].
  rewrite !filter_cons.
  assert (Himp : isAnsweredTwice callback d = true → isRetried d = true).
  { unfold isAnsweredTwice, isRetried.
    destruct (answer d) as [| |[]]; by rewrite ?andb_false_r. }
  destruct (isAnsweredTwice callback d), (isRetried d); simpl; [lia| |lia..].
  by specialize (Himp eq_refl).
Qed.

Lemma step_keeps_pendingUnanswered a x :
  pendingUnanswered x → pendingUnanswered (step serialize a x).
Proof.
  intros Hx. destruct a as [metrics resultCallback| | |promise how|promise thrown]; simpl.
  - unfold export. destruct (isCalled (_shutdownOnce x)); [done|].
    destruct (reached _ _); [done|].
    intros p d. simpl. intros [Hd|[_ Hd]]%lookup_app_Some; [by eapply Hx|].
    destruct (p - length (fetched x)) as [|k]; [|done]. by injection Hd as <-.
  - done.
  - unfold shutdown. by destruct (isCalled (_shutdownOnce x)).
  - unfold fetchSettles.
    destruct (fetched x !! promise) as [d|] eqn:Hd; [|done].
    destruct (state d) eqn:Hs; [|done..].
    intros p d'. simpl. destruct (decide (p = promise)) as [->|Hne].
    + rewrite list_lookup_insert_eq by (by eapply lookup_lt_Some).
      intros [= <-] _. simpl. by eapply Hx.
    + rewrite list_lookup_insert_ne by done. apply Hx.
  - destruct (handlerRuns_cases promise thrown x)
      as [->|(d & result & next & rest & Hd & Hfetched & _ & _ & Hstage)]; [done|].
    intros p d'. rewrite Hfetched. destruct (decide (p = promise)) as [->|Hne].
    + rewrite list_lookup_insert_eq by (by eapply lookup_lt_Some).
      intros [= <-]. simpl. intros Hpending.
      destruct Hstage as [(_ & Hs & _)|[(error & _ & Hs & _)|(error & Ha & _)]];
        [done..|].
      rewrite (Hx _ _ Hd Hpending) in Ha. done.
    + rewrite list_lookup_insert_ne by done. apply Hx.
Qed.

(** The books of every callback balance.  At any moment of a run, the calls
    of a callback so far, and the requests started with it that have not
    been answered (in flight, or settled with the handlers of [export] still
    to take their turn), are together as many as the exports made with it
    and the second calls made of it.  The callback of a request is called a
    second time only if it threw: there are no more second calls than turns
    in which a callback threw, and none in a run in which none throws.  And
    every request in flight is unanswered. *)
Theorem callback_calls_balance_exports (concurrencyLimit : option nat) actions callback :
  let x := run serialize actions (constructor concurrencyLimit) in
  callsOf callback x + unanswered callback x =
    exportsWith callback actions + answeredTwice callback x ∧
  answeredTwice callback x ≤ throwingTurns actions ∧
  (throwingTurns actions = 0 →
   callsOf callback x + unanswered callback x = exportsWith callback actions) ∧
  (∀ p, p ∈ _sendingPromises x → ∃ d, fetched x !! p = Some d ∧ answer d = Unanswered).
Proof.
  intros x.
  pose proof (run_accounts callback actions (constructor concurrencyLimit)) as Hbooks.
  pose proof (run_retried actions (constructor concurrencyLimit)) as Hretried.
  fold x in Hbooks, Hretried.
  assert (Hfresh : callsOf callback (constructor concurrencyLimit) = 0 ∧
                   unanswered callback (constructor concurrencyLimit) = 0 ∧
                   answeredTwice callback (constructor concurrencyLimit) = 0 ∧
                   retried (constructor concurrencyLimit) = 0) by done.
  destruct Hfresh as (Hcalls & Hunanswered & Htwice0 & Hretried0).
  rewrite Hcalls, Hunanswered, Htwice0 in Hbooks. rewrite Hretried0 in Hretried.
  pose proof (answeredTwice_retried callback x) as Htwice.
  repeat split; [lia..|].
  intros p Hp.
  assert (Hexact : inFlightExact x).
  { apply run_invariant; [apply step_keeps_inFlightExact|]. split; [constructor|].
    intros q. simpl. split; [by intros ?%elem_of_nil|by intros (d & Hd & _)]. }
  assert (Hpending : pendingUnanswered x).
  { apply run_invariant; [apply step_keeps_pendingUnanswered|]. by intros q d. }
  destruct (proj1 (proj2 Hexact p) Hp) as (d & Hd & Hs).
  exists d. split; [done|]. by eapply Hpending.
Qed.

(** *** One request, from [export] to its callback *)

(** What [export] does when it starts a request. *)
Lemma export_starts metrics callback x :
  isCalled (_shutdownOnce x) = false →
  reached (length (_sendingPromises x)) (_concurrencyLimit x) = false →
  fetched (export serialize metrics callback x) =
    fetched x ++ [{| state := Pending; resultCallback := callback; answer := Unanswered |}] ∧
  effects (export serialize metrics callback x) =
    effects x ++ [Serialize (serialize metrics);
                  Fetch (length (fetched x)) (serialize metrics)] ∧
  _sendingPromises (export serialize metrics callback x) =
    _sendingPromises x ++ [length (fetched x)].
Proof.
  intros Hflag Hfree. unfold export. rewrite Hflag, Hfree. simpl.
  by rewrite <- app_assoc.
Qed.

(** A request keeps its callback. *)
Lemma step_keeps_callback a x p d :
  fetched x !! p = Some d →
  ∃ d', fetched (step serialize a x) !! p = Some d' ∧
        resultCallback d' = resultCallback d.
Proof.
  intros Hd. destruct a as [metrics callback| | |promise how|promise thrown]; simpl.
  - exists d. split; [|done]. unfold export.
    destruct (isCalled (_shutdownOnce x)); [done|].
    destruct (reached _ _); [done|]. simpl. by apply lookup_app_l_Some.
  - by exists d.
  - exists d. split; [|done]. unfold shutdown.
    by destruct (isCalled (_shutdownOnce x)).
  - unfold fetchSettles.
    destruct (fetched x !! promise) as [d0|] eqn:Hd0; [|by exists d].
    destruct (state d0); [|by exists d..]. simpl.
    destruct (decide (p = promise)) as [->|Hne].
    + rewrite list_lookup_insert_eq by (by eapply lookup_lt_Some).
      eexists. split; [done|]. simpl. congruence.
    + rewrite list_lookup_insert_ne by done. by exists d.
  - destruct (handlerRuns_keeps_delivery promise thrown x p d Hd) as (d' & Hd' & _ & Hcb & _).
    by exists d'.
Qed.

Lemma run_keeps_callback actions x p d :
  fetched x !! p = Some d →
  ∃ d', fetched (run serialize actions x) !! p = Some d' ∧
        resultCallback d' = resultCallback d.
Proof.
  revert x d. induction actions as [|a actions IH]; intros x d Hd; simpl.
  - by exists d.
  - destruct (step_keeps_callback a x p d Hd) as (d1 & Hd1 & Hcb1).
    destruct (IH _ _ Hd1) as (d2 & Hd2 & Hcb2).
    exists d2. split; [done|]. congruence.
Qed.

(** A request that has settled is as it is until a handler takes its turn
    for it, and for good once its handlers are done. *)
Lemma step_keeps_settled a x p d :
  fetched x !! p = Some d → state d ≠ Pending →
  handlerTurns p [a] = 0 ∨ (∃ twice, answer d = Answered twice) →
  fetched (step serialize a x) !! p = Some d.
Proof.
  intros Hd Hsettled Hturn.
  destruct a as [metrics callback| | |promise how|promise thrown]; simpl.
  - unfold export.
    destruct (isCalled (_shutdownOnce x)); [done|].
    destruct (reached _ _); [done|]. simpl. by apply lookup_app_l_Some.
  - done.
  - unfold shutdown. by destruct (isCalled (_shutdownOnce x)).
  - unfold fetchSettles.
    destruct (fetched x !! promise) as [d0|] eqn:Hd0; [|done].
    destruct (state d0) eqn:Hs0; [|done..]. simpl.
    rewrite list_lookup_insert_ne; [done|]. intros ->. congruence.
  - destruct (decide (p = promise)) as [->|Hne].
    + destruct Hturn as [Hturn|[twice Ha]].
      * simpl in Hturn. rewrite bool_decide_true in Hturn by done. lia.
      * unfold handlerRuns. by rewrite Hd, Ha.
    + destruct (handlerRuns_keeps_delivery promise thrown x p d Hd) as (d' & Hd' & _ & _ & Hsame).
      by rewrite (Hsame Hne) in Hd'.
Qed.

Lemma run_keeps_settled actions x p d :
  fetched x !! p = Some d → state d ≠ Pending →
  handlerTurns p actions = 0 ∨ (∃ twice, answer d = Answered twice) →
  fetched (run serialize actions x) !! p = Some d.
Proof.
  revert x. induction actions as [|a actions IH]; intros x Hd Hsettled Hturn; simpl; [done|].
  apply IH; [|done|].
  - apply step_keeps_settled; [done..|].
    destruct Hturn as [Hturn|Hdone]; [left|by right].
    destruct a as [| | | |promise thrown]; simpl in *; try done.
    case_bool_decide; simpl in *; lia.
  - destruct Hturn as [Hturn|Hdone]; [left|by right].
    destruct a as [| | | |promise thrown]; simpl in *; try done.
    case_bool_decide; simpl in *; lia.
Qed.

(** A handler's turn for a request that is done does nothing. *)
Lemma handlerRuns_done promise thrown x d twice :
  fetched x !! promise = Some d → answer d = Answered twice →
  handlerRuns promise thrown x = x.
Proof. intros Hd Ha. unfold handlerRuns. by rewrite Hd, Ha. Qed.

(** One request from [export] to its callback.  [export] starts it while
    the exporter is neither shut down nor at its limit; anything may happen
    while it is in flight.  When it settles it leaves the in-flight set, it
    and no other, no callback is called yet, and an [export] before any
    shutdown starts a new request.  Whatever happens next, the first turn
    of a handler for it calls the callback that [export] was given, with
    success exactly for a response that is [ok], with the status text for
    any other response and with the error of a transport failure; what the
    callback throws on a failure is handled by nothing.  If the callback
    throws on the success, the next turn calls it again with a failure that
    carries what it threw.  After that, and after a first call that did not
    throw on a success, no turn calls it again. *)
Theorem request_is_answered_through_its_own_callback
    (concurrencyLimit : option nat) before metrics callback between how later thrown :
  let x0 := run serialize before (constructor concurrencyLimit) in
  let p := length (fetched x0) in
  let x1 := run serialize between (export serialize metrics callback x0) in
  let x2 := fetchSettles p how x1 in
  let x3 := run serialize later x2 in
  let x4 := handlerRuns p thrown x3 in
  isCalled (_shutdownOnce x0) = false →
  reached (length (_sendingPromises x0)) (_concurrencyLimit x0) = false →
  stateOf x1 p = Pending →
  handlerTurns p later = 0 →
  (p ∈ _sendingPromises x1 ∧
   _sendingPromises x2 = filter (fun q => q ≠ p) (_sendingPromises x1) ∧
   effects x2 = effects x1 ∧
   (isCalled (_shutdownOnce x1) = false →
    ∀ metrics' callback',
      effects (export serialize metrics' callback' x2) =
      effects x2 ++ [Serialize (serialize metrics');
                     Fetch (length (fetched x2)) (serialize metrics')])) ∧
  (exportResult how = SUCCESS ↔ ∃ response, how = Responds response ∧ ok response = true) ∧
  effects x4 =
    effects x3 ++
    ResultCallback callback (exportResult how) ::
    match exportResult how with
    | SUCCESS => []
    | FAILED _ => unhandled thrown
    end ∧
  (∀ error later' thrown',
     exportResult how = SUCCESS → thrown = Some error → handlerTurns p later' = 0 →
     let x5 := run serialize later' x4 in
     let x6 := handlerRuns p thrown' x5 in
     effects x6 = effects x5 ++ ResultCallback callback (FAILED error) :: unhandled thrown' ∧
     ∀ later'' thrown'',
       handlerRuns p thrown'' (run serialize later'' x6) = run serialize later'' x6) ∧
  (exportResult how ≠ SUCCESS ∨ thrown = None →
   ∀ later' thrown',
     handlerRuns p thrown' (run serialize later' x4) = run serialize later' x4).
Proof.
  intros x0 p x1 x2 x3 x4 Hflag Hfree Hpending Hturns.
  destruct (export_starts metrics callback x0 Hflag Hfree) as (Hfetched & _ & _).
  assert (Hreach : x1 = run serialize (before ++ Export metrics callback :: between)
                          (constructor concurrencyLimit)).
  { unfold x1, x0. by rewrite run_app. }
  assert (Hexact : inFlightExact x1).
  { rewrite Hreach. apply run_invariant; [apply step_keeps_inFlightExact|].
    split; [constructor|]. intros q. simpl.
    split; [by intros ?%elem_of_nil|by intros (d & Hd & _)]. }
  assert (Hunanswered : pendingUnanswered x1).
  { rewrite Hreach. apply run_invariant; [apply step_keeps_pendingUnanswered|].
    by intros q d. }
  assert (Hlimit : withinLimit x1).
  { rewrite Hreach. apply run_invariant; [apply step_keeps_within_limit|].
    unfold withinLimit. simpl. destruct concurrencyLimit; simpl; lia. }
  (* the record of the request when it settles *)
  assert (Hstarted : fetched (export serialize metrics callback x0) !! p =
    Some {| state := Pending; resultCallback := callback; answer := Unanswered |}).
  { rewrite Hfetched. unfold p. by rewrite lookup_app_r, Nat.sub_diag by lia. }
  destruct (run_keeps_callback between _ _ _ Hstarted) as (d1 & Hd1 & Hcallback).
  fold x1 in Hd1. simpl in Hcallback.
  assert (Hs1 : state d1 = Pending).
  { unfold stateOf in Hpending. by rewrite Hd1 in Hpending. }
  assert (Ha1 : answer d1 = Unanswered) by (by eapply Hunanswered).
  assert (Hin : p ∈ _sendingPromises x1) by (apply (proj2 Hexact); by exists d1).
  pose proof (fetchSettles_pending p how x1 d1 Hd1 Hs1) as Hx2. fold x2 in Hx2.
  rewrite Hcallback, Ha1 in Hx2.
  set (d2 := {| state := match how with
                         | Responds response => Fulfilled response
                         | Fails error => Rejected error
                         end;
                resultCallback := callback;
                answer := Unanswered |}) in *.
  assert (Hd2 : fetched x2 !! p = Some d2).
  { rewrite Hx2. simpl. rewrite list_lookup_insert_eq; [done|]. by eapply lookup_lt_Some. }
  assert (Hs2 : state d2 ≠ Pending) by (unfold d2; by destruct how).
  assert (Hd3 : fetched x3 !! p = Some d2).
  { apply run_keeps_settled; [done..|by left]. }
  assert (Hsending : _sendingPromises x2 = filter (fun q => q ≠ p) (_sendingPromises x1)).
  { rewrite Hx2. simpl. apply splice_indexOf; [apply Hexact|done]. }
  split; [|split; [|split; [|split]]].
  - repeat split; [done..|by rewrite Hx2|].
    intros Hflag1 metrics' callback'.
    assert (Hflag2 : isCalled (_shutdownOnce x2) = false) by (by rewrite Hx2).
    assert (Hfree2 : reached (length (_sendingPromises x2)) (_concurrencyLimit x2) = false).
    { rewrite Hsending. replace (_concurrencyLimit x2) with (_concurrencyLimit x1)
        by (by rewrite Hx2).
      unfold withinLimit in Hlimit. unfold reached.
      destruct (_concurrencyLimit x1) as [n|]; [|done].
      pose proof (length_filter_removed _ _ (proj1 Hexact) Hin).
      apply bool_decide_eq_false. lia. }
    by destruct (export_starts metrics' callback' x2 Hflag2 Hfree2) as (_ & -> & _).
  - split.
    + destruct how as [[[] text]|error]; simpl; [eauto|done..].
    + by intros ([[] text] & -> & Hok).
  - unfold x4, handlerRuns, unhandled. rewrite Hd3. unfold d2. simpl.
    destruct how as [[[] text]|error]; simpl; by destruct thrown.
  - intros error later' thrown' Hok -> Hturns' x5 x6.
    assert (Hd4 : fetched x4 !! p =
      Some {| state := state d2; resultCallback := callback; answer := Retrying error |}).
    { unfold x4, handlerRuns. rewrite Hd3. unfold d2 in *.
      destruct how as [[[] text]|error0]; simpl in *; try done.
      rewrite list_lookup_insert_eq; [done|]. by eapply lookup_lt_Some. }
    assert (Hd5 : fetched x5 !! p =
      Some {| state := state d2; resultCallback := callback; answer := Retrying error |}).
    { apply run_keeps_settled; [done..|by left]. }
    assert (Hd6 : fetched x6 !! p =
      Some {| state := state d2; resultCallback := callback; answer := Answered true |}).
    { unfold x6, handlerRuns. rewrite Hd5. simpl.
      rewrite list_lookup_insert_eq; [done|]. by eapply lookup_lt_Some. }
    split.
    + unfold x6, handlerRuns. by rewrite Hd5.
    + intros later'' thrown''.
      eapply handlerRuns_done;
        [apply run_keeps_settled; [exact Hd6|done|right; by eexists]|done].
  - intros Hdone later' thrown'.
    assert (Hd4 : fetched x4 !! p =
      Some {| state := state d2; resultCallback := callback; answer := Answered false |}).
    { unfold x4, handlerRuns. rewrite Hd3. unfold d2 in *.
      assert (Hlt : p < length (fetched x3)) by (by eapply lookup_lt_Some).
      destruct how as [[[] text]|error0]; simpl in *;
        try (by rewrite list_lookup_insert_eq).
      destruct Hdone as [Hne| ->]; [done|]. simpl. by rewrite list_lookup_insert_eq. }
    eapply handlerRuns_done;
      [apply run_keeps_settled; [exact Hd4|done|right; by eexists]|done].
Qed.

(** What a flush at a given place says, read off [flushSound]. *)
Lemma flush_at_is_sound (concurrencyLimit : option nat) actions i flush :
  let x := run serialize actions (constructor concurrencyLimit) in
  flushed x !! i = Some flush → flushSound x flush.
Proof.
  intros x Hflush.
  assert (Hsound : flushesSound x).
  { apply run_invariant; [apply step_keeps_flushes_sound|]. constructor. }
  unfold flushesSound in Hsound. rewrite Forall_lookup in Hsound. by eapply Hsound.
Qed.

(** With nothing in flight, the promise of [forceFlush] is fulfilled at once
    and stays so, whatever is exported afterwards. *)
Theorem flush_of_nothing_is_fulfilled (concurrencyLimit : option nat) before after :
  let called := run serialize before (constructor concurrencyLimit) in
  let x := run serialize after (forceFlush called).1 in
  _sendingPromises called = [] →
  settlement x (forceFlush called).2 = Fulfilled tt.
Proof.
  intros called x Hnone.
  assert (Hnew : flushed (forceFlush called).1 !! length (flushed called) =
    Some {| inputs := _sendingPromises called;
            outcome := promise_all (stateOf called <$> _sendingPromises called) |}).
  { simpl. by rewrite lookup_app_r, Nat.sub_diag by lia. }
  destruct (run_keeps_inputs serialize after _ _ _ Hnew) as (flush & Hflush & Hinputs).
  fold x in Hflush. simpl in Hinputs. rewrite Hnone in Hinputs.
  assert (Hx : x = run serialize (before ++ ForceFlush :: after) (constructor concurrencyLimit)).
  { by rewrite run_app. }
  rewrite Hx in Hflush.
  pose proof (flush_at_is_sound concurrencyLimit _ _ _ Hflush) as Hsound.
  rewrite <- Hx in Hflush, Hsound.
  unfold settlement. simpl. rewrite Hflush.
  unfold flushSound in Hsound. rewrite Hinputs in Hsound.
  destruct (outcome flush) as [|[]|error]; [|done|].
  - destruct Hsound as [(p & Hp & _) _]. by apply elem_of_nil in Hp.
  - destruct Hsound as (p & Hp & _). by apply elem_of_nil in Hp.
Qed.

Lemma step_keeps_once_when_called a x :
  isCalled (_shutdownOnce x) = true →
  _shutdownOnce (step serialize a x) = _shutdownOnce x.
Proof.
  intros Hc. destruct a as [metrics callback| | |promise how|promise thrown]; simpl.
  - apply export_keeps_once.
  - done.
  - unfold shutdown. by rewrite Hc.
  - apply fetchSettles_keeps_once.
  - apply handlerRuns_keeps_once.
Qed.

Lemma run_keeps_once_when_called actions x :
  isCalled (_shutdownOnce x) = true →
  _shutdownOnce (run serialize actions x) = _shutdownOnce x.
Proof.
  revert x. induction actions as [|a actions IH]; intros x Hc; simpl; [done|].
  rewrite IH by (by rewrite step_keeps_once_when_called).
  by apply step_keeps_once_when_called.
Qed.

(** The promise that [shutdown] returns settles like a flush called at the
    first [shutdown]: fulfilled, every request in flight at that call has
    been answered; rejected, one of them failed in transport, with that
    error; pending, none has failed and one is still in flight. *)
Theorem shutdown_promise_waits_like_a_flush (concurrencyLimit : option nat) before after :
  let called := run serialize before (constructor concurrencyLimit) in
  let x := run serialize (before ++ Shutdown :: after) (constructor concurrencyLimit) in
  shutdownCalls before = 0 →
  match settlement x ShutdownPromise with
  | Fulfilled _ =>
      ∀ p, p ∈ _sendingPromises called → ∃ response, stateOf x p = Fulfilled response
  | Rejected error =>
      ∃ p, p ∈ _sendingPromises called ∧ stateOf x p = Rejected error
  | Pending =>
      (∃ p, p ∈ _sendingPromises called ∧ stateOf x p = Pending) ∧
      (∀ p error, p ∈ _sendingPromises called → stateOf x p ≠ Rejected error)
  end.
Proof.
  intros called x Hfirst.
  assert (Hflag : isCalled (_shutdownOnce called) = false).
  { unfold called. rewrite flag_counts_shutdown_calls, Hfirst. done. }
  set (down := (shutdown called).1).
  assert (Hx : x = run serialize after down).
  { unfold x. by rewrite run_app. }
  assert (Hdown : _shutdownOnce down =
    {| isCalled := true; _deferred := Some (FlushPromise (length (flushed called))) |}).
  { unfold down, shutdown. by rewrite Hflag. }
  assert (Hnew : ∃ flush, flushed down !! length (flushed called) = Some flush ∧
                          inputs flush = _sendingPromises called).
  { unfold down, shutdown. rewrite Hflag. simpl. eexists.
    split; [by rewrite lookup_app_r, Nat.sub_diag by lia|done]. }
  destruct Hnew as (flush0 & Hflush0 & Hinputs0).
  destruct (run_keeps_inputs serialize after _ _ _ Hflush0) as (flush & Hflush & Hinputs).
  rewrite <- Hx in Hflush.
  pose proof (flush_at_is_sound concurrencyLimit (before ++ Shutdown :: after) _ _ Hflush)
    as Hsound.
  fold x in Hsound. unfold flushSound in Hsound. rewrite Hinputs, Hinputs0 in Hsound.
  unfold settlement.
  replace (_shutdownOnce x) with (_shutdownOnce down)
    by (rewrite Hx, run_keeps_once_when_called; [done|by rewrite Hdown]).
  rewrite Hdown. simpl. by rewrite Hflush.
Qed.

End Facts.

Section Examples.
Import ExporterExamples.

(** [callback_calls_balance_exports] at one export whose callback throws on
    the success: it is called twice, and the books balance. *)
Lemma callback_calls_balance_exports_witness :
  let actions :=
    [ Export tt 7; FetchSettles 0 (Responds {| ok := true; statusText := "OK" |});
      HandlerRuns 0 (Some "callback failed"); HandlerRuns 0 None ] in
  let x := run serializeNothing actions (constructor None) in
  effects x =
    [ Serialize ""; Fetch 0 "";
      ResultCallback 7 SUCCESS; ResultCallback 7 (FAILED "callback failed") ] ∧
  callsOf 7 x + unanswered 7 x = exportsWith 7 actions + answeredTwice 7 x ∧
  answeredTwice 7 x ≤ throwingTurns actions.
Proof.
  split; [reflexivity|].
  destruct (callback_calls_balance_exports serializeNothing None
    [ Export tt 7; FetchSettles 0 (Responds {| ok := true; statusText := "OK" |});
      HandlerRuns 0 (Some "callback failed"); HandlerRuns 0 None ] 7)
    as (Hbooks & Htwice & _).
  exact (conj Hbooks Htwice).
Defined.

(** [request_is_answered_through_its_own_callback] at an exporter with
    limit one: the request is started with callback 7 and a flush is
    called; the request is answered with a response that is [ok]; another
    export takes the free slot; the callback throws on the success and is
    called again, and throws again. *)
Lemma request_is_answered_through_its_own_callback_witness :
  let x1 := run serializeNothing [Export tt 7; ForceFlush] (constructor (Some 1)) in
  let x2 := fetchSettles 0 (Responds {| ok := true; statusText := "OK" |}) x1 in
  let x3 := run serializeNothing [Export tt 8] x2 in
  let x4 := handlerRuns 0 (Some "callback failed") x3 in
  let x6 := handlerRuns 0 (Some "failed again") x4 in
  _sendingPromises x2 = [] ∧
  effects x2 = effects x1 ∧
  effects x3 = effects x2 ++ [Serialize ""; Fetch 1 ""] ∧
  effects x4 = effects x3 ++ [ResultCallback 7 SUCCESS] ∧
  effects x6 =
    effects x4 ++ [ResultCallback 7 (FAILED "callback failed");
                   UnhandledRejection "failed again"] ∧
  handlerRuns 0 None x6 = x6.
Proof.
  destruct (request_is_answered_through_its_own_callback serializeNothing (Some 1)
    [] tt 7 [ForceFlush] (Responds {| ok := true; statusText := "OK" |})
    [Export tt 8] (Some "callback failed") eq_refl eq_refl eq_refl eq_refl)
    as ((_ & Hsending & Heffects & Hfree) & _ & Hfirst & Hretry & _).
  destruct (Hretry "callback failed" [] (Some "failed again") eq_refl eq_refl eq_refl)
    as [Hsecond Hdone].
  exact (conj Hsending (conj Heffects (conj (Hfree eq_refl tt 8)
    (conj Hfirst (conj Hsecond (Hdone [] None)))))).
Defined.

(** [flush_of_nothing_is_fulfilled] at a fresh exporter, with an export and
    its failure after the flush. *)
Lemma flush_of_nothing_is_fulfilled_witness :
  let called := constructor None in
  let x := run serializeNothing [Export tt 0; FetchSettles 0 (Fails "network down")]
             (forceFlush called).1 in
  settlement x (forceFlush called).2 = Fulfilled tt.
Proof.
  apply (flush_of_nothing_is_fulfilled serializeNothing None []
    [Export tt 0; FetchSettles 0 (Fails "network down")]).
  reflexivity.
Defined.

(** [shutdown_promise_waits_like_a_flush] at two requests in flight, the
    first of which fails in transport after [shutdown]. *)
Lemma shutdown_promise_waits_like_a_flush_witness :
  let x := run serializeNothing
             ([Export tt 0; Export tt 1] ++
              Shutdown :: [FetchSettles 0 (Fails "network down")])
             (constructor None) in
  ∃ p, p ∈ _sendingPromises twoInFlight ∧ stateOf x p = Rejected "network down".
Proof.
  apply (shutdown_promise_waits_like_a_flush serializeNothing None
    [Export tt 0; Export tt 1] [FetchSettles 0 (Fails "network down")]).
  reflexivity.
Defined.

End Examples.
End PushGatewayMore.

(** ** Properties of the decorator adapter *)
Module DecoratorsFacts.
Import Wrappers WrappersFacts Decorators.

Section Facts.
Context {V E : Type}.
Variable no_caller : AttributeValue.
Variable invalidDescriptor : E.
Variable cannotRedefine : string -> E.
Implicit Types (prototype visited rest : list (string * @Property V E)).
Implicit Types (f : FunctionSig V E) (own : @Property V E).
Implicit Types (options : option (AutometricsOptions V E)).
Implicit Types (this : Receiver V) (context : option ALS.ALSInstance).

(** For a method, [autometrics] returns the decorated method. *)
Lemma autometrics_for_method options modulePath asyncLocalStorage f :
  autometrics no_caller (argsFor options f) modulePath asyncLocalStorage =
  ((autometrics no_caller (argsFor options f) modulePath asyncLocalStorage).1,
   Normal (Some (decoratedMethod no_caller options modulePath asyncLocalStorage f))).
Proof.
  unfold autometrics, decoratedMethod.
  destruct (closure no_caller (argsFor options f) modulePath asyncLocalStorage); [done|].
  by destruct options.
Qed.

(** The method decorator on the descriptor of a method. *)
Lemma method_decorator_on_method options modulePath asyncLocalStorage
    (descriptor : @PropertyDescriptor V E) f :
  value descriptor = Some f →
  getAutometricsMethodDecorator no_caller options modulePath asyncLocalStorage descriptor =
  ((autometrics no_caller (argsFor options f) modulePath asyncLocalStorage).1,
   Normal (setValue descriptor
             (Some (decoratedMethod no_caller options modulePath asyncLocalStorage f)))).
Proof.
  intros Hf. unfold getAutometricsMethodDecorator. rewrite Hf.
  pose proof (autometrics_for_method options modulePath asyncLocalStorage f) as Ha.
  destruct options as [o|]; simpl in *; rewrite Ha;
    cbv [mbind mret Eff_bind Eff_ret bind ret]; by rewrite app_nil_r.
Qed.

(** The method decorator on a descriptor without a function: the warning,
    and [undefined] under the [value] key. *)
Lemma method_decorator_without_method options modulePath asyncLocalStorage
    (descriptor : @PropertyDescriptor V E) :
  value descriptor = None →
  getAutometricsMethodDecorator no_caller options modulePath asyncLocalStorage descriptor =
  ([Warn no_name_warning], Normal (setValue descriptor None)).
Proof.
  intros Hf. unfold getAutometricsMethodDecorator. rewrite Hf.
  by destruct options.
Qed.

Lemma getOwnProperty_app prototype name own rest :
  name ∉ prototype.*1 →
  getOwnProperty (prototype ++ (name, own) :: rest) name = Some own.
Proof.
  induction prototype as [|[key p] prototype IH]; simpl; intros Hname.
  - by rewrite decide_True.
  - apply not_elem_of_cons in Hname as [Hne Hname].
    rewrite decide_False by done. by apply IH.
Qed.

Lemma defineProperty_app prototype name own rest descriptor sameValue :
  name ∉ prototype.*1 →
  defineProperty invalidDescriptor cannotRedefine (prototype ++ (name, own) :: rest) name descriptor sameValue =
  match redefine invalidDescriptor cannotRedefine name own descriptor sameValue with
  | Normal own' => Normal (prototype ++ (name, own') :: rest)
  | Raised error => Raised error
  end.
Proof.
  induction prototype as [|[key p] prototype IH]; simpl; intros Hname.
  - by rewrite decide_True.
  - apply not_elem_of_cons in Hname as [Hne Hname].
    rewrite decide_False by done. rewrite IH by done.
    by destruct (redefine invalidDescriptor cannotRedefine name own descriptor sameValue).
Qed.

Lemma after_nil (d : @Decorated V E) : after [] d = d.
Proof. by destruct d as [[events r] prototype]. Qed.

Lemma after_after (events events' : list (Event E)) (d : @Decorated V E) :
  after events (after events' d) = after (events ++ events') d.
Proof. unfold after. simpl. by rewrite app_assoc. Qed.

(** One turn of the loop at a property that it passes. *)
Lemma loop_passes options modulePath asyncLocalStorage visited name own rest names :
  name ∉ visited.*1 →
  passes no_caller options modulePath asyncLocalStorage (name, own) →
  decorateProperties no_caller invalidDescriptor cannotRedefine options modulePath asyncLocalStorage
    (name :: names) (visited ++ (name, own) :: rest) =
  after (turnEvents no_caller options modulePath asyncLocalStorage (name, own))
    (decorateProperties no_caller invalidDescriptor cannotRedefine options modulePath asyncLocalStorage names
       (visited ++
        decoratedEntry no_caller options modulePath asyncLocalStorage (name, own) :: rest)).
Proof.
  intros Hnew Hpass. cbn [decorateProperties]. rewrite getOwnProperty_app by done.
  unfold passes, turnEvents, decoratedEntry, methodOf, readProperty in *.
  cbn [fst snd] in *.
  destruct own as [[held isWritable|getter] isEnumerable isConfigurable]; cbn in *.
  - destruct held as [f|v|]; cbn; [|done..].
    destruct (decide (name = "constructor")) as [->|Hne]; [done|].
    set (descriptor := getOwnPropertyDescriptor _).
    rewrite (method_decorator_on_method _ _ _ descriptor f eq_refl).
    rewrite defineProperty_app by done. unfold redefine. cbn.
    assert (Haccepted :
      isConfigurable ||
      (negb isConfigurable && eqb isEnumerable isEnumerable &&
       (isWritable ||
        (negb isWritable &&
         returnsItsInput no_caller options modulePath asyncLocalStorage f))) = true).
    { destruct isConfigurable, isWritable, isEnumerable; simpl; try done;
        by destruct Hpass as [?|[?|?]]. }
    rewrite Haccepted. by rewrite after_after.
  - destruct getter as [[events [read|error]]|]; cbn in *; [|done|].
    + destruct read as [f|v|]; rewrite ?app_nil_r; [|done..].
      rewrite decide_True by done. done.
    + by rewrite after_nil.
Qed.

(** The loop over properties that it passes, with the properties already
    visited in front and others behind. *)
Lemma loop_passes_all options modulePath asyncLocalStorage visited prototype rest names :
  NoDup (prototype.*1) → (∀ name, name ∈ prototype.*1 → name ∉ visited.*1) →
  Forall (passes no_caller options modulePath asyncLocalStorage) prototype →
  decorateProperties no_caller invalidDescriptor cannotRedefine options modulePath asyncLocalStorage
    (prototype.*1 ++ names) (visited ++ prototype ++ rest) =
  after (decorationEvents no_caller options modulePath asyncLocalStorage prototype)
    (decorateProperties no_caller invalidDescriptor cannotRedefine options modulePath asyncLocalStorage names
       ((visited ++
         (decoratedEntry no_caller options modulePath asyncLocalStorage <$> prototype)) ++
        rest)).
Proof.
  revert visited.
  induction prototype as [|[name own] prototype IH]; intros visited Hnd Hfresh Hpass.
  - simpl. by rewrite after_nil, app_nil_r.
  - rewrite fmap_cons in Hnd. simpl in Hnd. apply NoDup_cons in Hnd as [Hname Hnd].
    apply Forall_cons in Hpass as [Hown Hpass].
    assert (Hnew : name ∉ visited.*1) by (apply Hfresh; rewrite fmap_cons; left).
    rewrite fmap_cons. cbn [fst app].
    rewrite (loop_passes _ _ _ _ _ _ _ _ Hnew Hown).
    set (entry' := decoratedEntry no_caller options modulePath asyncLocalStorage (name, own)).
    assert (Hentry' : entry'.1 = name).
    { unfold entry', decoratedEntry. by repeat case_match. }
    specialize (IH (visited ++ [entry']) Hnd).
    rewrite <- !app_assoc in IH. cbn [app] in IH. rewrite IH; [|..|done].
    + rewrite after_after. unfold decorationEvents. cbn [flat_map].
      by rewrite fmap_cons, <- !app_assoc.
    + intros n Hn. rewrite fmap_app, not_elem_of_app. split.
      * apply Hfresh. rewrite fmap_cons. by right.
      * simpl. rewrite Hentry'. intros ->%list_elem_of_singleton. done.
Qed.

(** The class decorator on a prototype all of whose properties it passes. *)
Lemma class_decorator_passes options modulePath asyncLocalStorage prototype :
  NoDup (prototype.*1) →
  Forall (passes no_caller options modulePath asyncLocalStorage) prototype →
  getAutometricsClassDecorator no_caller invalidDescriptor cannotRedefine options modulePath asyncLocalStorage
    prototype =
  ((decorationEvents no_caller options modulePath asyncLocalStorage prototype, Normal tt),
   decoratedEntry no_caller options modulePath asyncLocalStorage <$> prototype).
Proof.
  intros Hnd Hpass. unfold getAutometricsClassDecorator, getOwnPropertyNames.
  pose proof (loop_passes_all options modulePath asyncLocalStorage [] prototype [] []
    Hnd) as Hloop.
  rewrite !app_nil_r in Hloop. cbn [app] in Hloop. rewrite Hloop; [|..|done].
  - unfold after. simpl. by rewrite app_nil_r.
  - intros name _. apply not_elem_of_nil.
Qed.

(** One turn of the loop at a property whose getter throws. *)
Lemma loop_getter_throws options modulePath asyncLocalStorage visited name own rest names
    events error :
  name ∉ visited.*1 →
  slot own = AccessorSlot (Some (events, Raised error)) →
  decorateProperties no_caller invalidDescriptor cannotRedefine options modulePath asyncLocalStorage
    (name :: names) (visited ++ (name, own) :: rest) =
  ((events, Raised error), visited ++ (name, own) :: rest).
Proof.
  intros Hnew Hslot. cbn [decorateProperties]. rewrite getOwnProperty_app by done.
  unfold readProperty. by rewrite Hslot.
Qed.

(** One turn of the loop at accessors whose getter returns a function. *)
Lemma loop_getter_returns_function options modulePath asyncLocalStorage visited name own
    rest names events f :
  name ∉ visited.*1 → name ≠ "constructor" →
  slot own = AccessorSlot (Some (events, Normal (FunctionValue f))) →
  decorateProperties no_caller invalidDescriptor cannotRedefine options modulePath asyncLocalStorage
    (name :: names) (visited ++ (name, own) :: rest) =
  ((events ++ [Warn no_name_warning],
    Raised invalidDescriptor),
   visited ++ (name, own) :: rest).
Proof.
  intros Hnew Hne Hslot. cbn [decorateProperties]. rewrite getOwnProperty_app by done.
  unfold readProperty. rewrite Hslot. rewrite decide_False by done.
  set (descriptor := getOwnPropertyDescriptor own).
  assert (Hvalue : value descriptor = None).
  { unfold descriptor, getOwnPropertyDescriptor. by rewrite Hslot. }
  rewrite (method_decorator_without_method _ _ _ descriptor Hvalue), Hvalue.
  rewrite defineProperty_app by done.
  unfold redefine, setValue, descriptor, getOwnPropertyDescriptor. cbn. rewrite Hslot.
  unfold after. cbn. by rewrite ?app_nil_r.
Qed.

(** One turn of the loop at a method that is neither configurable nor
    writable and that [autometrics] instruments. *)
Lemma loop_method_is_frozen options modulePath asyncLocalStorage visited name own rest names
    f c :
  name ∉ visited.*1 → name ≠ "constructor" →
  slot own = DataSlot (FunctionValue f) false → isConfigurable own = false →
  closure no_caller (argsFor options f) modulePath asyncLocalStorage = Some c →
  decorateProperties no_caller invalidDescriptor cannotRedefine options modulePath asyncLocalStorage
    (name :: names) (visited ++ (name, own) :: rest) =
  (([CounterAdd 0 (counterLabels c "ok")],
    Raised (cannotRedefine name)),
   visited ++ (name, own) :: rest).
Proof.
  intros Hnew Hne Hslot Hconfigurable Hc.
  destruct own as [s isEnumerable isConfigurable]. cbn in Hslot, Hconfigurable. subst.
  cbn [decorateProperties]. rewrite getOwnProperty_app by done.
  cbn. rewrite decide_False by done.
  set (descriptor := getOwnPropertyDescriptor _).
  rewrite (method_decorator_on_method _ _ _ descriptor f eq_refl).
  rewrite defineProperty_app by done.
  unfold redefine, returnsItsInput. cbn. rewrite Hc, andb_false_r. cbn.
  unfold autometrics. rewrite Hc. unfold after. cbn. done.
Qed.

(** What [decoratedMethod] is: the method itself, or a wrapper whose calls
    end as calls of the method without the receiver do. *)
Lemma decorated_method_cases options modulePath asyncLocalStorage f :
  let g := decoratedMethod no_caller options modulePath asyncLocalStorage f in
  (closure no_caller (argsFor options f) modulePath asyncLocalStorage = None ∧ g = f) ∨
  (∃ c, closure no_caller (argsFor options f) modulePath asyncLocalStorage = Some c ∧
        fn c = f ∧ g = wrapper c ∧
        ∀ this params context,
          outcome (fn_apply g this params context) =
          outcome (fn_apply f (calleeReceiver context) params (calleeContext c context))).
Proof.
  unfold decoratedMethod.
  destruct (closure no_caller (argsFor options f) modulePath asyncLocalStorage)
    as [c|] eqn:Hc; [|by left].
  right. exists c.
  destruct (closure_inv no_caller _ _ _ _ Hc) as (_ & _ & _ & _ & Hfn).
  assert (Hf : fn c = f) by (destruct options; simpl in Hfn; congruence).
  repeat split; [done|]. subst f. intros this params context.
  rewrite wrapper_unfold. unfold outcome. simpl.
  destruct (fn_apply (fn c) (calleeReceiver context) params (calleeContext c context))
    as [evs [[v|p]|error]]; simpl; [done| |done].
  by destruct p as [later [v|error]|later].
Qed.

(** The observation [autometrics] makes for a method when no [functionName]
    is given: the warning for a nameless function, else the zero-valued
    counter observation under the method's own name. *)
Lemma method_observation options modulePath asyncLocalStorage f :
  (∀ o, options = Some o → opt_functionName o = None) →
  (autometrics no_caller (argsFor options f) modulePath asyncLocalStorage).1 =
  if decide (fn_name f = "") then [Warn no_name_warning]
  else [CounterAdd 0
          (methodLabels no_caller options modulePath asyncLocalStorage (fn_name f))].
Proof.
  intros Hno. unfold autometrics, closure, methodLabels.
  destruct options as [o|]; cbn.
  - rewrite (Hno o eq_refl). cbn. by case_decide.
  - by case_decide.
Qed.

Lemma decoratedEntry_name options modulePath asyncLocalStorage (entry : string * @Property V E) :
  (decoratedEntry no_caller options modulePath asyncLocalStorage entry).1 = entry.1.
Proof. unfold decoratedEntry. by repeat case_match. Qed.

(** The class decorator on a prototype whose own property names are
    distinct, as those of an object are, and all of whose properties it
    passes: it does not throw; every own property keeps its name and its
    place; the constructor, a property that holds no function and accessors
    are left as they are; every other method is replaced, with its
    attributes unchanged, by what [autometrics] returns for it; and what
    happens meanwhile is what the getters and those calls of [autometrics]
    do, in property order. *)
Theorem class_decorator_wraps_each_method_in_place
    options modulePath asyncLocalStorage prototype :
  NoDup (getOwnPropertyNames prototype) →
  Forall (passes no_caller options modulePath asyncLocalStorage) prototype →
  ∃ decorated,
    getAutometricsClassDecorator no_caller invalidDescriptor cannotRedefine options modulePath asyncLocalStorage
      prototype =
      ((decorationEvents no_caller options modulePath asyncLocalStorage prototype,
        Normal tt), decorated) ∧
    getOwnPropertyNames decorated = getOwnPropertyNames prototype ∧
    (∀ i entry,
       prototype !! i = Some entry → methodOf entry = None →
       decorated !! i = Some entry) ∧
    (∀ i name f isWritable isEnumerable isConfigurable,
       prototype !! i =
         Some (name, {| slot := DataSlot (FunctionValue f) isWritable;
                        isEnumerable := isEnumerable;
                        isConfigurable := isConfigurable |}) →
       name ≠ "constructor" →
       decorated !! i =
         Some (name,
               {| slot := DataSlot
                            (FunctionValue
                               (decoratedMethod no_caller options modulePath
                                  asyncLocalStorage f))
                            isWritable;
                  isEnumerable := isEnumerable;
                  isConfigurable := isConfigurable |})).
Proof.
  intros Hnd Hpass.
  exists (decoratedEntry no_caller options modulePath asyncLocalStorage <$> prototype).
  unfold Prototype in *. repeat split.
  - by apply class_decorator_passes.
  - unfold getOwnPropertyNames. rewrite <- list_fmap_compose. apply list_fmap_ext.
    intros i entry _. apply decoratedEntry_name.
  - intros i entry Hi Hnone. rewrite list_lookup_fmap, Hi. simpl.
    unfold decoratedEntry. by rewrite Hnone.
  - intros i name f isWritable isEnumerable isConfigurable Hi Hne.
    rewrite list_lookup_fmap, Hi. simpl.
    unfold decoratedEntry, methodOf. cbn. by rewrite decide_False.
Qed.

(** Where the class decorator stops.  Let it pass the properties before one
    that it does not pass.  If that property's getter throws, the decorator
    throws the same error.  If the getter returns a function, the method
    decorator is given a descriptor without a function: it warns, and
    [Object.defineProperty] rejects the descriptor, which now has accessors
    and a value.  If the property holds a method that is neither
    configurable nor writable and that [autometrics] instruments, the
    observation at zero is made and [Object.defineProperty] rejects the new
    value.  Each time the properties before are already decorated, and this
    one and those behind it are as they were. *)
Theorem class_decorator_stops_where_it_cannot_redefine
    options modulePath asyncLocalStorage before name own rest :
  NoDup (getOwnPropertyNames (before ++ (name, own) :: rest)) →
  Forall (passes no_caller options modulePath asyncLocalStorage) before →
  let result :=
    getAutometricsClassDecorator no_caller invalidDescriptor cannotRedefine options modulePath asyncLocalStorage
      (before ++ (name, own) :: rest) in
  let left :=
    (decoratedEntry no_caller options modulePath asyncLocalStorage <$> before) ++
    (name, own) :: rest in
  let events := decorationEvents no_caller options modulePath asyncLocalStorage before in
  (∀ events' error,
     slot own = AccessorSlot (Some (events', Raised error)) →
     result = ((events ++ events', Raised error), left)) ∧
  (∀ events' f,
     slot own = AccessorSlot (Some (events', Normal (FunctionValue f))) →
     name ≠ "constructor" →
     result =
       ((events ++ events' ++ [Warn no_name_warning],
         Raised invalidDescriptor),
        left)) ∧
  (∀ f c,
     slot own = DataSlot (FunctionValue f) false → isConfigurable own = false →
     name ≠ "constructor" →
     closure no_caller (argsFor options f) modulePath asyncLocalStorage = Some c →
     result =
       ((events ++ [CounterAdd 0 (counterLabels c "ok")],
         Raised (cannotRedefine name)),
        left)).
Proof.
  intros Hnd Hpass result left events.
  unfold getOwnPropertyNames in Hnd. rewrite fmap_app, fmap_cons in Hnd.
  apply NoDup_app in Hnd as (Hbefore & Hfresh & Hrest). cbn [fst] in *.
  assert (Hnew :
    name ∉ (decoratedEntry no_caller options modulePath asyncLocalStorage <$> before).*1).
  { rewrite <- list_fmap_compose.
    rewrite (list_fmap_ext _ fst before) by (intros i entry _; apply decoratedEntry_name).
    intros Hin. apply (Hfresh name Hin). left. }
  assert (Hloop : result =
    after events
      (decorateProperties no_caller invalidDescriptor cannotRedefine options modulePath asyncLocalStorage
         (name :: rest.*1)
         ((decoratedEntry no_caller options modulePath asyncLocalStorage <$> before) ++
          (name, own) :: rest))).
  { unfold result, getAutometricsClassDecorator, getOwnPropertyNames.
    rewrite fmap_app, fmap_cons. cbn [fst].
    pose proof (loop_passes_all options modulePath asyncLocalStorage [] before
      ((name, own) :: rest) (name :: rest.*1) Hbefore) as Hall.
    cbn [app] in Hall. apply Hall; [|done].
    intros n _. apply not_elem_of_nil. }
  rewrite Hloop. repeat split.
  - intros events' error Hslot.
    by rewrite (loop_getter_throws _ _ _ _ _ _ _ _ events' error Hnew Hslot).
  - intros events' f Hslot Hne.
    by rewrite (loop_getter_returns_function _ _ _ _ _ _ _ _ events' f Hnew Hne Hslot).
  - intros f c Hslot Hconfigurable Hne Hc.
    by rewrite (loop_method_is_frozen _ _ _ _ _ _ _ _ f c Hnew Hne Hslot Hconfigurable Hc).
Qed.

(** A decorated class method runs without its receiver.  After the class
    decorator, the property that held a method holds the method itself,
    when it has no name to instrument it under, or else a wrapper; and a
    call of that wrapper, on whatever receiver, returns, throws, fulfils or
    rejects as a call of the original does that is given the receiver of
    [instrumentedFn] ([undefined], or [null] under the propagator) in the
    caller context the wrapper sets up. *)
Theorem decorated_class_methods_run_without_their_receiver
    options modulePath asyncLocalStorage prototype i name f
    isWritable isEnumerable isConfigurable :
  NoDup (getOwnPropertyNames prototype) →
  Forall (passes no_caller options modulePath asyncLocalStorage) prototype →
  prototype !! i =
    Some (name, {| slot := DataSlot (FunctionValue f) isWritable;
                   isEnumerable := isEnumerable;
                   isConfigurable := isConfigurable |}) →
  name ≠ "constructor" →
  ∃ g,
    (getAutometricsClassDecorator no_caller invalidDescriptor cannotRedefine options modulePath asyncLocalStorage
       prototype).2 !! i =
      Some (name, {| slot := DataSlot (FunctionValue g) isWritable;
                     isEnumerable := isEnumerable;
                     isConfigurable := isConfigurable |}) ∧
    ((closure no_caller (argsFor options f) modulePath asyncLocalStorage = None ∧ g = f) ∨
     (∃ c, closure no_caller (argsFor options f) modulePath asyncLocalStorage = Some c ∧
           fn c = f ∧ g = wrapper c ∧
           ∀ this params context,
             outcome (fn_apply g this params context) =
             outcome (fn_apply f (calleeReceiver context) params (calleeContext c context)))).
Proof.
  intros Hnd Hpass Hi Hne. unfold Prototype in *.
  exists (decoratedMethod no_caller options modulePath asyncLocalStorage f). split.
  - rewrite class_decorator_passes by done. cbn [snd].
    rewrite list_lookup_fmap, Hi. simpl.
    unfold decoratedEntry, methodOf. cbn. by rewrite decide_False.
  - apply decorated_method_cases.
Qed.

(** A class whose own properties all hold values, decorated without
    [functionName]: all that happens while it is decorated is, for each
    method in property order, one observation of the counter at zero under
    the method's own name, or the warning if the method has none.  The
    labels of each observation are those of [autometrics]: the method's
    name, the module, [result = "ok"], the caller read at that moment and
    the objective labels. *)
Theorem class_decorator_observes_each_method_once
    options modulePath asyncLocalStorage prototype :
  NoDup (getOwnPropertyNames prototype) →
  Forall (passes no_caller options modulePath asyncLocalStorage) prototype →
  Forall isData prototype →
  (∀ o, options = Some o → opt_functionName o = None) →
  (getAutometricsClassDecorator no_caller invalidDescriptor cannotRedefine options modulePath asyncLocalStorage
     prototype).1 =
    (flat_map
       (fun f =>
          if decide (fn_name f = "") then [Warn no_name_warning]
          else [CounterAdd 0
                  (methodLabels no_caller options modulePath asyncLocalStorage
                     (fn_name f))])
       (methods prototype),
     Normal tt) ∧
  ∀ methodName,
    let labels :=
      methodLabels no_caller options modulePath asyncLocalStorage methodName in
    labels !! "function" = Some (AttrString methodName) ∧
    labels !! "result" = Some (AttrString "ok") ∧
    labels !! "caller" = Some (getALSCaller no_caller asyncLocalStorage) ∧
    dom labels = ({[ "function"; "module"; "result"; "caller";
                     "objective_name"; "objective_percentile" ]} : gset string).
Proof.
  intros Hnd Hpass Hdata Hno. split.
  - rewrite class_decorator_passes by done. cbn [fst]. f_equal.
    clear Hnd Hpass. unfold decorationEvents, methods.
    induction prototype as [|entry prototype IH]; [done|].
    apply Forall_cons in Hdata as [Hentry Hdata].
    cbn [flat_map omap]. rewrite (IH Hdata). clear IH.
    unfold turnEvents, readProperty, isData in *.
    destruct (slot entry.2) as [held isWritable|getter] eqn:Hslot; [|done].
    cbn. destruct (methodOf entry) as [f|]; [|done].
    cbn [flat_map app]. by rewrite method_observation, ?app_nil_r.
  - intros methodName labels. unfold labels, methodLabels.
    rewrite counterObjectiveAttributesOf_eq. repeat split; reflexivity.
Qed.

(** The method decorator never throws and changes the value of the
    descriptor and nothing else.  Given a method, the new value is the
    method itself, when it has no name to instrument it under, or else a
    wrapper whose calls, on whatever receiver, end as calls of the method
    without the receiver do; given no function, as for the descriptor of
    accessors, it warns and the value is [undefined], with options and
    without. *)
Theorem method_decorator_replaces_only_the_value
    options modulePath asyncLocalStorage (descriptor : @PropertyDescriptor V E) :
  ∃ events descriptor',
    getAutometricsMethodDecorator no_caller options modulePath asyncLocalStorage
      descriptor = (events, Normal descriptor') ∧
    kind descriptor' = kind descriptor ∧
    enumerable descriptor' = enumerable descriptor ∧
    configurable descriptor' = configurable descriptor ∧
    match value descriptor with
    | Some f =>
        events =
          (autometrics no_caller (argsFor options f) modulePath asyncLocalStorage).1 ∧
        ∃ g, value descriptor' = Some g ∧
          ((closure no_caller (argsFor options f) modulePath asyncLocalStorage = None ∧
            g = f) ∨
           (∃ c, closure no_caller (argsFor options f) modulePath asyncLocalStorage =
                   Some c ∧
                 fn c = f ∧ g = wrapper c ∧
                 ∀ this params context,
                   outcome (fn_apply g this params context) =
                   outcome (fn_apply f (calleeReceiver context) params
                              (calleeContext c context))))
    | None => value descriptor' = None ∧ events = [Warn no_name_warning]
    end.
Proof.
  destruct (value descriptor) as [f|] eqn:Hf.
  - rewrite (method_decorator_on_method options modulePath asyncLocalStorage descriptor f Hf).
    eexists _, _. repeat split. eexists. split; [done|].
    apply decorated_method_cases.
  - rewrite (method_decorator_without_method options modulePath asyncLocalStorage
      descriptor Hf).
    by eexists _, _.
Qed.

End Facts.

Section Examples.
Import Examples MoreExamples.

Lemma databaseClient_names_distinct : NoDup (getOwnPropertyNames databaseClient).
Proof. apply (bool_decide_unpack _). exact I. Qed.

Lemma databaseClient_passes :
  Forall (passes noCaller (Some sloOptions) (Some "db") topLevel) databaseClient.
Proof.
  unfold databaseClient.
  repeat (constructor; [unfold passes, methodOf; cbn; try case_decide; auto|]).
  constructor.
Qed.

Lemma reports_names_distinct : NoDup (getOwnPropertyNames reports).
Proof. apply (bool_decide_unpack _). exact I. Qed.

(** [class_decorator_wraps_each_method_in_place] at the example
    application's [DatabaseClient]: [getUsers], the second own property, is
    wrapped where it stands, and the constructor is as before. *)
Lemma class_decorator_wraps_each_method_in_place_witness :
  getOwnPropertyNames decoratedDatabaseClient =
    ["constructor"; "getUsers"; "getUser"; "addUser"; "deleteUser"] ∧
  decoratedDatabaseClient !! 0 = databaseClient !! 0 ∧
  decoratedDatabaseClient !! 1 =
    Some ("getUsers",
          method (decoratedMethod noCaller (Some sloOptions) (Some "db") topLevel getUsers)).
Proof.
  destruct (class_decorator_wraps_each_method_in_place noCaller invalidDescriptorError cannotRedefineError (Some sloOptions)
    (Some "db") topLevel databaseClient databaseClient_names_distinct
    databaseClient_passes) as (decorated & Hrun & Hnames & Hkept & Hwrapped).
  assert (Hdecorated : decoratedDatabaseClient = decorated).
  { unfold decoratedDatabaseClient. by rewrite Hrun. }
  rewrite Hdecorated. repeat split.
  - exact Hnames.
  - exact (Hkept 0 _ eq_refl eq_refl).
  - apply (Hwrapped 1 "getUsers" getUsers true false true eq_refl). discriminate.
Defined.

(** [class_decorator_stops_where_it_cannot_redefine] at a class with a
    getter that returns a function: [render] is wrapped, the getter of
    [title] is passed, at [formatter] the decorator warns and throws, and
    [print] is never reached. *)
Lemma class_decorator_stops_where_it_cannot_redefine_witness :
  ∃ counterAttrs,
    getAutometricsClassDecorator noCaller invalidDescriptorError cannotRedefineError None (Some "reports") topLevel reports =
    (([CounterAdd 0 counterAttrs; Warn no_name_warning],
      Raised invalidDescriptorError),
     (decoratedEntry noCaller None (Some "reports") topLevel <$> take 3 reports) ++
     drop 3 reports) ∧
    counterAttrs !! "function" = Some (AttrString "render").
Proof.
  eexists. split.
  - apply (proj1 (proj2 (class_decorator_stops_where_it_cannot_redefine noCaller invalidDescriptorError cannotRedefineError
      None (Some "reports") topLevel (take 3 reports) "formatter"
      (getter (ret (FunctionValue
         {| fn_name := "format"; fn_apply := fun _ _ _ => ret (Plain 2%Z) |})))
      (drop 4 reports) reports_names_distinct
      ltac:(repeat (constructor; [unfold passes, methodOf; cbn; try case_decide; auto|]);
            constructor))) [] _ eq_refl).
    discriminate.
  - reflexivity.
Defined.

(** [decorated_class_methods_run_without_their_receiver] at [getUsers] of
    the example application's [DatabaseClient]. *)
Lemma decorated_class_methods_run_without_their_receiver_witness :
  ∃ g,
    decoratedDatabaseClient !! 1 = Some ("getUsers", method g) ∧
    ((closure noCaller (ArgsOptions sloOptions (Some getUsers)) (Some "db") topLevel = None ∧
      g = getUsers) ∨
     (∃ c, closure noCaller (ArgsOptions sloOptions (Some getUsers)) (Some "db") topLevel =
             Some c ∧
           fn c = getUsers ∧ g = wrapper c ∧
           ∀ this params context,
             outcome (fn_apply g this params context) =
             outcome (fn_apply getUsers (calleeReceiver context) params
                        (calleeContext c context)))).
Proof.
  apply (decorated_class_methods_run_without_their_receiver noCaller invalidDescriptorError cannotRedefineError
    (Some sloOptions) (Some "db") topLevel databaseClient 1 "getUsers" getUsers
    true false true databaseClient_names_distinct databaseClient_passes eq_refl).
  discriminate.
Defined.

(** [class_decorator_observes_each_method_once] at the example
    application's [DatabaseClient]. *)
Lemma class_decorator_observes_each_method_once_witness :
  let labels := methodLabels noCaller (Some sloOptions) (Some "db") topLevel in
  (getAutometricsClassDecorator noCaller invalidDescriptorError cannotRedefineError (Some sloOptions) (Some "db") topLevel
     databaseClient).1 =
  ([ CounterAdd 0 (labels "getUsers"); CounterAdd 0 (labels "getUser");
     CounterAdd 0 (labels "addUser"); CounterAdd 0 (labels "deleteUser") ],
   Normal tt).
Proof.
  apply (class_decorator_observes_each_method_once noCaller invalidDescriptorError cannotRedefineError (Some sloOptions)
    (Some "db") topLevel databaseClient databaseClient_names_distinct
    databaseClient_passes).
  - repeat (constructor; [exact I|]). constructor.
  - intros o [= <-]. reflexivity.
Defined.

End Examples.
End DecoratorsFacts.
